(** * R-Memory: the context compression and eviction engine

    A shallow embedding of the R-Memory extension (the block segmenter, the
    content-addressed compression cache, the compaction swap planner and
    the FIFO eviction of the compaction history), with the properties the
    specification states about it.

    Conventions of the embedding:
    - JavaScript strings are [string]s, one character per code unit;
      [s.length] is [String.length].
    - Counts of tokens and characters are [nat]; arithmetic that can go
      below zero (savings, overflow, the running eviction total) is in [Z].
    - Untyped message and entry objects are records whose absent string
      fields are the empty string (which is how the code's truthiness
      tests and [Array.join] read them).
    - The module-level mutable singletons ([config], [messageCache],
      [compactionHistory], ...) and the files the engine owns are fields of
      one explicit [State]; functions that mutate them return the new state.
    - Logging and usage statistics are write-only and are left out; what
      is kept of a log call is an exception raised while its arguments are
      built.
    - A function that throws on some input returns an [Outcome]; calls to
      the file system are taken to succeed. *)

From Stdlib Require Import ZArith Lia List Bool Ascii String.
From stdpp Require Import gmap strings list fin_maps pretty.

Set Warnings "-abstract-large-number".

Local Open Scope Z_scope.
Local Open Scope nat_scope.

(** ** Strings *)

Module Str.

Definition nl : string := String "010"%char EmptyString.

(** [s.slice(0, n)] *)
Fixpoint take (n : nat) (s : string) : string :=
  match n, s with
  | S n', String c s' => String c (take n' s')
  | _, _ => EmptyString
  end.

(** [s.slice(n)] *)
Fixpoint drop (n : nat) (s : string) : string :=
  match n, s with
  | S n', String _ s' => drop n' s'
  | _, _ => s
  end.

(** [s.slice(-n)] for [n > 0] *)
Definition takeLast (n : nat) (s : string) : string :=
  drop (String.length s - n) s.

(** [parts.join(sep)] *)
Definition join (sep : string) (parts : list string) : string :=
  String.concat sep parts.

(** Plain concatenation of a list of strings. *)
Definition cat (parts : list string) : string :=
  fold_right String.append EmptyString parts.

(** [s.lastIndexOf(c, fromIndex)]: the last position [<= fromIndex] that
    holds [c]; [None] is JavaScript's [-1].  The scan keeps the current
    position [i] and the best position seen so far. *)
Fixpoint lastIndexOfFrom (c : ascii) (s : string) (fromIndex i : nat)
    (found : option nat) : option nat :=
  match s with
  | EmptyString => found
  | String a s' =>
      if fromIndex <? i then found
      else lastIndexOfFrom c s' fromIndex (S i)
             (if Ascii.eqb a c then Some i else found)
  end.

Definition lastIndexOf (c : ascii) (s : string) (fromIndex : nat) : option nat :=
  lastIndexOfFrom c s fromIndex 0 None.

Definition nonEmpty (s : string) : bool :=
  match s with EmptyString => false | _ => true end.

End Str.

(** [Math.ceil(text.length / 4)] *)
Definition estimateTokens (text : string) : nat :=
  (String.length text + 3) / 4.

(** ** Messages and transcript entries *)

(** One element of a message's [content] array.  [b_arguments] is the
    text [JSON.stringify(b.arguments, null, 2)] yields, [None] when it
    throws. *)
Record ContentBlock := {
  b_type : string;
  b_text : string;
  b_thinking : string;
  b_name : string;
  b_arguments : option string
}.

Inductive Content :=
| CString (s : string)
| CArray (bs : list ContentBlock)
| CNone.

Record Message := {
  m_role : string;
  m_content : Content;
  m_tool_calls : nat;          (* length of [tool_calls] when it is an array, else 0 *)
  m_tool_call_id : string;
  m_command : string;
  m_output : string;
  m_summary : string;
  m_chunkText : option string  (* [_chunkText], set on hard-split fragments *)
}.

(** The [data] of a branch entry: absent, in which case
    [JSON.stringify(entry.data)] is [undefined]; present but falsy
    ([null], [false], [0], the empty string); or truthy, with the text the
    segmenter renders it as (the string itself, or its JSON text). *)
Inductive EntryData :=
| NoData
| FalsyData
| Data (text : string).

(** A branch entry of the host's transcript. *)
Record Entry := {
  e_type : string;
  e_id : string;
  e_message : option Message;
  e_customType : string;
  e_data : EntryData;
  e_content : string;
  e_summary : string
}.

(** What a call comes to when it can throw: an exception, or a value. *)
Inductive Outcome (A : Type) :=
| Threw
| Returned (a : A).
Arguments Threw {A}.
Arguments Returned {A} a.

Definition mkMessage (role : string) (content : Content) : Message :=
  {| m_role := role; m_content := content; m_tool_calls := 0;
     m_tool_call_id := ""; m_command := ""; m_output := ""; m_summary := "";
     m_chunkText := None |}.

Definition roleIs (msg : Message) (r : string) : bool := String.eqb (m_role msg) r.
Definition typeIs (b : ContentBlock) (t : string) : bool := String.eqb (b_type b) t.

(** ** Message text extraction *)

Definition truncateLong (c : string) : string :=
  if 8000 <? String.length c
  then Str.take 4000 c +:+ Str.nl +:+ "...[truncated]..." +:+ Str.nl +:+ Str.takeLast 2000 c
  else c.

Definition imagePlaceholder : string := "[Image: ~1200 tokens]".

Definition userPart (b : ContentBlock) : list string :=
  (if typeIs b "text" && Str.nonEmpty (b_text b) then [b_text b] else [])
  ++ (if typeIs b "image" then [imagePlaceholder] else []).

Definition thinkingPart (t : string) : string :=
  if 2000 <? String.length t
  then "[Thinking]: " +:+ Str.take 500 t +:+ Str.nl +:+ "...[truncated]..."
         +:+ Str.nl +:+ Str.takeLast 500 t
  else "[Thinking]: " +:+ t.

Definition assistantPart (b : ContentBlock) : list string :=
  if typeIs b "text" then [b_text b]
  else if typeIs b "thinking" then [thinkingPart (b_thinking b)]
  else if typeIs b "toolCall" then
    [ "[Tool: " +:+ b_name b +:+ "]";
      match b_arguments b with
      | Some json => "<PRESERVE_VERBATIM>" +:+ Str.nl +:+ json +:+ Str.nl +:+ "</PRESERVE_VERBATIM>"
      | None => "[args]"
      end ]
  else [].

Definition toolResultPart (b : ContentBlock) : list string :=
  (if typeIs b "text" && Str.nonEmpty (b_text b) then [truncateLong (b_text b)] else [])
  ++ (if typeIs b "image" then [imagePlaceholder] else []).

Definition stringContent (msg : Message) : list string :=
  match m_content msg with CString s => [s] | _ => [] end.

Definition messageParts (msg : Message) : list string :=
  if roleIs msg "user" then
    "[Human]:" :: match m_content msg with
                  | CString s => [s]
                  | CArray bs => flat_map userPart bs
                  | CNone => []
                  end
  else if roleIs msg "assistant" then
    "[AI]:" :: match m_content msg with
               | CArray bs => flat_map assistantPart bs
               | _ => []
               end
  else if roleIs msg "toolResult" then
    "[Tool Result]:" :: match m_content msg with
                        | CString c => [truncateLong c]
                        | CArray bs => flat_map toolResultPart bs
                        | CNone => []
                        end
  else if roleIs msg "bashExecution" then
    ["[Bash]:"; "$ " +:+ m_command msg; truncateLong (m_output msg)]
  else if roleIs msg "compactionSummary" then ["[Previous Compressed]:"; m_summary msg]
  else if roleIs msg "branchSummary" then ["[Branch Context]:"; m_summary msg]
  else if roleIs msg "custom" then "[Custom]:" :: stringContent msg
  else ("[" +:+ (if Str.nonEmpty (m_role msg) then m_role msg else "unknown") +:+ "]:")
         :: stringContent msg.

Definition extractMessageText (msg : Message) : string :=
  Str.join Str.nl (messageParts msg).

(** The separator between the messages of one block. *)
Definition msgSep : string := Str.nl +:+ Str.nl.

(** ** Platform services

    Two library calls of the Node runtime are taken as given: the SHA-256
    hex digest of [crypto.createHash] and [Date.prototype.toISOString].
    Nothing proved below depends on what they return. *)
Class Platform := {
  sha256hex : string -> string;
  toISOString : Z -> string
}.

(** ** Configuration *)

Record Config := {
  evictTrigger : nat;
  compressTrigger : nat;
  blockSize : nat;
  minCompressChars : nat;
  minSwapTokens : nat;
  maxParallelCompressions : nat;
  enabled : bool
}.

Definition DEFAULT_CONFIG : Config :=
  {| evictTrigger := 80000; compressTrigger := 36000; blockSize := 4000;
     minCompressChars := 200; minSwapTokens := 50;
     maxParallelCompressions := 4; enabled := true |}.

(** [config.blockSize || 4000] *)
Definition maxTokensOf (cfg : Config) : nat :=
  if blockSize cfg =? 0 then 4000 else blockSize cfg.

(** [config.minSwapTokens || 50] *)
Definition minTokensOf (cfg : Config) : nat :=
  if minSwapTokens cfg =? 0 then 50 else minSwapTokens cfg.

(** ** Blocks *)

(** A block of the turn-completion path. *)
Record MsgBlock := {
  mb_messages : list Message;
  mb_text : string;
  mb_hash : string;
  mb_tokens : nat
}.

(** The [{index, id, message}] objects of the compaction path. *)
Record TurnEntry := {
  te_index : nat;
  te_id : string;
  te_message : Message
}.

(** A block of the compaction path. *)
Record EntryBlock := {
  eb_entries : list TurnEntry;
  eb_firstEntryId : string;
  eb_firstEntryIndex : nat;
  eb_text : string;
  eb_hash : string;
  eb_tokens : nat
}.

Definition nonempty {A} (l : list A) : bool :=
  match l with [] => false | _ => true end.

(** Rounding of a positive integer to 53 significant bits, ties to even:
    what a double keeps of an exact product. *)
Definition roundDouble (N : Z) : Z :=
  let shift := (Z.log2 N + 1 - 53)%Z in
  if (shift <=? 0)%Z then N
  else
    let q := Z.shiftr N shift in
    let r := Z.land N (Z.ones shift) in
    let half := Z.shiftl 1 (shift - 1) in
    Z.shiftl (if (half <? r)%Z || ((r =? half)%Z && Z.odd q) then q + 1 else q)%Z shift.

(** [newlinePos > maxChars * 0.7] as JavaScript evaluates it.  The literal
    0.7 is the double 6305039478318694 * 2^-53, just under 7/10; both sides
    are scaled by 2^53.  The test agrees with [7 * maxChars < 10 * newlinePos]
    except that a newline sitting exactly at 7/10 of [maxChars] passes when
    the product rounds below it: 180 * 0.7 is 125.99999999999999. *)
Definition pastSeventyPercent (newlinePos maxChars : nat) : bool :=
  (roundDouble (Z.of_nat maxChars * 6305039478318694) <? Z.of_nat newlinePos * 2 ^ 53)%Z.

(** Where [hardSplitText] cuts: after a newline near the boundary when
    there is one, else at [maxChars]. *)
Definition splitPoint (remaining : string) (maxChars : nat) : nat :=
  match Str.lastIndexOf "010"%char remaining maxChars with
  | Some newlinePos =>
      if pastSeventyPercent newlinePos maxChars then newlinePos + 1 else maxChars
  | None => maxChars
  end.

(** [hardSplitText]: the [while (remaining.length > maxChars)] loop, one
    unit of fuel per iteration. *)
Fixpoint hardSplitLoop (fuel : nat) (remaining : string) (maxChars : nat) : list string :=
  match fuel with
  | S fuel' =>
      if maxChars <? String.length remaining then
        let splitAt := splitPoint remaining maxChars in
        Str.take splitAt remaining :: hardSplitLoop fuel' (Str.drop splitAt remaining) maxChars
      else if 0 <? String.length remaining then [remaining] else []
  | 0 => if 0 <? String.length remaining then [remaining] else []
  end.

Definition hardSplitText (text : string) (maxChars : nat) : list string :=
  hardSplitLoop (String.length text) text maxChars.

(** OpenClaw's [toolCall], Anthropic's [tool_use], OpenAI's [tool_calls]. *)
Definition contentSome (msg : Message) (t : string) : bool :=
  match m_content msg with
  | CArray bs => existsb (fun b => typeIs b t) bs
  | _ => false
  end.

Definition hasToolUse (msg : Message) : bool :=
  contentSome msg "toolCall" || contentSome msg "tool_use" || (0 <? m_tool_calls msg).

Definition hasToolResult (msg : Message) : bool :=
  roleIs msg "toolResult" || contentSome msg "tool_result"
  || (roleIs msg "tool" && Str.nonEmpty (m_tool_call_id msg)).

Definition isSummary (msg : Message) : bool :=
  roleIs msg "compactionSummary" || roleIs msg "branchSummary".

Definition METADATA_TYPES : list string :=
  ["model-snapshot"; "openclaw.cache-ttl"; "openclaw.metadata"].

(** [getMessageFromEntry]: the message of an entry, or [None] for the
    code's [null].  For a custom entry that is not metadata the arguments
    of the debug log are built first, and among them
    [JSON.stringify(entry.data).slice(0, 200)] throws a [TypeError] when
    [data] is absent. *)
Definition getMessageFromEntry (entry : Entry) : Outcome (option Message) :=
  match (if String.eqb (e_type entry) "message" then e_message entry else None) with
  | Some m => Returned (Some m)
  | None =>
      if String.eqb (e_type entry) "custom" then
        if existsb (String.eqb (e_customType entry)) METADATA_TYPES then Returned None
        else match e_data entry with
             | NoData => Threw
             | FalsyData => Returned None
             | Data d => Returned (Some (mkMessage "assistant" (CString d)))
             end
      else if String.eqb (e_type entry) "custom_message" then
        Returned (Some (mkMessage "custom" (CString (e_content entry))))
      else if String.eqb (e_type entry) "compaction" then
        Returned
          (Some {| m_role := "compactionSummary"; m_content := CNone; m_tool_calls := 0;
                   m_tool_call_id := ""; m_command := ""; m_output := "";
                   m_summary := e_summary entry; m_chunkText := None |})
      else if String.eqb (e_type entry) "branch_summary" then
        Returned
          (Some {| m_role := "branchSummary"; m_content := CNone; m_tool_calls := 0;
                   m_tool_call_id := ""; m_command := ""; m_output := "";
                   m_summary := e_summary entry; m_chunkText := None |})
      else Returned None
  end.

Definition entryText (e : TurnEntry) : string := extractMessageText (te_message e).
Definition entryTokens (e : TurnEntry) : nat := estimateTokens (entryText e).

(** The lookahead [while (j + 1 < turnEntries.length && hasToolResult(...))]:
    the results absorbed after a tool invocation, and what is left. *)
Fixpoint takeResults (l : list TurnEntry) : list TurnEntry * list TurnEntry :=
  match l with
  | next :: l' =>
      if hasToolResult (te_message next)
      then let '(rs, tl) := takeResults l' in (next :: rs, tl)
      else ([], l)
  | [] => ([], [])
  end.

Section Segmenter.
Context `{Platform}.

Definition hashText (text : string) : string := Str.take 32 (sha256hex text).

Definition finalizeBlock (messages : list Message) : MsgBlock :=
  let text := Str.join msgSep (map extractMessageText messages) in
  {| mb_messages := messages; mb_text := text; mb_hash := hashText text;
     mb_tokens := estimateTokens text |}.

(** [entries[0]] is read without a check: every call site passes a
    non-empty list. *)
Definition finalizeEntryBlock (entries : list TurnEntry) : EntryBlock :=
  let text := Str.join msgSep (map entryText entries) in
  {| eb_entries := entries;
     eb_firstEntryId := match entries with e :: _ => te_id e | [] => "" end;
     eb_firstEntryIndex := match entries with e :: _ => te_index e | [] => 0 end;
     eb_text := text; eb_hash := hashText text; eb_tokens := estimateTokens text |}.

Definition chunkBlock (msg : Message) (chunk : string) : MsgBlock :=
  {| mb_messages :=
       [ {| m_role := m_role msg; m_content := m_content msg;
            m_tool_calls := m_tool_calls msg; m_tool_call_id := m_tool_call_id msg;
            m_command := m_command msg; m_output := m_output msg;
            m_summary := m_summary msg; m_chunkText := Some chunk |} ];
     mb_text := chunk; mb_hash := hashText chunk; mb_tokens := estimateTokens chunk |}.

Definition chunkEntryBlock (entry : TurnEntry) (chunk : string) : EntryBlock :=
  {| eb_entries := [entry]; eb_firstEntryId := te_id entry;
     eb_firstEntryIndex := te_index entry;
     eb_text := chunk; eb_hash := hashText chunk; eb_tokens := estimateTokens chunk |}.

(** *** The turn-completion path: [groupMessagesIntoBlocks] *)

(** Step 1: group into turns. *)
Fixpoint messageTurns (messages currentMsgs : list Message) : list (list Message) :=
  match messages with
  | [] => if nonempty currentMsgs then [currentMsgs] else []
  | msg :: rest =>
      if isSummary msg then messageTurns rest currentMsgs
      else if roleIs msg "user" && nonempty currentMsgs
           then currentMsgs :: messageTurns rest [msg]
           else messageTurns rest (currentMsgs ++ [msg])
  end.

Definition flushMessages (blockMsgs : list Message) : list MsgBlock :=
  if nonempty blockMsgs then [finalizeBlock blockMsgs] else [].

(** Steps 2 and 3 for one oversized turn; the result lists the blocks
    pushed from this point on. *)
Fixpoint splitTurnMessages (maxTokens maxChars : nat)
    (turnMsgs blockMsgs : list Message) (blockTokens : nat) : list MsgBlock :=
  match turnMsgs with
  | [] => flushMessages blockMsgs
  | msg :: rest =>
      let msgText := extractMessageText msg in
      let msgTokens := estimateTokens msgText in
      if maxTokens <? msgTokens then
        flushMessages blockMsgs
        ++ map (chunkBlock msg) (hardSplitText msgText maxChars)
        ++ splitTurnMessages maxTokens maxChars rest [] 0
      else if (maxTokens <? blockTokens + msgTokens) && nonempty blockMsgs then
        finalizeBlock blockMsgs :: splitTurnMessages maxTokens maxChars rest [msg] msgTokens
      else
        splitTurnMessages maxTokens maxChars rest (blockMsgs ++ [msg]) (blockTokens + msgTokens)
  end.

Definition messageTurnBlocks (maxTokens : nat) (turnMsgs : list Message) : list MsgBlock :=
  let turnText := Str.join msgSep (map extractMessageText turnMsgs) in
  if estimateTokens turnText <=? maxTokens then [finalizeBlock turnMsgs]
  else splitTurnMessages maxTokens (maxTokens * 4) turnMsgs [] 0.

Definition groupMessagesIntoBlocks (cfg : Config) (messages : list Message) : list MsgBlock :=
  flat_map (messageTurnBlocks (maxTokensOf cfg)) (messageTurns messages []).

(** *** The compaction path: [groupEntriesIntoBlocks] *)

Definition mkTurnEntry (i : nat) (entry : Entry) (msg : Message) : TurnEntry :=
  {| te_index := i; te_id := e_id entry; te_message := msg |}.

Definition lastHasToolUse (currentEntries : list TurnEntry) : bool :=
  match last currentEntries with
  | Some prev => hasToolUse (te_message prev)
  | None => false
  end.

(** [turns.push(currentEntries)] ahead of the turns that follow, when
    reading them does not throw. *)
Definition pushTurn (currentEntries : list TurnEntry)
    (following : Outcome (list (list TurnEntry))) : Outcome (list (list TurnEntry)) :=
  match following with
  | Threw => Threw
  | Returned turns => Returned (currentEntries :: turns)
  end.

(** Step 1: group into turns, keeping a user-role tool result with the
    tool invocation right before it.  [i] is the index of the head of
    [entries] in [branchEntries].  An exception of [getMessageFromEntry]
    ends the loop and leaves the function. *)
Fixpoint entryTurns (entries : list Entry) (i : nat)
    (currentEntries : list TurnEntry) : Outcome (list (list TurnEntry)) :=
  match entries with
  | [] => Returned (if nonempty currentEntries then [currentEntries] else [])
  | entry :: rest =>
      match getMessageFromEntry entry with
      | Threw => Threw
      | Returned None => entryTurns rest (S i) currentEntries
      | Returned (Some msg) =>
          if isSummary msg then entryTurns rest (S i) currentEntries
          else if roleIs msg "user" && nonempty currentEntries then
            if hasToolResult msg && lastHasToolUse currentEntries
            then entryTurns rest (S i) (currentEntries ++ [mkTurnEntry i entry msg])
            else pushTurn currentEntries (entryTurns rest (S i) [mkTurnEntry i entry msg])
          else entryTurns rest (S i) (currentEntries ++ [mkTurnEntry i entry msg])
      end
  end.

Definition flushEntries (blockEntries : list TurnEntry) : list EntryBlock :=
  if nonempty blockEntries then [finalizeEntryBlock blockEntries] else [].

(** Steps 2 and 3 for one oversized turn.  Each iteration of the [for]
    loop takes one unit of fuel; the lookahead may consume several
    entries, so the recursion is on what it leaves. *)
Fixpoint splitTurnEntries (fuel maxTokens maxChars : nat)
    (turnEntries blockEntries : list TurnEntry) (blockTokens : nat) : list EntryBlock :=
  match fuel, turnEntries with
  | S fuel', entry :: rest =>
      let msgText := entryText entry in
      let msgTokens := estimateTokens msgText in
      let '(results, rest') :=
        if hasToolUse (te_message entry) then takeResults rest else ([], rest) in
      let pairedEntries := entry :: results in
      let pairedTokens := msgTokens + list_sum (map entryTokens results) in
      if (maxTokens <? pairedTokens) && (1 <? length pairedEntries) then
        flushEntries blockEntries
        ++ finalizeEntryBlock pairedEntries
        :: splitTurnEntries fuel' maxTokens maxChars rest' [] 0
      else if (maxTokens <? pairedTokens) && (length pairedEntries =? 1) then
        flushEntries blockEntries
        ++ map (chunkEntryBlock entry) (hardSplitText msgText maxChars)
        ++ splitTurnEntries fuel' maxTokens maxChars rest' [] 0
      else if (maxTokens <? blockTokens + pairedTokens) && nonempty blockEntries then
        finalizeEntryBlock blockEntries
        :: splitTurnEntries fuel' maxTokens maxChars rest' pairedEntries pairedTokens
      else
        splitTurnEntries fuel' maxTokens maxChars rest'
          (blockEntries ++ pairedEntries) (blockTokens + pairedTokens)
  | _, _ => flushEntries blockEntries
  end.

Definition entryTurnBlocks (maxTokens : nat) (turnEntries : list TurnEntry) : list EntryBlock :=
  let turnText := Str.join msgSep (map entryText turnEntries) in
  if estimateTokens turnText <=? maxTokens then [finalizeEntryBlock turnEntries]
  else splitTurnEntries (length turnEntries) maxTokens (maxTokens * 4) turnEntries [] 0.

Definition groupEntriesIntoBlocks (cfg : Config) (branchEntries : list Entry)
    (startIndex : nat) : Outcome (list EntryBlock) :=
  match entryTurns (drop startIndex branchEntries) startIndex [] with
  | Threw => Threw
  | Returned turns => Returned (flat_map (entryTurnBlocks (maxTokensOf cfg)) turns)
  end.

End Segmenter.

(** ** Engine state *)

Record CacheEntry := {
  ce_compressed : string;
  ce_tokensRaw : nat;
  ce_tokensCompressed : nat
}.

Record HistoryEntry := {
  he_compressed : string;
  he_tokensRaw : nat;
  he_tokensCompressed : nat;
  he_timestamp : Z
}.

(** What one call of the provider's [completeSimple] comes to: a response
    whose [stopReason] is ["error"], a rejected call, or the text parts of
    [response.content]. *)
Inductive Response :=
| RespError
| RespThrow
| RespContent (texts : list string).

(** The module-level variables of the extension, and the files it owns:
    [rawArchive] is [archiveDir] (file name to content), [memoryArchive]
    is [memory/archive], [historyFiles] maps a session id to the content of
    its [history-<id>.json], [cacheFile] is [block-cache.json]. *)
Record State := {
  config : Config;
  completeSimple : option (string -> Response);
  resolvedApiKey : option string;
  currentSessionId : option string;
  compactionHistory : list HistoryEntry;
  messageCache : gmap string CacheEntry;
  compressionQueue : list (string * string);
  deferredCompactionMinBlocks : nat;
  rawArchive : gmap string string;
  memoryArchive : gmap string string;
  historyFiles : gmap string (list HistoryEntry);
  cacheFile : option (gmap string CacheEntry)
}.

Definition setSession (st : State) (sid : option string) (h : list HistoryEntry) : State :=
  {| config := config st; completeSimple := completeSimple st;
     resolvedApiKey := resolvedApiKey st; currentSessionId := sid;
     compactionHistory := h; messageCache := messageCache st;
     compressionQueue := compressionQueue st;
     deferredCompactionMinBlocks := deferredCompactionMinBlocks st;
     rawArchive := rawArchive st; memoryArchive := memoryArchive st;
     historyFiles := historyFiles st; cacheFile := cacheFile st |}.

Definition setHistory (st : State) (h : list HistoryEntry) : State :=
  setSession st (currentSessionId st) h.

Definition setCache (st : State) (c : gmap string CacheEntry) : State :=
  {| config := config st; completeSimple := completeSimple st;
     resolvedApiKey := resolvedApiKey st; currentSessionId := currentSessionId st;
     compactionHistory := compactionHistory st; messageCache := c;
     compressionQueue := compressionQueue st;
     deferredCompactionMinBlocks := deferredCompactionMinBlocks st;
     rawArchive := rawArchive st; memoryArchive := memoryArchive st;
     historyFiles := historyFiles st; cacheFile := cacheFile st |}.

Definition setQueue (st : State) (q : list (string * string)) : State :=
  {| config := config st; completeSimple := completeSimple st;
     resolvedApiKey := resolvedApiKey st; currentSessionId := currentSessionId st;
     compactionHistory := compactionHistory st; messageCache := messageCache st;
     compressionQueue := q;
     deferredCompactionMinBlocks := deferredCompactionMinBlocks st;
     rawArchive := rawArchive st; memoryArchive := memoryArchive st;
     historyFiles := historyFiles st; cacheFile := cacheFile st |}.

Definition setDeferred (st : State) (n : nat) : State :=
  {| config := config st; completeSimple := completeSimple st;
     resolvedApiKey := resolvedApiKey st; currentSessionId := currentSessionId st;
     compactionHistory := compactionHistory st; messageCache := messageCache st;
     compressionQueue := compressionQueue st;
     deferredCompactionMinBlocks := n;
     rawArchive := rawArchive st; memoryArchive := memoryArchive st;
     historyFiles := historyFiles st; cacheFile := cacheFile st |}.

Definition setRawArchive (st : State) (files : gmap string string) : State :=
  {| config := config st; completeSimple := completeSimple st;
     resolvedApiKey := resolvedApiKey st; currentSessionId := currentSessionId st;
     compactionHistory := compactionHistory st; messageCache := messageCache st;
     compressionQueue := compressionQueue st;
     deferredCompactionMinBlocks := deferredCompactionMinBlocks st;
     rawArchive := files; memoryArchive := memoryArchive st;
     historyFiles := historyFiles st; cacheFile := cacheFile st |}.

Definition setMemoryArchive (st : State) (files : gmap string string) : State :=
  {| config := config st; completeSimple := completeSimple st;
     resolvedApiKey := resolvedApiKey st; currentSessionId := currentSessionId st;
     compactionHistory := compactionHistory st; messageCache := messageCache st;
     compressionQueue := compressionQueue st;
     deferredCompactionMinBlocks := deferredCompactionMinBlocks st;
     rawArchive := rawArchive st; memoryArchive := files;
     historyFiles := historyFiles st; cacheFile := cacheFile st |}.

Definition setProvider (st : State) (provider : option (string -> Response)) : State :=
  {| config := config st; completeSimple := provider;
     resolvedApiKey := resolvedApiKey st; currentSessionId := currentSessionId st;
     compactionHistory := compactionHistory st; messageCache := messageCache st;
     compressionQueue := compressionQueue st;
     deferredCompactionMinBlocks := deferredCompactionMinBlocks st;
     rawArchive := rawArchive st; memoryArchive := memoryArchive st;
     historyFiles := historyFiles st; cacheFile := cacheFile st |}.

(** [saveCompactionHistory] and [saveMessageCache] *)
Definition saveCompactionHistory (st : State) : State :=
  {| config := config st; completeSimple := completeSimple st;
     resolvedApiKey := resolvedApiKey st; currentSessionId := currentSessionId st;
     compactionHistory := compactionHistory st; messageCache := messageCache st;
     compressionQueue := compressionQueue st;
     deferredCompactionMinBlocks := deferredCompactionMinBlocks st;
     rawArchive := rawArchive st; memoryArchive := memoryArchive st;
     historyFiles :=
       <[ default "default" (currentSessionId st) := compactionHistory st ]> (historyFiles st);
     cacheFile := cacheFile st |}.

Definition saveMessageCache (st : State) : State :=
  {| config := config st; completeSimple := completeSimple st;
     resolvedApiKey := resolvedApiKey st; currentSessionId := currentSessionId st;
     compactionHistory := compactionHistory st; messageCache := messageCache st;
     compressionQueue := compressionQueue st;
     deferredCompactionMinBlocks := deferredCompactionMinBlocks st;
     rawArchive := rawArchive st; memoryArchive := memoryArchive st;
     historyFiles := historyFiles st; cacheFile := Some (messageCache st) |}.

(** [!completeSimple || !resolvedApiKey] *)
Definition capabilityUnavailable (st : State) : bool :=
  match completeSimple st, resolvedApiKey st with
  | Some _, Some _ => false
  | _, _ => true
  end.

(** ** Archive and cache *)

(** [archiveRawBlock]: write [<hash>.md] unless a file of that name exists. *)
Definition archiveRawBlock (hash rawText : string) (files : gmap string string)
  : gmap string string :=
  match files !! (hash +:+ ".md") with
  | Some _ => files
  | None => <[ hash +:+ ".md" := rawText ]> files
  end.

Definition rawCacheEntry (text : string) (tokens : nat) : CacheEntry :=
  {| ce_compressed := text; ce_tokensRaw := tokens; ce_tokensCompressed := tokens |}.

(** [compressSingleBlock]: [None] is the code's [null].  The routing step
    only chooses which provider answers, and the key it returns is never
    empty once [resolvedApiKey] is set.  In
    [compressedTokens >= rawTokens * 0.95] the double 0.95 lies just under
    19/20, so the rounded product and the exact one are on the same side of
    every integer: the test is [95 * rawTokens <= 100 * compressedTokens]. *)
Definition compressSingleBlock (st : State) (rawText : string) : option CacheEntry :=
  match completeSimple st, resolvedApiKey st with
  | Some provider, Some _ =>
      let rawTokens := estimateTokens rawText in
      if String.length rawText <? minCompressChars (config st)
      then Some (rawCacheEntry rawText rawTokens)
      else match provider rawText with
           | RespError => None
           | RespThrow => None
           | RespContent texts =>
               let compressed := Str.join Str.nl texts in
               let compressedTokens := estimateTokens compressed in
               if 95 * rawTokens <=? 100 * compressedTokens
               then Some (rawCacheEntry rawText rawTokens)
               else Some {| ce_compressed := compressed; ce_tokensRaw := rawTokens;
                            ce_tokensCompressed := compressedTokens |}
           end
  | _, _ => None
  end.

(** ** Background compression queue *)

(** [processQueue]: background compression is switched off ("Fix 3"); the
    queue is drained by archiving the raw text of every item. *)
Fixpoint drainQueue (queue : list (string * string)) (files : gmap string string)
  : gmap string string :=
  match queue with
  | [] => files
  | (text, hash) :: rest => drainQueue rest (archiveRawBlock hash text files)
  end.

Definition processQueue (st : State) : State :=
  setQueue (setRawArchive st (drainQueue (compressionQueue st) (rawArchive st))) [].

Definition queueBlock (st : State) (block : MsgBlock) : State :=
  if negb (enabled (config st)) || capabilityUnavailable st then st
  else match messageCache st !! mb_hash block with
       | Some _ => st
       | None =>
           if String.length (mb_text block) <? minCompressChars (config st) then
             setCache st (<[ mb_hash block := rawCacheEntry (mb_text block) (mb_tokens block) ]>
                            (messageCache st))
           else
             let st1 := setQueue st (compressionQueue st ++ [(mb_text block, mb_hash block)]) in
             let st2 := if 0 <? deferredCompactionMinBlocks st1 then setDeferred st1 0 else st1 in
             processQueue st2
       end.

(** The [for (const block of blocks) queueBlock(block)] of the
    turn-completion handler. *)
Definition queueBlocks (st : State) (blocks : list MsgBlock) : State :=
  foldl queueBlock st blocks.

Section Engine.
Context `{Platform}.

(** ** FIFO eviction *)

Definition evictedFileName (block : HistoryEntry) : string :=
  "rmem-" +:+ Str.take 10 (toISOString (he_timestamp block)) +:+ "-"
  +:+ Str.take 8 (sha256hex (he_compressed block)) +:+ ".md".

Definition evictedFileText (sessionId : option string) (block : HistoryEntry) : string :=
  "# R-Memory Archive Block" +:+ Str.nl
  +:+ "- **Date:** " +:+ toISOString (he_timestamp block) +:+ Str.nl
  +:+ "- **Session:** " +:+ default "unknown" sessionId +:+ Str.nl
  +:+ "- **Tokens:** " +:+ pretty (he_tokensCompressed block) +:+ " compressed (was "
  +:+ pretty (he_tokensRaw block) +:+ " raw)" +:+ Str.nl +:+ Str.nl +:+ "---"
  +:+ Str.nl +:+ Str.nl +:+ he_compressed block.

(** [archiveEvictedBlock]: write the compressed block to [memory/archive]
    unless a file of that name exists. *)
Definition archiveEvictedBlock (sessionId : option string) (block : HistoryEntry)
    (files : gmap string string) : gmap string string :=
  match files !! evictedFileName block with
  | Some _ => files
  | None => <[ evictedFileName block := evictedFileText sessionId block ]> files
  end.

Definition overheadPerBlock : Z := 15.
Definition baseOverhead : Z := 20.

Definition historyTotal (history : list HistoryEntry) : Z :=
  (baseOverhead
   + fold_left (fun sum e => sum + Z.of_nat (he_tokensCompressed e) + overheadPerBlock)
       history 0)%Z.

(** The [while (totalTokens > config.evictTrigger && compactionHistory.length > 0)]
    loop; the result is the history left, the running total and the archive. *)
Fixpoint evictLoop (trigger : Z) (sessionId : option string)
    (history : list HistoryEntry) (totalTokens : Z) (files : gmap string string)
  : list HistoryEntry * Z * gmap string string :=
  match history with
  | oldest :: rest =>
      if (trigger <? totalTokens)%Z then
        evictLoop trigger sessionId rest
          (totalTokens - (Z.of_nat (he_tokensCompressed oldest) + overheadPerBlock))%Z
          (archiveEvictedBlock sessionId oldest files)
      else (history, totalTokens, files)
  | [] => ([], totalTokens, files)
  end.

Definition applyFifoEviction (st : State) : State :=
  let '(history, _, files) :=
    evictLoop (Z.of_nat (evictTrigger (config st))) (currentSessionId st)
      (compactionHistory st) (historyTotal (compactionHistory st)) (memoryArchive st) in
  setMemoryArchive (setHistory st history) files.

(** ** The compaction handler *)

Record Signal := {
  abortedBeforeSwap : bool;
  abortedAtBatch : nat -> bool;
  abortedBeforeAssembly : bool
}.

(** The compaction-request event; [now] is what [Date.now()] reads during
    the call. *)
Record Event := {
  tokensBefore : nat;
  branchEntries : list Entry;
  signal : Signal;
  now : Z
}.

Record Compaction := {
  summary : string;
  firstKeptEntryId : string;
  c_tokensBefore : nat
}.

(** What the handler hands back: [undefined], [{cancel: true}], a
    [{compaction: ...}] payload; [Stuck] stands for the on-demand batch
    loop not advancing (a batch size of zero), [Throws] for an exception
    that leaves the handler. *)
Inductive HandlerResult :=
| Undefined
| Cancel
| Compact (c : Compaction)
| Stuck
| Throws.

Definition detectSessionId (entries : list Entry) : string :=
  match entries with
  | e :: _ => if Str.nonEmpty (e_id e) then e_id e else "default"
  | [] => "default"
  end.

Definition loadCompactionHistory (st : State) (sessionId : string) : State :=
  setSession st (Some sessionId) (default [] (historyFiles st !! sessionId)).

(** Session tracking: a new session id loads that session's history. *)
Definition trackSession (st : State) (ev : Event) : State :=
  let sessionId := detectSessionId (branchEntries ev) in
  if bool_decide (currentSessionId st = Some sessionId) then st
  else loadCompactionHistory st sessionId.

(** The index of the last entry of type ["compaction"], scanning from the
    end; [i] is the index of the head of [entries]. *)
Fixpoint lastCompactionIndex (entries : list Entry) (i : nat) : option nat :=
  match entries with
  | [] => None
  | e :: rest =>
      match lastCompactionIndex rest (S i) with
      | Some j => Some j
      | None => if String.eqb (e_type e) "compaction" then Some i else None
      end
  end.

Definition startIndexOf (entries : list Entry) : nat :=
  match lastCompactionIndex entries 0 with Some i => S i | None => 0 end.

(** The diagnostic pass over the span: it reads every entry with
    [getMessageFromEntry] and only logs what it finds, so all that matters
    of it is whether it throws. *)
Fixpoint diagnoseEntries (entries : list Entry) : Outcome unit :=
  match entries with
  | [] => Returned tt
  | entry :: rest =>
      match getMessageFromEntry entry with
      | Threw => Threw
      | Returned _ => diagnoseEntries rest
      end
  end.

(** "Fix 2": blocks under [minSwapTokens] are left out of the swap plan. *)
Definition eligible (cfg : Config) (b : EntryBlock) : bool := minTokensOf cfg <=? eb_tokens b.

(** [Math.ceil(block.tokens * 0.6)]: the double 0.6 lies just under 3/5,
    and the rounded product has the ceiling of the exact one. *)
Definition uncachedEstimate (tokens : nat) : nat := (3 * tokens + 4) / 5.

Definition estimatedCompressed (cache : gmap string CacheEntry) (block : EntryBlock) : nat :=
  match cache !! eb_hash block with
  | Some cached => ce_tokensCompressed cached
  | None => uncachedEstimate (eb_tokens block)
  end.

Definition savings (cache : gmap string CacheEntry) (block : EntryBlock) : Z :=
  (Z.of_nat (eb_tokens block) - Z.of_nat (estimatedCompressed cache block))%Z.

(** The walk from the oldest block: [i] is the loop index, the result is
    [(totalSaved, blocksToSwap)] when the loop ends. *)
Fixpoint walkBlocks (cache : gmap string CacheEntry) (overflow : Z)
    (blocks : list EntryBlock) (i : nat) (totalSaved : Z) (blocksToSwap : nat) : Z * nat :=
  match blocks with
  | [] => (totalSaved, blocksToSwap)
  | block :: rest =>
      if (overflow <=? totalSaved)%Z then (totalSaved, blocksToSwap)
      else walkBlocks cache overflow rest (S i) (totalSaved + savings cache block)%Z (S i)
  end.

(** The swap count after the walk and the two adjustments that follow it:
    at least one, and at most all blocks but the last. *)
Definition swapCount (cache : gmap string CacheEntry) (overflow : Z)
    (blocks : list EntryBlock) : nat :=
  let blocksToSwap := snd (walkBlocks cache overflow blocks 0 0%Z 0) in
  let blocksToSwap := if blocksToSwap =? 0 then 1 else blocksToSwap in
  if length blocks <=? blocksToSwap then length blocks - 1 else blocksToSwap.

Definition overflowOf (st : State) (ev : Event) : Z :=
  (Z.of_nat (tokensBefore ev) - Z.of_nat (compressTrigger (config st)))%Z.

(** The entry the code keeps of the previous compaction, the first time a
    session with an earlier compaction is seen. *)
Definition preservePrevious (st : State) (ev : Event) : State :=
  match compactionHistory st, lastCompactionIndex (branchEntries ev) 0 with
  | [], Some i =>
      match branchEntries ev !! i with
      | Some prevEntry =>
          if Str.nonEmpty (e_summary prevEntry) then
            setHistory st
              [ {| he_compressed := e_summary prevEntry;
                   he_tokensRaw := estimateTokens (e_summary prevEntry);
                   he_tokensCompressed := estimateTokens (e_summary prevEntry);
                   he_timestamp := (now ev - 1)%Z |} ]
          else st
      | None => st
      end
  | _, _ => st
  end.

(** The swap loop: every block to swap is archived raw. *)
Definition archiveSwapped (toSwap : list EntryBlock) (files : gmap string string)
  : gmap string string :=
  fold_left (fun fs block => archiveRawBlock (eb_hash block) (eb_text block) fs) toSwap files.

(** [results[j] || { compressed: b.text, tokensRaw: b.tokens, tokensCompressed: b.tokens }] *)
Definition onDemandEntry (st : State) (b : EntryBlock) : CacheEntry :=
  match compressSingleBlock st (eb_text b) with
  | Some result => result
  | None => rawCacheEntry (eb_text b) (eb_tokens b)
  end.

Inductive BatchOutcome :=
| BatchesDone (cache : gmap string CacheEntry)
| BatchesAborted (cache : gmap string CacheEntry)
| BatchesStuck.

(** The on-demand loop over the cache misses, [batchSize] at a time; [k]
    counts the batches. *)
Fixpoint compressMissed (fuel : nat) (st : State) (sig : Signal) (batchSize k : nat)
    (missed : list EntryBlock) (cache : gmap string CacheEntry) : BatchOutcome :=
  match missed, fuel with
  | [], _ => BatchesDone cache
  | _, 0 => BatchesStuck
  | _, S fuel' =>
      if abortedAtBatch sig k then BatchesAborted cache
      else if batchSize =? 0 then BatchesStuck
      else
        let batch := take batchSize missed in
        let cache' :=
          fold_left (fun c b => <[ eb_hash b := onDemandEntry st b ]> c) batch cache in
        compressMissed fuel' st sig batchSize (S k) (drop batchSize missed) cache'
  end.

(** What the slot of a swapped block holds in the end: the entry found in
    the cache when the swap loop ran, else the on-demand result. *)
Definition slotResult (st : State) (cache0 : gmap string CacheEntry) (b : EntryBlock)
  : CacheEntry :=
  match cache0 !! eb_hash b with
  | Some cached => cached
  | None => onDemandEntry st b
  end.

Definition blockSep : string := Str.nl +:+ Str.nl +:+ "---" +:+ Str.nl +:+ Str.nl.

Definition newHistoryEntry (st : State) (cache0 : gmap string CacheEntry)
    (toSwap : list EntryBlock) (ts : Z) : HistoryEntry :=
  let newBlock := Str.join blockSep (map (fun b => ce_compressed (slotResult st cache0 b)) toSwap) in
  {| he_compressed := newBlock;
     he_tokensRaw := list_sum (map eb_tokens toSwap);
     he_tokensCompressed := estimateTokens newBlock;
     he_timestamp := ts |}.

Fixpoint historySections (history : list HistoryEntry) (i : nat) : list string :=
  match history with
  | [] => []
  | e :: rest =>
      ("## Block " +:+ pretty (i + 1) +:+ " [" +:+ Str.take 16 (toISOString (he_timestamp e)) +:+ "]")
      :: he_compressed e :: "" :: historySections rest (S i)
  end.

Definition compressedContent (history : list HistoryEntry) : string :=
  Str.join Str.nl
    ( "# R-Memory: Compressed Conversation History"
      :: ("_" +:+ pretty (length history) +:+ " blocks | ~"
          +:+ pretty (list_sum (map he_tokensCompressed history)) +:+ " tokens (was ~"
          +:+ pretty (list_sum (map he_tokensRaw history)) +:+ " raw)_")
      :: "" :: historySections history 0 ).

(** The tail of the handler, from the swap loop on, for a plan that swaps
    [toSwap] and keeps the block that starts at [firstKept]. *)
Definition swapAndAssemble (st : State) (ev : Event) (toSwap : list EntryBlock)
    (firstKept : string) : State * HandlerResult :=
  let st := preservePrevious st ev in
  if abortedBeforeSwap (signal ev) then (st, Undefined)
  else
    let cache0 := messageCache st in
    let st := setRawArchive st (archiveSwapped toSwap (rawArchive st)) in
    let missed := filter (fun b => cache0 !! eb_hash b = None) toSwap in
    match compressMissed (length missed) st (signal ev)
            (maxParallelCompressions (config st)) 0 missed cache0 with
    | BatchesStuck => (st, Stuck)
    | BatchesAborted cache => (setCache st cache, Undefined)
    | BatchesDone cache =>
        let st1 := setCache st cache in
        if abortedBeforeAssembly (signal ev) then (st1, Undefined)
        else
          let st2 := setHistory st1 (compactionHistory st1
                                      ++ [newHistoryEntry st cache0 toSwap (now ev)]) in
          let st3 := saveMessageCache (saveCompactionHistory (applyFifoEviction st2)) in
          (st3, Compact {| summary := compressedContent (compactionHistory st3);
                           firstKeptEntryId := firstKept;
                           c_tokensBefore := tokensBefore ev |})
    end.

(** [firstKeptEntryId]: the first entry of the first block kept raw. *)
Definition firstKeptOf (ev : Event) (toKeepRaw : list EntryBlock) : string :=
  match toKeepRaw with
  | b :: _ => eb_firstEntryId b
  | [] => match last (branchEntries ev) with Some e => e_id e | None => "" end
  end.

(** The handler from the filter of "Fix 2" on, for the blocks that
    passed it. *)
Definition planAndSwap (st : State) (ev : Event) (blocks : list EntryBlock)
  : State * HandlerResult :=
  if negb (nonempty blocks) then (st, Cancel)
  else if (0 <? deferredCompactionMinBlocks st)
          && (length blocks <? deferredCompactionMinBlocks st) then (st, Cancel)
  else
    let overflow := overflowOf st ev in
    if (overflow <=? 0)%Z then (st, Cancel)
    else
      let blocksToSwap := swapCount (messageCache st) overflow blocks in
      if blocksToSwap =? 0 then (setDeferred st 2, Cancel)
      else
        let st := setDeferred st 0 in
        let toSwap := take blocksToSwap blocks in
        let toKeepRaw := drop blocksToSwap blocks in
        let firstKept := firstKeptOf ev toKeepRaw in
        if negb (Str.nonEmpty firstKept) then (st, Cancel)
        else swapAndAssemble st ev toSwap firstKept.

(** [handleBeforeCompact].  After the session is tracked, the diagnostic
    pass and then the segmenter read the entries of the span: an exception
    of either leaves the handler with the session tracked and nothing else
    done. *)
Definition handleBeforeCompact (st : State) (ev : Event) : State * HandlerResult :=
  if negb (enabled (config st)) then (st, Undefined)
  else if negb (nonempty (branchEntries ev)) then (st, Cancel)
  else if capabilityUnavailable st then (st, Cancel)
  else
    let st := trackSession st ev in
    let startIdx := startIndexOf (branchEntries ev) in
    match diagnoseEntries (drop startIdx (branchEntries ev)) with
    | Threw => (st, Throws)
    | Returned _ =>
        match groupEntriesIntoBlocks (config st) (branchEntries ev) startIdx with
        | Threw => (st, Throws)
        | Returned allBlocks =>
            planAndSwap st ev (filter (fun b => eligible (config st) b = true) allBlocks)
        end
    end.

(** The hook [session_before_compact], on an initialised engine: an
    exception of the handler is caught and the round is cancelled. *)
Definition sessionBeforeCompact (st : State) (ev : Event) : State * HandlerResult :=
  let '(st', result) := handleBeforeCompact st ev in
  (st', match result with Throws => Cancel | _ => result end).

End Engine.

(** * Further parts of the extension *)

(** * The end of a turn *)

Definition MAX_CACHE_SIZE : nat := 2000.

(** The cache is a [Map], which keeps its keys in the order they were
    first set.  The engine state holds the entries; where that order
    matters it is carried beside the state, oldest key first. *)
Definition Ordered : Type := State * list string.

(** [messageCache.set] as [queueBlock] uses it, on a key the cache does
    not hold: the key goes to the end of the order. *)
Definition queueBlockOrdered (so : Ordered) (block : MsgBlock) : Ordered :=
  let '(st, order) := so in
  let st' := queueBlock st block in
  match messageCache st !! mb_hash block, messageCache st' !! mb_hash block with
  | None, Some _ => (st', order ++ [mb_hash block])
  | _, _ => (st', order)
  end.

Definition deleteKeys (keys : list string) (cache : gmap string CacheEntry)
  : gmap string CacheEntry :=
  foldr delete cache keys.

(** [cleanupCache]: over [MAX_CACHE_SIZE] entries, the oldest keys are
    deleted until that many are left, and the cache is saved. *)
Definition cleanupCache (so : Ordered) : Ordered :=
  let '(st, order) := so in
  if size (messageCache st) <=? MAX_CACHE_SIZE then so
  else
    let entriesToRemove := size (messageCache st) - MAX_CACHE_SIZE in
    (saveMessageCache (setCache st (deleteKeys (take entriesToRemove order) (messageCache st))),
     drop entriesToRemove order).

Section TurnEnd.
Context `{Platform}.

(** The handler of [agent_end] on an initialised engine, without its
    diagnostics and the narrative update it starts and does not wait for. *)
Definition agentEnd (so : Ordered) (messages : list Message) : Ordered :=
  let '(st, order) := so in
  if negb (enabled (config st)) then so
  else if negb (nonempty messages) then so
  else
    let blocks := groupMessagesIntoBlocks (config st) messages in
    cleanupCache (foldl queueBlockOrdered so blocks).

End TurnEnd.

(** * Models and keys *)

Module Routing.

(** [s.split(sep)] for a separator of one character. *)
Fixpoint splitOn (sep : ascii) (s : string) : list string :=
  match s with
  | EmptyString => [EmptyString]
  | String c rest =>
      if Ascii.eqb c sep then EmptyString :: splitOn sep rest
      else match splitOn sep rest with
           | part :: parts => String c part :: parts
           | [] => [String c EmptyString]
           end
  end.

Definition orElse (s fallback : string) : string :=
  if Str.nonEmpty s then s else fallback.

Definition slash : string := "/".

(** The provider and the model id that [buildModelObject] reads off a
    model string. *)
Definition parseModelString (modelString : string) : string * string :=
  let parts := splitOn "/" (orElse modelString "anthropic/claude-haiku-4-5") in
  let provider := orElse (hd EmptyString parts) "anthropic" in
  let modelId := orElse (Str.join slash (tl parts)) "claude-haiku-4-5" in
  (provider, modelId).

Record ModelObject := {
  mo_provider : string;
  mo_id : string;
  mo_contextWindow : nat;
  mo_inputModalities : list string
}.

(** [buildModelObject]: [getModel] is the registry function of the host
    library when it could be loaded; it answers [None] where it throws or
    returns no model (reading the model's [id] for the log then throws). *)
Definition buildModelObject (getModel : option (string -> string -> option ModelObject))
    (modelString : string) : ModelObject :=
  let '(provider, modelId) := parseModelString modelString in
  let fallback := {| mo_provider := provider; mo_id := modelId;
                     mo_contextWindow := 200000; mo_inputModalities := ["text"] |} in
  match getModel with
  | Some lookup => match lookup provider modelId with Some m => m | None => fallback end
  | None => fallback
  end.

(** ** Where keys come from *)

(** [haystack.includes(needle)] *)
Fixpoint includes (haystack needle : string) : bool :=
  String.prefix needle haystack
  || match haystack with
     | EmptyString => false
     | String _ rest => includes rest needle
     end.

(** [name.endsWith(suffix)] *)
Definition endsWith (name suffix : string) : bool :=
  String.eqb (Str.takeLast (String.length suffix) name) suffix.

(** Something read from disk: not there, there but raising on the read
    (a file that does not parse or parses to [null], a path that cannot be
    listed), or read. *)
Inductive OnDisk (A : Type) :=
| Absent
| Failing
| Content (a : A).
Arguments Absent {A}.
Arguments Failing {A}.
Arguments Content {A} a.

(** One entry of [profiles] in [auth-profiles.json]; a field that is
    absent or falsy is the empty string. *)
Record Profile := {
  token : string;
  key : string;
  access : string
}.

(** What the key lookup reads: the environment, the profiles of
    [auth-profiles.json] in the order of the file ([None] when the file has
    no [profiles]), and the files of the credentials directory in the
    order [readdirSync] lists them, each with its [token] field (the empty
    string when absent or falsy). *)
Record Machine := {
  environment : gmap string string;
  authProfiles : OnDisk (option (list (string * Profile)));
  credentials : OnDisk (list (string * OnDisk string))
}.

(** The table of environment variables.  A provider that names a
    property of [Object.prototype] is looked up under the text of that
    property, a variable taken to be unset. *)
Definition envMap (provider : string) : option string :=
  if String.eqb provider "anthropic" then Some "ANTHROPIC_API_KEY"
  else if String.eqb provider "openai" then Some "OPENAI_API_KEY"
  else if String.eqb provider "google" then Some "GOOGLE_API_KEY"
  else None.

Definition truthy (s : string) : option string :=
  if Str.nonEmpty s then Some s else None.

Definition profileToken (profile : Profile) : string :=
  orElse (token profile) (orElse (key profile) (access profile)).

(** The scan of the profiles: the first profile whose name includes the
    provider and that holds a token. *)
Fixpoint scanProfiles (provider : string) (profiles : list (string * Profile)) : option string :=
  match profiles with
  | [] => None
  | (name, profile) :: rest =>
      if includes name provider && Str.nonEmpty (profileToken profile)
      then Some (profileToken profile)
      else scanProfiles provider rest
  end.

(** The scan of the credentials directory.  The outer [None] is the
    exception a file that does not parse raises. *)
Fixpoint scanCredentials (provider : string) (files : list (string * OnDisk string))
  : option (option string) :=
  match files with
  | [] => Some None
  | (name, file) :: rest =>
      if includes name provider && endsWith name ".json" then
        match file with
        | Content tok => if Str.nonEmpty tok then Some (Some tok) else scanCredentials provider rest
        | _ => None
        end
      else scanCredentials provider rest
  end.

Definition resolveApiKeyForProvider (m : Machine) (provider : string) : option string :=
  let provider := orElse provider "anthropic" in
  match (match envMap provider with
         | Some name => match environment m !! name with
                        | Some value => truthy value
                        | None => None
                        end
         | None => None
         end) with
  | Some value => Some value
  | None =>
      match authProfiles m with
      | Failing => None
      | auth =>
          match (match auth with
                 | Content (Some profiles) => scanProfiles provider profiles
                 | _ => None
                 end) with
          | Some tok => Some tok
          | None =>
              match credentials m with
              | Content files =>
                  match scanCredentials provider files with
                  | Some found => found
                  | None => None
                  end
              | _ => None
              end
          end
      end
  end.

(** ** Routing of background calls *)

Record Camouflage := {
  cam_enabled : bool;
  routeCompressionOffAnthro : bool;
  routeNarrativeOffAnthro : bool;
  preferredBackgroundProvider : string;
  backgroundModels : list (string * string);
  trafficSegregation : bool
}.

Record Routed := {
  r_model : string;
  r_apiKey : option string;
  r_provider : string;
  r_routed : bool
}.

Definition lookupModel (models : list (string * string)) (provider : string) : option string :=
  match List.find (fun entry => String.eqb (fst entry) provider) models with
  | Some entry => truthy (snd entry)
  | None => None
  end.

(** The fallback loop: any provider but Anthropic with a key. *)
Fixpoint firstWithKey (m : Machine) (models : list (string * string)) : option Routed :=
  match models with
  | [] => None
  | (prov, model) :: rest =>
      if String.eqb prov "anthropic" then firstWithKey m rest
      else match resolveApiKeyForProvider m prov with
           | Some apiKey =>
               Some {| r_model := model; r_apiKey := Some apiKey; r_provider := prov;
                       r_routed := true |}
           | None => firstWithKey m rest
           end
  end.

Definition resolveCamouflageModel (m : Machine) (cam : Camouflage)
    (compressionModel : string) (resolvedApiKey : option string) (callType : string) : Routed :=
  let direct := {| r_model := compressionModel; r_apiKey := resolvedApiKey;
                   r_provider := "anthropic"; r_routed := false |} in
  let shouldRoute :=
    cam_enabled cam && trafficSegregation cam
    && ((String.eqb callType "compression" && routeCompressionOffAnthro cam)
        || (String.eqb callType "narrative" && routeNarrativeOffAnthro cam)) in
  if negb shouldRoute then direct
  else
    let preferred := preferredBackgroundProvider cam in
    match (match lookupModel (backgroundModels cam) preferred with
           | Some modelStr =>
               match resolveApiKeyForProvider m preferred with
               | Some apiKey =>
                   Some {| r_model := modelStr; r_apiKey := Some apiKey;
                           r_provider := preferred; r_routed := true |}
               | None => None
               end
           | None => None
           end) with
    | Some routed => routed
    | None =>
        match firstWithKey m (backgroundModels cam) with
        | Some routed => routed
        | None => direct
        end
    end.

Definition hasNoSlash (s : string) : Prop := ∀ n, String.get n s ≠ Some "/"%char.

End Routing.

(** * The gateway lifecycle guard *)

Module Guard.

(** ** The regular expressions of the guard

    The patterns use literals, [\s+], [.*] and one alternation, and
    [test] is called on regular expressions without flags: it answers
    whether some substring of the line belongs to the language of the
    pattern. *)
Inductive Regex :=
| Nothing
| Eps
| Chr (c : ascii)
| Cls (p : ascii -> bool)
| Seq (r1 r2 : Regex)
| Alt (r1 r2 : Regex)
| Star (r : Regex).

Fixpoint nullable (r : Regex) : bool :=
  match r with
  | Nothing => false
  | Eps => true
  | Chr _ => false
  | Cls _ => false
  | Seq r1 r2 => nullable r1 && nullable r2
  | Alt r1 r2 => nullable r1 || nullable r2
  | Star _ => true
  end.

(** What is left of [r] to match after the character [c]. *)
Fixpoint deriv (c : ascii) (r : Regex) : Regex :=
  match r with
  | Nothing => Nothing
  | Eps => Nothing
  | Chr d => if Ascii.eqb c d then Eps else Nothing
  | Cls p => if p c then Eps else Nothing
  | Seq r1 r2 =>
      if nullable r1 then Alt (Seq (deriv c r1) r2) (deriv c r2)
      else Seq (deriv c r1) r2
  | Alt r1 r2 => Alt (deriv c r1) (deriv c r2)
  | Star r1 => Seq (deriv c r1) (Star r1)
  end.

(** Does a match start at the head of [s]? *)
Fixpoint matchesPrefix (r : Regex) (s : string) : bool :=
  nullable r
  || match s with
     | EmptyString => false
     | String c s' => matchesPrefix (deriv c r) s'
     end.

(** [r.test(s)]: does a match start anywhere in [s]? *)
Fixpoint test (r : Regex) (s : string) : bool :=
  matchesPrefix r s
  || match s with
     | EmptyString => false
     | String _ s' => test r s'
     end.

Fixpoint lit (s : string) : Regex :=
  match s with
  | EmptyString => Eps
  | String c s' => Seq (Chr c) (lit s')
  end.

Definition plus (r : Regex) : Regex := Seq r (Star r).

Definition code (c : ascii) : nat := nat_of_ascii c.

(** [\s] on the code units below 256: tab, line feed, vertical tab, form
    feed, carriage return, space and the no-break space.  [trim] strips
    the same characters. *)
Definition isSpace (c : ascii) : bool :=
  ((9 <=? code c) && (code c <=? 13)) || (code c =? 32) || (code c =? 160).

(** [.]: any character but a line terminator. *)
Definition isDot (c : ascii) : bool :=
  negb ((code c =? 10) || (code c =? 13)).

Definition spaces : Regex := plus (Cls isSpace).
Definition anything : Regex := Star (Cls isDot).

Definition STOP_PATTERNS : list Regex :=
  [ Seq (lit "openclaw") (Seq spaces (Seq (lit "gateway") (Seq spaces (lit "stop"))));
    Seq (lit "openclaw") (Seq spaces (Seq (lit "gateway") (Seq spaces (lit "restart"))));
    Seq (lit "pkill") (Seq anything (lit "openclaw"));
    Seq (lit "launchctl") (Seq spaces (Seq (lit "unload") (Seq anything (lit "openclaw")))) ].

Definition START_PATTERNS : list Regex :=
  [ Seq (lit "openclaw") (Seq spaces (Seq (lit "gateway") (Seq spaces (lit "start"))));
    Seq (lit "launchctl")
      (Seq spaces (Seq (Alt (lit "load") (lit "bootstrap")) (Seq anything (lit "openclaw")))) ].

(** [command.split("\n")[0]] *)
Fixpoint firstLine (command : string) : string :=
  match command with
  | EmptyString => EmptyString
  | String c rest => if Ascii.eqb c "010" then EmptyString else String c (firstLine rest)
  end.

Definition matchesAny (command : string) (patterns : list Regex) : bool :=
  existsb (fun p => test p (firstLine command)) patterns.

(** [s.trim()] *)
Fixpoint trimStart (s : string) : string :=
  match s with
  | EmptyString => EmptyString
  | String c rest => if isSpace c then trimStart rest else s
  end.

Fixpoint trimEnd (s : string) : string :=
  match s with
  | EmptyString => EmptyString
  | String c rest =>
      match trimEnd rest with
      | EmptyString => if isSpace c then EmptyString else String c EmptyString
      | kept => String c kept
      end
  end.

Definition trim (s : string) : string := trimEnd (trimStart s).

(** ** The task state *)

Definition DEFAULT_RESUME_SECONDS : Z := 120.
Definition MAX_RESUME_SECONDS : Z := 3600.
Definition MIN_RESUME_SECONDS : Z := 30.

(** What [TASK-STATE.json] holds.  [Broken] is a file that cannot be read
    or parsed, or whose value is falsy.  Of a parsed value the guard reads
    three fields: [resumeMethod] (the empty string when it is absent or
    falsy; a truthy value that is not a string stands as its JSON text,
    which is never [auto]), [parseInt(resumeAfterSeconds, 10)] ([None] for
    [NaN]) and [reason] (the empty string when absent or falsy). *)
Inductive TaskStateFile :=
| Missing
| Broken
| Parsed (resumeMethod : string) (resumeAfterSeconds : option Z) (reason : string).

Inductive TaskState :=
| Invalid
| Valid (resumeMethod : string) (resumeAfterSeconds : Z) (reason : string).

Definition clampSeconds (parsed : option Z) : Z :=
  let seconds :=
    match parsed with
    | Some n => if (n <? MIN_RESUME_SECONDS)%Z then DEFAULT_RESUME_SECONDS else n
    | None => DEFAULT_RESUME_SECONDS
    end in
  if (MAX_RESUME_SECONDS <? seconds)%Z then MAX_RESUME_SECONDS else seconds.

Definition readTaskState (file : TaskStateFile) : TaskState :=
  match file with
  | Missing => Invalid
  | Broken => Invalid
  | Parsed resumeMethod resumeAfterSeconds reason =>
      if Str.nonEmpty resumeMethod then
        Valid resumeMethod (clampSeconds resumeAfterSeconds)
          (if Str.nonEmpty reason then reason else "no reason provided")
      else Invalid
  end.

(** ** The hook *)

(** What the guard reads of the machine and what it does to it:
    [maintenance] is whether [.gateway-maintenance] exists; [scriptWritable]
    and [spawnWorks] are whether the resume script can be written and the
    detached shell started; [scriptWritten] and [scheduled] record that the
    script was written and the delays of the resume timers started. *)
Record World := {
  maintenance : bool;
  taskState : TaskStateFile;
  scriptWritable : bool;
  spawnWorks : bool;
  scriptWritten : bool;
  scheduled : list Z
}.

Definition scheduleAutoResume (w : World) (seconds : Z) : World * bool :=
  if scriptWritable w then
    let w1 := {| maintenance := maintenance w; taskState := taskState w;
                 scriptWritable := scriptWritable w; spawnWorks := spawnWorks w;
                 scriptWritten := true; scheduled := scheduled w |} in
    if spawnWorks w then
      ({| maintenance := maintenance w; taskState := taskState w;
          scriptWritable := scriptWritable w; spawnWorks := spawnWorks w;
          scriptWritten := true; scheduled := scheduled w ++ [seconds] |}, true)
    else (w1, false)
  else (w, false).

(** The event of [before_tool_call]: [command] is [params.command] when
    it is a string. *)
Record ToolCall := {
  toolName : string;
  command : option string
}.

Inductive Decision :=
| Allow
| Block (blockReason : string).

Definition dq : string := String "034"%char EmptyString.

Definition stopBlockedReason : string :=
  "Gateway stop blocked. Create TASK-STATE.json first:" +:+ Str.nl
  +:+ "{" +:+ dq +:+ "resumeMethod" +:+ dq +:+ ":" +:+ dq +:+ "auto" +:+ dq +:+ ","
  +:+ dq +:+ "resumeAfterSeconds" +:+ dq +:+ ":120," +:+ dq +:+ "reason" +:+ dq +:+ ":"
  +:+ dq +:+ "why" +:+ dq +:+ "}" +:+ Str.nl
  +:+ "Or maintenance mode: touch ~/.openclaw/workspace/.gateway-maintenance".

Definition schedulingFailedReason : string :=
  "Auto-resume scheduling failed. Cannot stop safely.".

Definition maintenanceReason : string :=
  "Gateway in maintenance mode. Remove first: rm ~/.openclaw/workspace/.gateway-maintenance".

Definition beforeToolCall (w : World) (event : ToolCall) : World * Decision :=
  if negb (String.eqb (toolName event) "exec") then (w, Allow)
  else
    let command := match command event with Some c => trim c | None => EmptyString end in
    if negb (Str.nonEmpty command) then (w, Allow)
    else
      let isStop := matchesAny command STOP_PATTERNS in
      let isStart := matchesAny command START_PATTERNS in
      if negb isStop && negb isStart then (w, Allow)
      else if isStop then
        if maintenance w then (w, Allow)
        else match readTaskState (taskState w) with
             | Invalid => (w, Block stopBlockedReason)
             | Valid resumeMethod resumeAfterSeconds _ =>
                 if String.eqb resumeMethod "auto" then
                   let '(w', ok) := scheduleAutoResume w resumeAfterSeconds in
                   if ok then (w', Allow) else (w', Block schedulingFailedReason)
                 else (w, Allow)
             end
      else if isStart && maintenance w then (w, Block maintenanceReason)
      else (w, Allow).

(** ** Vocabulary of the guard's properties *)

(** ** The language of a pattern *)

Inductive Lang : Regex → string → Prop :=
| LangEps : Lang Eps ""
| LangChr c : Lang (Chr c) (String c "")
| LangCls p c : p c = true → Lang (Cls p) (String c "")
| LangSeq r1 r2 s1 s2 : Lang r1 s1 → Lang r2 s2 → Lang (Seq r1 r2) (s1 +:+ s2)
| LangAltL r1 r2 s : Lang r1 s → Lang (Alt r1 r2) s
| LangAltR r1 r2 s : Lang r2 s → Lang (Alt r1 r2) s
| LangStarNil r : Lang (Star r) ""
| LangStarApp r s1 s2 : Lang r s1 → Lang (Star r) s2 → Lang (Star r) (s1 +:+ s2).

Definition hasNoNewline (s : string) : Prop := firstLine s = s.

Definition allSpace (s : string) : Prop :=
  s ≠ "" ∧ ∀ n c, String.get n s = Some c → isSpace c = true.

Definition noLineBreak (s : string) : Prop :=
  ∀ n c, String.get n s = Some c → isDot c = true.

Definition gatewayCommand (verb : string) : Regex :=
  Seq (lit "openclaw") (Seq spaces (Seq (lit "gateway") (Seq spaces (lit verb)))).

(** Every pattern needs the word [openclaw]. *)
Definition mentionsOpenclaw (line : string) : Prop :=
  ∃ before after, line = before +:+ "openclaw" +:+ after.

Definition exec (c : string) : ToolCall := {| toolName := "exec"; command := Some c |}.

Definition isStop (c : string) : bool := matchesAny (trim c) STOP_PATTERNS.
Definition isStart (c : string) : bool := matchesAny (trim c) START_PATTERNS.

End Guard.

(** * Vocabulary of the specification *)

(** The entries of the span that the segmenter keeps: those with a message
    that is not a summary, numbered by their position in the log. *)
Fixpoint keptEntries (entries : list Entry) (i : nat) : list TurnEntry :=
  match entries with
  | [] => []
  | entry :: rest =>
      match getMessageFromEntry entry with
      | Returned (Some msg) =>
          if isSummary msg then keptEntries rest (S i)
          else mkTurnEntry i entry msg :: keptEntries rest (S i)
      | _ => keptEntries rest (S i)
      end
  end.

(** An entry on which [getMessageFromEntry] throws: a custom entry that is
    not metadata and has no [data]. *)
Definition dataless (entry : Entry) : Prop :=
  e_type entry = "custom"
  ∧ existsb (String.eqb (e_customType entry)) METADATA_TYPES = false
  ∧ e_data entry = NoData.

Definition spanEntries (branchEntries : list Entry) (startIndex : nat) : list TurnEntry :=
  keptEntries (drop startIndex branchEntries) startIndex.

(** The text of the span: what one block holding all of it would hold. *)
Definition spanText (branchEntries : list Entry) (startIndex : nat) : string :=
  Str.join msgSep (map entryText (spanEntries branchEntries startIndex)).

(** How the emitted blocks group: a block made of whole entries, or the
    fragments of one hard-split entry. *)
Inductive Segment :=
| Whole (entries : list TurnEntry)
| Fragments (entry : TurnEntry) (chunks : list string).

Definition segmentEntries (s : Segment) : list TurnEntry :=
  match s with
  | Whole entries => entries
  | Fragments entry _ => [entry]
  end.

Definition segmentBlocks `{Platform} (s : Segment) : list EntryBlock :=
  match s with
  | Whole entries => [finalizeEntryBlock entries]
  | Fragments entry chunks => map (chunkEntryBlock entry) chunks
  end.

(** [attached before y]: [y] is a tool result that continues a run opened
    by a tool invocation.  [before] lists the entries that precede [y],
    nearest first.  A result right after an invocation is attached; a
    further result is attached when its role is not ["user"] and the entry
    before it is attached. *)
Fixpoint attached (before : list TurnEntry) (y : TurnEntry) : bool :=
  hasToolResult (te_message y)
  && match before with
     | [] => false
     | x :: before' =>
         hasToolUse (te_message x)
         || (negb (roleIs (te_message y) "user") && attached before' x)
     end.

Definition startsClean (before : list TurnEntry) (s : Segment) : Prop :=
  match segmentEntries s with
  | e :: _ => attached before e = false
  | [] => False
  end.

Definition wellFormed (s : Segment) : Prop :=
  match s with
  | Whole _ => True
  | Fragments entry chunks => Str.cat chunks = entryText entry ∧ chunks ≠ []
  end.

(** No segment starts inside a run of tool results. *)
Fixpoint segsOK (before : list TurnEntry) (segs : list Segment) : Prop :=
  match segs with
  | [] => True
  | s :: rest =>
      startsClean before s ∧ wellFormed s
      ∧ segsOK (rev (segmentEntries s) ++ before) rest
  end.

(** The same vocabulary for the turn-completion path. *)
Definition keptMessages (messages : list Message) : list Message :=
  filter (λ msg, isSummary msg = false) messages.

Inductive MsgSegment :=
| WholeMessages (messages : list Message)
| MessageFragments (msg : Message) (chunks : list string).

Definition msgSegmentMessages (s : MsgSegment) : list Message :=
  match s with
  | WholeMessages messages => messages
  | MessageFragments msg _ => [msg]
  end.

Definition msgSegmentBlocks `{Platform} (s : MsgSegment) : list MsgBlock :=
  match s with
  | WholeMessages messages => [finalizeBlock messages]
  | MessageFragments msg chunks => map (chunkBlock msg) chunks
  end.

Definition msgSegmentOK (s : MsgSegment) : Prop :=
  match s with
  | WholeMessages messages => messages ≠ []
  | MessageFragments msg chunks => Str.cat chunks = extractMessageText msg
  end.

Definition cleanHead (before l : list TurnEntry) : Prop :=
  match l with
  | e :: _ => attached before e = false
  | [] => True
  end.

Definition flushSegs (blockEntries : list TurnEntry) : list Segment :=
  if nonempty blockEntries then [Whole blockEntries] else [].

Definition flushMsgSegs (blockMsgs : list Message) : list MsgSegment :=
  if nonempty blockMsgs then [WholeMessages blockMsgs] else [].

(** ** The planner, the history and the cache *)

(** The blocks the segmenter returns for the span of a round, none when
    it throws; and those of them that enter the swap plan. *)
Definition allBlocksOf `{Platform} (st : State) (ev : Event) : list EntryBlock :=
  match groupEntriesIntoBlocks (config st) (branchEntries ev)
          (startIndexOf (branchEntries ev)) with
  | Returned allBlocks => allBlocks
  | Threw => []
  end.

Definition eligibleBlocks `{Platform} (st : State) (ev : Event) : list EntryBlock :=
  filter (λ b, eligible (config st) b = true) (allBlocksOf st ev).

(** The savings the walk has accumulated after [k] blocks. *)
Definition cumulativeSavings (cache : gmap string CacheEntry) (blocks : list EntryBlock)
    (k : nat) : Z :=
  foldr (λ b acc, (savings cache b + acc)%Z) 0%Z (take k blocks).

(** The specification's count: [k] blocks have been walked when the
    cumulative savings first reach the overflow. *)
Definition reachesAt (cache : gmap string CacheEntry) (overflow : Z)
    (blocks : list EntryBlock) (k : nat) : Prop :=
  k ≤ length blocks
  ∧ (overflow ≤ cumulativeSavings cache blocks k)%Z
  ∧ ∀ j, j < k → (cumulativeSavings cache blocks j < overflow)%Z.

(** The count the walk ends with. *)
Definition walked (cache : gmap string CacheEntry) (overflow : Z)
    (blocks : list EntryBlock) : nat :=
  snd (walkBlocks cache overflow blocks 0 0%Z 0).

(** What one history entry adds to the tracked total. *)
Definition contribution (e : HistoryEntry) : Z :=
  (Z.of_nat (he_tokensCompressed e) + overheadPerBlock)%Z.

(** States with the same configuration, provider and key. *)

Definition sameSetup (st1 st2 : State) : Prop :=
  config st1 = config st2
  ∧ completeSimple st1 = completeSimple st2
  ∧ resolvedApiKey st1 = resolvedApiKey st2.

(** The cache after the on-demand results of [missed] are stored. *)
Definition insertOnDemand (st : State) (cache : gmap string CacheEntry)
    (missed : list EntryBlock) : gmap string CacheEntry :=
  fold_left (λ c b, <[ eb_hash b := onDemandEntry st b ]> c) missed cache.

(** The blocks to swap that the cache does not hold. *)
Definition missedBlocks (cache : gmap string CacheEntry) (toSwap : list EntryBlock)
  : list EntryBlock :=
  filter (λ b, cache !! eb_hash b = None) toSwap.



(** ** Vocabulary of the further properties *)

Definition endsWithNewline (chunk : string) : Prop := ∃ pre, chunk = pre +:+ Str.nl.

Definition fragmentOK (maxChars : nat) (chunk : string) : Prop :=
  0 < String.length chunk
  ∧ (String.length chunk ≤ maxChars
     ∨ (String.length chunk = maxChars + 1 ∧ endsWithNewline chunk)).

(** What the cache and the archive see of a block: its text, the hash
    that keys it and its token count. *)
Definition entryBlockKey (b : EntryBlock) : string * string * nat :=
  (eb_text b, eb_hash b, eb_tokens b).

Definition msgBlockKey (b : MsgBlock) : string * string * nat :=
  (mb_text b, mb_hash b, mb_tokens b).

(** The messages the compaction path reads off a log. *)
Definition messageOf (entry : Entry) : option Message :=
  match getMessageFromEntry entry with
  | Returned found => found
  | Threw => None
  end.

Definition logMessages (entries : list Entry) : list Message :=
  omap messageOf entries.

Definition messageTokens (msgs : list Message) : nat :=
  list_sum (map (λ m, estimateTokens (extractMessageText m)) msgs).

Definition entriesTokens (es : list TurnEntry) : nat :=
  list_sum (map entryTokens es).

Definition withinBudget (maxTokens : nat) (b : MsgBlock) : Prop :=
  2 * mb_tokens b ≤ 2 * maxTokens + length (mb_messages b) + 1.

(** The compaction path: the same limit, except for a tool invocation
    kept with its results. *)
Definition toolGroup (entries : list TurnEntry) : Prop :=
  ∃ invocation results,
    entries = invocation :: results ∧ results ≠ []
    ∧ hasToolUse (te_message invocation) = true
    ∧ Forall (λ e, hasToolResult (te_message e) = true) results.

Definition entryWithinBudget (maxTokens : nat) (b : EntryBlock) : Prop :=
  2 * eb_tokens b ≤ 2 * maxTokens + length (eb_entries b) + 1 ∨ toolGroup (eb_entries b).

(** [files'] holds every file of [files], with the same content. *)
Definition keepsAll {V} (m m' : gmap string V) : Prop :=
  ∀ k v, m !! k = Some v → m' !! k = Some v.

(** What a round leaves as it found it: the configuration, the provider
    and the key; every archived file and every cached entry. *)
Definition storeKept (st st' : State) : Prop :=
  sameSetup st' st
  ∧ compressionQueue st' = compressionQueue st
  ∧ keepsAll (rawArchive st) (rawArchive st')
  ∧ keepsAll (memoryArchive st) (memoryArchive st')
  ∧ keepsAll (messageCache st) (messageCache st').

(** The order lists the keys of the cache, each once. *)
Definition ordersCache (so : Ordered) : Prop :=
  NoDup (snd so) ∧ ∀ hash, hash ∈ snd so ↔ is_Some (messageCache (fst so) !! hash).

(** * Sample inputs

    Concrete logs, blocks and states on which the model is run below.  The
    two platform services are stood in for by the identity digest and a
    fixed date; thresholds are small so that short texts cross them. *)

Module Demo.

Definition platform : Platform :=
  {| sha256hex := λ s, s; toISOString := λ _, "2026-02-20T10:00:00.000Z" |}.
#[local] Existing Instance platform.

Definition toolCall (name args : string) : ContentBlock :=
  {| b_type := "toolCall"; b_text := ""; b_thinking := ""; b_name := name;
     b_arguments := Some args |}.

Definition textBlock (text : string) : ContentBlock :=
  {| b_type := "text"; b_text := text; b_thinking := ""; b_name := "";
     b_arguments := None |}.

Definition messageEntry (id : string) (msg : Message) : Entry :=
  {| e_type := "message"; e_id := id; e_message := Some msg; e_customType := "";
     e_data := NoData; e_content := ""; e_summary := "" |}.

Definition askFiles : Message := mkMessage "user" (CString "list the files in the directory").
Definition callLs : Message := mkMessage "assistant" (CArray [toolCall "ls" "{}"]).
Definition lsResult : Message := mkMessage "toolResult" (CString "alpha.txt beta.txt gamma.txt").
Definition sayOk : Message := mkMessage "user" (CString "ok").
Definition askAlpha : Message := mkMessage "user" (CString "now show me the contents of alpha").
Definition askBeta : Message := mkMessage "user" (CString "and the contents of beta, please").

(** A block budget of 20 tokens, a minimum swap size of 5 tokens, a
    minimum of 20 characters to compress, a trigger of 30 tokens. *)
Definition cfg : Config :=
  {| evictTrigger := 80000; compressTrigger := 30; blockSize := 20;
     minCompressChars := 20; minSwapTokens := 5; maxParallelCompressions := 2;
     enabled := true |}.

(** One turn with a tool call: 10, 15 and 11 tokens, 37 with separators. *)
Definition toolTurn : list Message := [askFiles; callLs; lsResult].

Definition log : list Entry :=
  [ messageEntry "e0" askFiles; messageEntry "e1" callLs; messageEntry "e2" lsResult;
    messageEntry "e3" sayOk; messageEntry "e4" askAlpha; messageEntry "e5" askBeta ].

Definition te (i : nat) (id : string) (msg : Message) : TurnEntry :=
  {| te_index := i; te_id := id; te_message := msg |}.

(** A tool call in the provider's own format, answered by two user
    messages that each carry a tool result. *)
Definition typed (type : string) : ContentBlock :=
  {| b_type := type; b_text := ""; b_thinking := ""; b_name := ""; b_arguments := None |}.

Definition twoUserResults : list Entry :=
  [ messageEntry "u0" (mkMessage "assistant" (CArray [typed "tool_use"]));
    messageEntry "u1" (mkMessage "user" (CArray [typed "tool_result"]));
    messageEntry "u2" (mkMessage "user" (CArray [typed "tool_result"])) ].

(** A short exchange without tools, for the texts of the blocks. *)
Definition chat : list Entry :=
  [ messageEntry "c0" (mkMessage "user" (CString "hi"));
    messageEntry "c1" (mkMessage "assistant" (CArray [textBlock "ok"]));
    messageEntry "c2" (mkMessage "user" (CString "yo")) ].

(** A provider that fails on a block that starts with an assistant
    message and otherwise answers with the first 12 characters. *)
Definition provider (rawText : string) : Response :=
  if String.prefix "[AI]:" rawText then RespError else RespContent [Str.take 12 rawText].

Definition state : State :=
  {| config := cfg; completeSimple := Some provider; resolvedApiKey := Some "key";
     currentSessionId := None; compactionHistory := []; messageCache := ∅;
     compressionQueue := []; deferredCompactionMinBlocks := 0;
     rawArchive := ∅; memoryArchive := ∅; historyFiles := ∅; cacheFile := None |}.

(** The same engine without a provider, switched on and switched off. *)
Definition noProvider : State := setProvider state None.

Definition switchedOff : State :=
  {| config := {| evictTrigger := 80000; compressTrigger := 30; blockSize := 20;
                  minCompressChars := 20; minSwapTokens := 5;
                  maxParallelCompressions := 2; enabled := false |};
     completeSimple := None; resolvedApiKey := None;
     currentSessionId := None; compactionHistory := []; messageCache := ∅;
     compressionQueue := []; deferredCompactionMinBlocks := 0;
     rawArchive := ∅; memoryArchive := ∅; historyFiles := ∅; cacheFile := None |}.

Definition neverAborted : Signal :=
  {| abortedBeforeSwap := false; abortedAtBatch := λ _, false;
     abortedBeforeAssembly := false |}.

(** A compaction request at 45 tokens, 15 over the trigger. *)
Definition event : Event :=
  {| tokensBefore := 45; branchEntries := log; signal := neverAborted;
     now := 1771581600000 |}.

(** The blocks of [log]: the question, the tool call with its result, the
    short "ok", and the two later questions. *)
Definition blocks : list EntryBlock := allBlocksOf state event.

Definition toolBlock : EntryBlock :=
  finalizeEntryBlock [te 1 "e1" callLs; te 2 "e2" lsResult].


Definition lastQuestion : EntryBlock := finalizeEntryBlock [te 5 "e5" askBeta].

(** Scenario C of the specification: four blocks of 5000, 4000, 4000 and
    3000 tokens, the first two cached at 2000 and 1800 tokens. *)
Definition sized (hash : string) (tokens : nat) : EntryBlock :=
  {| eb_entries := []; eb_firstEntryId := hash; eb_firstEntryIndex := 0;
     eb_text := ""; eb_hash := hash; eb_tokens := tokens |}.

Definition cachedAt (raw compressed : nat) : CacheEntry :=
  {| ce_compressed := ""; ce_tokensRaw := raw; ce_tokensCompressed := compressed |}.

Definition scenarioBlocks : list EntryBlock :=
  [sized "b1" 5000; sized "b2" 4000; sized "b3" 4000; sized "b4" 3000].

Definition scenarioCache : gmap string CacheEntry :=
  <[ "b1" := cachedAt 5000 2000 ]> (<[ "b2" := cachedAt 4000 1800 ]> ∅).

(** A turn of three messages of 10 tokens each: over the budget as a
    whole, and its first two messages fill a block to the limit. *)
Definition compareVersions : Message :=
  mkMessage "user" (CString "please compare the two versions").
Definition firstIsShorter : Message :=
  mkMessage "assistant" (CArray [textBlock "the first one is shorter by a line"]).
Definition secondAddsTest : Message :=
  mkMessage "assistant" (CArray [textBlock "and the second one adds a new test"]).

Definition fullTurn : list Message := [compareVersions; firstIsShorter; secondAddsTest].

(** A question and an answer of 32 tokens: over the budget on its own,
    the answer is hard-split into two fragments, each a block. *)
Definition longAnswer : Message :=
  mkMessage "assistant"
    (CArray [textBlock
       ("the directory holds three text files, alpha, beta and gamma, " +:+
        "and each of them is a few lines long and was changed today")]).

Definition longLog : list Entry :=
  [messageEntry "q0" askFiles; messageEntry "a1" longAnswer].

Definition longRequest : Event :=
  {| tokensBefore := 45; branchEntries := longLog; signal := neverAborted;
     now := 1771581600000 |}.

(** A log with a custom entry that carries no data, after two messages. *)
Definition bareCustom : Entry :=
  {| e_type := "custom"; e_id := "x2"; e_message := None; e_customType := "note";
     e_data := NoData; e_content := ""; e_summary := "" |}.

Definition brokenLog : list Entry :=
  [messageEntry "e0" askFiles; messageEntry "e1" callLs; bareCustom].

Definition brokenRequest : Event :=
  {| tokensBefore := 10; branchEntries := brokenLog; signal := neverAborted;
     now := 1771581600000 |}.

(** An engine that holds something already: a cache entry, a raw block
    and an archived summary. *)
Definition stocked : State :=
  {| config := cfg; completeSimple := Some provider; resolvedApiKey := Some "key";
     currentSessionId := None; compactionHistory := [];
     messageCache := {[ "older" := cachedAt 40 10 ]};
     compressionQueue := []; deferredCompactionMinBlocks := 0;
     rawArchive := {[ "older.md" := "an older block" ]};
     memoryArchive := {[ "rmem-2026-02-19-0a1b2c3d.md" := "an older summary" ]};
     historyFiles := ∅; cacheFile := None |}.



(** The same request at 10 tokens, under the trigger. *)
Definition calm : Event :=
  {| tokensBefore := 10; branchEntries := log; signal := neverAborted;
     now := 1771581600000 |}.

(** A machine outside maintenance whose task state asks for an automatic
    resume after 5000 seconds; one without a task state; one in
    maintenance. *)
Definition nightly : Guard.World :=
  {| Guard.maintenance := false;
     Guard.taskState := Guard.Parsed "auto" (Some 5000%Z) "";
     Guard.scriptWritable := true; Guard.spawnWorks := true;
     Guard.scriptWritten := false; Guard.scheduled := [] |}.

Definition noPlan : Guard.World :=
  {| Guard.maintenance := false; Guard.taskState := Guard.Missing;
     Guard.scriptWritable := true; Guard.spawnWorks := true;
     Guard.scriptWritten := false; Guard.scheduled := [] |}.

Definition inMaintenance : Guard.World :=
  {| Guard.maintenance := true; Guard.taskState := Guard.Missing;
     Guard.scriptWritable := true; Guard.spawnWorks := true;
     Guard.scriptWritten := false; Guard.scheduled := [] |}.

End Demo.

(** * Proofs *)
(** * Strings *)

Lemma append_cons (c : ascii) (s t : string) : String c s +:+ t = String c (s +:+ t).
Proof. reflexivity. Qed.

Lemma append_nil_r (s : string) : s +:+ "" = s.
Proof. induction s as [|c s IH]; [done | rewrite append_cons; by f_equal]. Qed.

Lemma append_assoc (s1 s2 s3 : string) : (s1 +:+ s2) +:+ s3 = s1 +:+ s2 +:+ s3.
Proof. induction s1 as [|c s1 IH]; [done | rewrite !append_cons; by f_equal]. Qed.

Lemma length_append (s1 s2 : string) :
  String.length (s1 +:+ s2) = String.length s1 + String.length s2.
Proof. induction s1 as [|c s1 IH]; [done | rewrite append_cons; simpl; by f_equal]. Qed.

Lemma take_drop_string (n : nat) (s : string) : Str.take n s +:+ Str.drop n s = s.
Proof.
  revert s; induction n as [|n IH]; intros [|c s]; simpl; try done.
  rewrite append_cons. by f_equal.
Qed.

Lemma length_drop_string (n : nat) (s : string) :
  String.length (Str.drop n s) = String.length s - n.
Proof. revert s; induction n as [|n IH]; intros [|c s]; simpl; auto. Qed.

Lemma length_take_string (n : nat) (s : string) :
  String.length (Str.take n s) = Nat.min n (String.length s).
Proof. revert s; induction n as [|n IH]; intros [|c s]; simpl; auto. Qed.

Lemma length_zero_string (s : string) : String.length s = 0 → s = "".
Proof. by destruct s. Qed.

Lemma cat_app (l1 l2 : list string) : Str.cat (l1 ++ l2) = Str.cat l1 +:+ Str.cat l2.
Proof.
  induction l1 as [|x l1 IH]; simpl; [done |].
  by rewrite IH, append_assoc.
Qed.

(** Joining groups that were themselves joined with the same separator. *)
Lemma join_cons (sep x : string) (l : list string) :
  l ≠ [] → Str.join sep (x :: l) = x +:+ sep +:+ Str.join sep l.
Proof. by destruct l. Qed.

Lemma join_app (sep : string) (l1 l2 : list string) :
  l1 ≠ [] → l2 ≠ [] →
  Str.join sep (l1 ++ l2) = Str.join sep l1 +:+ sep +:+ Str.join sep l2.
Proof.
  intros H1 H2. induction l1 as [|x l1 IH]; [done |].
  destruct l1 as [|y l1].
  - simpl. by destruct l2.
  - change ((x :: y :: l1) ++ l2) with (x :: ((y :: l1) ++ l2)).
    rewrite join_cons by done. rewrite IH by done.
    rewrite (join_cons sep x (y :: l1)) by done.
    by rewrite !append_assoc.
Qed.

Lemma join_concat (sep : string) (groups : list (list string)) :
  Forall (λ g, g ≠ []) groups →
  Str.join sep (map (Str.join sep) groups) = Str.join sep (concat groups).
Proof.
  induction 1 as [|g groups Hg Hgs IH]; [done |].
  destruct groups as [|g' groups].
  - simpl. by rewrite app_nil_r.
  - rewrite map_cons, join_cons by done. rewrite IH.
    change (concat (g :: g' :: groups)) with (g ++ concat (g' :: groups)).
    rewrite join_app; [done | done |].
    inversion Hgs; subst. simpl. by destruct g'.
Qed.

(** * Hard splitting *)

Lemma lastIndexOfFrom_bound c s fromIndex i found p :
  (∀ q, found = Some q → q ≤ fromIndex) →
  Str.lastIndexOfFrom c s fromIndex i found = Some p → p ≤ fromIndex.
Proof.
  revert i found. induction s as [|a s IH]; intros i found Hf; simpl.
  - auto.
  - destruct (fromIndex <? i) eqn:Hlt; [auto |].
    apply IH. intros q. destruct (Ascii.eqb a c); [|auto].
    intros [= <-]. apply Nat.ltb_ge in Hlt. done.
Qed.

Lemma lastIndexOf_bound c s fromIndex p :
  Str.lastIndexOf c s fromIndex = Some p → p ≤ fromIndex.
Proof. apply lastIndexOfFrom_bound. done. Qed.

(** The fragments of a text concatenate to the text. *)
Lemma hardSplitLoop_cat fuel s maxChars : Str.cat (hardSplitLoop fuel s maxChars) = s.
Proof.
  revert s. induction fuel as [|fuel IH]; intros s; simpl.
  - destruct (0 <? String.length s) eqn:E; simpl.
    + apply append_nil_r.
    + apply Nat.ltb_ge in E. symmetry. apply length_zero_string. lia.
  - destruct (maxChars <? String.length s).
    + simpl. rewrite IH. apply take_drop_string.
    + destruct (0 <? String.length s) eqn:E; simpl.
      * apply append_nil_r.
      * apply Nat.ltb_ge in E. symmetry. apply length_zero_string. lia.
Qed.

Lemma hardSplitText_cat text maxChars : Str.cat (hardSplitText text maxChars) = text.
Proof. apply hardSplitLoop_cat. Qed.

Lemma hardSplitLoop_nonempty fuel s maxChars :
  0 < String.length s → hardSplitLoop fuel s maxChars ≠ [].
Proof.
  intros Hs. apply Nat.ltb_lt in Hs.
  destruct fuel; simpl; rewrite ?Hs; [done |].
  by destruct (maxChars <? String.length s).
Qed.

(** The rounded product at work: 180 * 0.7 falls under 126 and 200 * 0.7
    is 140, so a newline at 126 of 180 is taken and one at 140 of 200 is
    not; with the default budget of 16000 characters the line is 11200. *)
Lemma pastSeventyPercent_samples :
  pastSeventyPercent 126 180 = true ∧ pastSeventyPercent 140 200 = false
  ∧ pastSeventyPercent 11200 16000 = false ∧ pastSeventyPercent 11201 16000 = true.
Proof. by vm_compute. Qed.

(** The loop ends by its own test, not by running out of fuel: with a
    positive [maxChars] no fragment is longer than [maxChars + 1]. *)
Lemma splitPoint_bounds s maxChars :
  0 < maxChars → 1 ≤ splitPoint s maxChars ≤ maxChars + 1.
Proof.
  intros Hm. unfold splitPoint.
  destruct (Str.lastIndexOf "010"%char s maxChars) as [p|] eqn:Hp; [|lia].
  apply lastIndexOf_bound in Hp. destruct (pastSeventyPercent p maxChars); lia.
Qed.

Lemma hardSplitLoop_bounded fuel s maxChars :
  0 < maxChars → String.length s ≤ fuel + maxChars →
  Forall (λ chunk, String.length chunk ≤ maxChars + 1) (hardSplitLoop fuel s maxChars).
Proof.
  intros Hm. revert s. induction fuel as [|fuel IH]; intros s Hlen; cbn [hardSplitLoop].
  - destruct (0 <? String.length s); repeat constructor. lia.
  - destruct (maxChars <? String.length s) eqn:Hlt.
    + apply Nat.ltb_lt in Hlt.
      pose proof (splitPoint_bounds s maxChars Hm) as Hsplit.
      constructor.
      * rewrite length_take_string. lia.
      * apply IH. rewrite length_drop_string. lia.
    + apply Nat.ltb_ge in Hlt. destruct (0 <? String.length s); repeat constructor. lia.
Qed.

Lemma hardSplitText_bounded text maxChars :
  0 < maxChars →
  Forall (λ chunk, String.length chunk ≤ maxChars + 1) (hardSplitText text maxChars).
Proof. intros. apply hardSplitLoop_bounded; [done | lia]. Qed.

(** * The segmenter of the compaction path *)

Section SegmenterProofs.
Context `{Platform}.

Lemma segsOK_app before s1 s2 :
  segsOK before (s1 ++ s2)
  ↔ segsOK before s1 ∧ segsOK (rev (flat_map segmentEntries s1) ++ before) s2.
Proof.
  revert before. induction s1 as [|s s1 IH]; intros before; simpl.
  - tauto.
  - rewrite IH, rev_app_distr, <- app_assoc. tauto.
Qed.

Lemma flushSegs_blocks be : flushEntries be = flat_map segmentBlocks (flushSegs be).
Proof. unfold flushEntries, flushSegs. by destruct be. Qed.

Lemma flushSegs_entries be : flat_map segmentEntries (flushSegs be) = be.
Proof. unfold flushSegs. destruct be; simpl; [done | by rewrite app_nil_r]. Qed.

Lemma flushSegs_ok before be : cleanHead before be → segsOK before (flushSegs be).
Proof. unfold flushSegs. destruct be; simpl; [done |]. unfold startsClean; simpl. tauto. Qed.

Lemma takeResults_spec l rs tl :
  takeResults l = (rs, tl) →
  l = rs ++ tl
  ∧ Forall (λ e, hasToolResult (te_message e) = true) rs
  ∧ match tl with y :: _ => hasToolResult (te_message y) = false | [] => True end.
Proof.
  revert rs tl. induction l as [|next l IH]; intros rs tl; simpl.
  - intros [= <- <-]. auto.
  - destruct (hasToolResult (te_message next)) eqn:Hres.
    + destruct (takeResults l) as [rs' tl'] eqn:Htl. intros [= <- <-].
      destruct (IH _ _ eq_refl) as (-> & Hall & Hhd). auto.
    + intros [= <- <-]. simpl. rewrite Hres. auto.
Qed.

Lemma attached_not_result before y :
  hasToolResult (te_message y) = false → attached before y = false.
Proof. intros Hy. destruct before; simpl; by rewrite Hy. Qed.

(** What the lookahead leaves starts outside every run of results. *)
Lemma lookahead_spec entry rest results rest' ctx :
  (if hasToolUse (te_message entry) then takeResults rest else ([], rest)) = (results, rest') →
  attached ctx entry = false →
  rest = results ++ rest'
  ∧ Forall (λ e, hasToolResult (te_message e) = true) results
  ∧ cleanHead (rev (entry :: results) ++ ctx) rest'.
Proof.
  intros Hla Hentry. destruct (hasToolUse (te_message entry)) eqn:Huse.
  - apply takeResults_spec in Hla as (-> & Hall & Hhd). repeat split; [done |].
    destruct rest' as [|y rest']; simpl; [done |]. by apply attached_not_result.
  - injection Hla as <- <-. repeat split; [constructor |].
    destruct rest as [|y rest]; simpl; [done |].
    rewrite Huse, Hentry. simpl. by rewrite andb_false_r, andb_false_r.
Qed.

Lemma estimateTokens_pos text : 0 < estimateTokens text → 0 < String.length text.
Proof.
  unfold estimateTokens. intros Hpos.
  destruct (String.length text) as [|n]; [|lia]. by compute in Hpos.
Qed.

Lemma splitTurnEntries_spec maxTokens maxChars fuel :
  ∀ es blockEntries blockTokens before,
    length es ≤ fuel →
    cleanHead before blockEntries →
    cleanHead (rev blockEntries ++ before) es →
    ∃ segs,
      splitTurnEntries fuel maxTokens maxChars es blockEntries blockTokens
        = flat_map segmentBlocks segs
      ∧ flat_map segmentEntries segs = blockEntries ++ es
      ∧ segsOK before segs.
Proof.
  induction fuel as [|fuel IH]; intros es be bt before Hlen Hbe Hes.
  - destruct es; [|simpl in Hlen; lia]. exists (flushSegs be). simpl.
    rewrite app_nil_r. eauto using flushSegs_blocks, flushSegs_entries, flushSegs_ok.
  - destruct es as [|entry rest].
    { exists (flushSegs be). simpl. rewrite app_nil_r.
      eauto using flushSegs_blocks, flushSegs_entries, flushSegs_ok. }
    cbn [splitTurnEntries].
    destruct (if hasToolUse (te_message entry) then takeResults rest else ([], rest))
      as [results rest'] eqn:Hla.
    simpl in Hes.
    destruct (lookahead_spec _ _ _ _ _ Hla Hes) as (Hrest & Hres & Hnext).
    assert (length rest' ≤ fuel) as Hlen'.
    { simpl in Hlen. rewrite Hrest, length_app in Hlen. lia. }
    set (pairedTokens := estimateTokens (entryText entry) + list_sum (map entryTokens results)).
    destruct ((maxTokens <? pairedTokens) && (1 <? length (entry :: results))) eqn:Hbig.
    + (* an oversized invocation with its results: a block of its own *)
      destruct (IH rest' [] 0 (rev (entry :: results) ++ rev be ++ before) Hlen' I Hnext)
        as (segs & Hblocks & Hentries & Hok).
      exists (flushSegs be ++ Whole (entry :: results) :: segs). split; [|split].
      * rewrite flat_map_app, <- flushSegs_blocks. simpl. by rewrite Hblocks.
      * rewrite flat_map_app, flushSegs_entries. simpl. rewrite Hentries, Hrest.
        simpl. by rewrite <- ?app_assoc.
      * apply segsOK_app. split; [by apply flushSegs_ok |].
        rewrite flushSegs_entries. simpl. unfold startsClean; simpl. auto.
    + destruct ((maxTokens <? pairedTokens) && (length (entry :: results) =? 1)) eqn:Hsplit.
      * (* a single oversized message: hard split *)
        apply andb_true_iff in Hsplit as [Hover Hone].
        apply Nat.eqb_eq in Hone. destruct results; [|simpl in Hone; lia].
        destruct (IH rest' [] 0 (rev [entry] ++ rev be ++ before) Hlen' I Hnext)
          as (segs & Hblocks & Hentries & Hok).
        exists (flushSegs be
                ++ Fragments entry (hardSplitText (entryText entry) maxChars) :: segs).
        split; [|split].
        -- rewrite flat_map_app, <- flushSegs_blocks. simpl. by rewrite Hblocks.
        -- rewrite flat_map_app, flushSegs_entries. simpl. rewrite Hentries, Hrest.
           simpl. by rewrite <- ?app_assoc.
        -- apply segsOK_app. split; [by apply flushSegs_ok |].
           rewrite flushSegs_entries. simpl. unfold startsClean; simpl.
           split; [done |]. split; [|done]. split; [apply hardSplitText_cat |].
           apply hardSplitLoop_nonempty, estimateTokens_pos.
           apply Nat.ltb_lt in Hover. subst pairedTokens. simpl in Hover.
           unfold entryTokens in *. lia.
      * destruct ((maxTokens <? bt + pairedTokens) && nonempty be) eqn:Hfull.
        -- (* the current block is full: close it, start the next with the unit *)
           apply andb_true_iff in Hfull as [_ Hne].
           destruct (IH rest' (entry :: results) pairedTokens (rev be ++ before) Hlen')
             as (segs & Hblocks & Hentries & Hok); [done | done |].
           exists (Whole be :: segs). split; [|split].
           ++ simpl. by rewrite Hblocks.
           ++ simpl. rewrite Hentries, Hrest. simpl. by rewrite <- ?app_assoc.
           ++ simpl. split; [|done]. unfold startsClean; simpl.
              destruct be; [done | exact Hbe].
        -- (* the unit joins the current block *)
           destruct (IH rest' (be ++ entry :: results) (bt + pairedTokens) before Hlen')
             as (segs & Hblocks & Hentries & Hok).
           ++ destruct be; simpl; [exact Hes | exact Hbe].
           ++ rewrite rev_app_distr, <- app_assoc. exact Hnext.
           ++ exists segs. split; [done |]. split; [|done].
              rewrite Hentries, Hrest. simpl. by rewrite <- ?app_assoc.
Qed.

Lemma entryTurnBlocks_spec maxTokens turn before :
  turn ≠ [] → cleanHead before turn →
  ∃ segs,
    entryTurnBlocks maxTokens turn = flat_map segmentBlocks segs
    ∧ flat_map segmentEntries segs = turn
    ∧ segsOK before segs.
Proof.
  intros Hne Hclean. unfold entryTurnBlocks.
  destruct (estimateTokens _ <=? maxTokens).
  - exists [Whole turn]. simpl. rewrite app_nil_r. repeat split; try done.
    unfold startsClean; simpl. by destruct turn.
  - apply (splitTurnEntries_spec maxTokens (maxTokens * 4) (length turn) turn [] 0 before);
      [lia | done | done].
Qed.

(** Step 1: the turns partition the kept entries, and a turn never starts
    inside a run of results. *)
Lemma last_rev_head (l before : list TurnEntry) x :
  last l = Some x → ∃ l', rev l ++ before = x :: l'.
Proof.
  intros Hl. apply last_Some in Hl as [l' ->].
  rewrite rev_app_distr. simpl. eauto.
Qed.

Lemma entryTurns_spec entries :
  ∀ i current before turns,
    match current with [] => before = [] | e :: _ => attached before e = false end →
    entryTurns entries i current = Returned turns →
    concat turns = current ++ keptEntries entries i
    ∧ segsOK before (map Whole turns).
Proof.
  induction entries as [|entry rest IH]; intros i current before turns Hcur; simpl.
  - intros [= <-]. destruct current as [|e current]; simpl; [done |].
    rewrite !app_nil_r. unfold startsClean; simpl. auto.
  - destruct (getMessageFromEntry entry) as [|[msg|]]; [done | | by apply IH].
    destruct (isSummary msg); [by apply IH |].
    set (te := mkTurnEntry i entry msg).
    assert (match current ++ [te] with
            | [] => before = []
            | e :: _ => attached before e = false end) as Hgrow.
    { destruct current as [|e current]; simpl; [|done].
      subst before. simpl. by rewrite andb_false_r. }
    destruct (roleIs msg "user" && nonempty current) eqn:Huser.
    + destruct (hasToolResult msg && lastHasToolUse current) eqn:Hpair.
      * intros Hrun. destruct (IH (S i) (current ++ [te]) before turns Hgrow Hrun) as [Hc Hok].
        rewrite Hc, <- app_assoc. done.
      * apply andb_true_iff in Huser as [Hrole Hne].
        assert (attached (rev current ++ before) te = false) as Hte.
        { destruct current as [|e current]; [done |].
          unfold lastHasToolUse in Hpair.
          destruct (last (e :: current)) as [x|] eqn:Hlast.
          - destruct (last_rev_head _ before _ Hlast) as [l' ->]. simpl.
            change (te_message te) with msg. rewrite Hrole. simpl.
            by rewrite orb_false_r.
          - by apply last_None in Hlast. }
        destruct (entryTurns rest (S i) [te]) as [|following] eqn:Hrun; [done |].
        intros [= <-].
        destruct (IH (S i) [te] (rev current ++ before) following Hte Hrun) as [Hc Hok].
        simpl. rewrite Hc. split; [done |].
        split; [|done]. unfold startsClean; simpl. by destruct current.
    + intros Hrun. destruct (IH (S i) (current ++ [te]) before turns Hgrow Hrun) as [Hc Hok].
      rewrite Hc, <- app_assoc. done.
Qed.

Lemma entryTurns_nonempty entries :
  ∀ i current turns,
    entryTurns entries i current = Returned turns → Forall (λ t, t ≠ []) turns.
Proof.
  induction entries as [|entry rest IH]; intros i current turns; simpl.
  - intros [= <-]. destruct current; repeat constructor. done.
  - destruct (getMessageFromEntry entry) as [|[msg|]]; [done | | by apply IH].
    destruct (isSummary msg); [by apply IH |].
    destruct (roleIs msg "user" && nonempty current) eqn:Huser; [|by apply IH].
    destruct (hasToolResult msg && lastHasToolUse current); [by apply IH |].
    destruct (entryTurns rest (S i) _) as [|following] eqn:Hrun; [done |].
    intros [= <-]. constructor; [|by eapply IH].
    apply andb_true_iff in Huser as [_ Hne]. by destruct current.
Qed.

(** Reading an entry throws exactly on a custom entry that is not
    metadata and has no data. *)
Lemma getMessageFromEntry_throws entry :
  getMessageFromEntry entry = Threw ↔ dataless entry.
Proof.
  unfold getMessageFromEntry, dataless.
  destruct (String.eqb (e_type entry) "message") eqn:Hmsg.
  - apply String.eqb_eq in Hmsg. rewrite Hmsg. simpl.
    destruct (e_message entry); split; try done; by intros (? & _).
  - destruct (String.eqb (e_type entry) "custom") eqn:Hcustom.
    + apply String.eqb_eq in Hcustom.
      destruct (existsb _ METADATA_TYPES); [split; [done | by intros (_ & ? & _)] |].
      destruct (e_data entry); split; try done; by intros (_ & _ & ?).
    + apply String.eqb_neq in Hcustom.
      destruct (String.eqb _ "custom_message"); [split; [done | by intros (? & _)] |].
      destruct (String.eqb _ "compaction"); [split; [done | by intros (? & _)] |].
      destruct (String.eqb _ "branch_summary"); split; try done; by intros (? & _).
Qed.

(** Step 1 returns unless one of the entries it reads throws. *)
Lemma entryTurns_returns entries :
  ∀ i current,
    (∃ turns, entryTurns entries i current = Returned turns)
    ↔ Forall (λ entry, ¬ dataless entry) entries.
Proof.
  induction entries as [|entry rest IH]; intros i current; simpl.
  - split; [constructor | eauto].
  - rewrite Forall_cons, <- getMessageFromEntry_throws.
    destruct (getMessageFromEntry entry) as [|[msg|]] eqn:Hread.
    + split; [by intros [? ?] | by intros [? _]].
    + assert (∀ j cur, (∃ turns, entryTurns rest j cur = Returned turns)
                       ↔ (Returned (Some msg) ≠ @Threw (option Message)
                          ∧ Forall (λ entry, ¬ dataless entry) rest)) as Hrest.
      { intros j cur. rewrite IH. split; [by intros ? | by intros [_ ?]]. }
      destruct (isSummary msg); [apply Hrest |].
      destruct (roleIs msg "user" && nonempty current); [|apply Hrest].
      destruct (hasToolResult msg && lastHasToolUse current); [apply Hrest |].
      rewrite <- (Hrest (S i) [mkTurnEntry i entry msg]). unfold pushTurn.
      destruct (entryTurns rest (S i) _) as [|following]; [done |].
      split; intros _; eauto.
    + rewrite IH. split; [by intros ? | by intros [_ ?]].
Qed.

Lemma turns_segmentation maxTokens turns :
  ∀ before,
    Forall (λ t, t ≠ []) turns →
    segsOK before (map Whole turns) →
    ∃ segs,
      flat_map (entryTurnBlocks maxTokens) turns = flat_map segmentBlocks segs
      ∧ flat_map segmentEntries segs = concat turns
      ∧ segsOK before segs.
Proof.
  induction turns as [|turn turns IH]; intros before Hne Hok.
  - exists []. done.
  - inversion Hne as [|? ? Hturn Hturns]; subst.
    simpl in Hok. destruct Hok as (Hstart & _ & Hok).
    destruct (entryTurnBlocks_spec maxTokens turn before Hturn) as (s1 & Hb1 & He1 & Hok1).
    { unfold startsClean in Hstart. simpl in Hstart. by destruct turn. }
    destruct (IH _ Hturns Hok) as (s2 & Hb2 & He2 & Hok2).
    exists (s1 ++ s2). rewrite !flat_map_app. simpl. split; [|split].
    + by rewrite Hb1, Hb2.
    + by rewrite He1, He2.
    + apply segsOK_app. rewrite He1. done.
Qed.

(** The emitted blocks are the blocks of a list of segments that covers
    the kept entries in order, each once, none starting inside a run of
    tool results. *)
Lemma segmentation cfg branchEntries startIndex blocks :
  groupEntriesIntoBlocks cfg branchEntries startIndex = Returned blocks →
  ∃ segs,
    blocks = flat_map segmentBlocks segs
    ∧ flat_map segmentEntries segs = spanEntries branchEntries startIndex
    ∧ segsOK [] segs.
Proof.
  unfold groupEntriesIntoBlocks, spanEntries.
  destruct (entryTurns _ _ _) as [|turns] eqn:Hturns; [done |]. intros [= <-].
  destruct (entryTurns_spec _ _ [] [] _ eq_refl Hturns) as [Hconcat Hok].
  destruct (turns_segmentation (maxTokensOf cfg) _ [] (entryTurns_nonempty _ _ _ _ Hturns) Hok)
    as (segs & Hb & He & Hsegs).
  exists segs. rewrite He, Hconcat. done.
Qed.

(** The segmenter returns unless an entry at or after the start index is
    a custom entry without data. *)
Lemma groupEntriesIntoBlocks_returns cfg branchEntries startIndex :
  (∃ blocks, groupEntriesIntoBlocks cfg branchEntries startIndex = Returned blocks)
  ↔ Forall (λ entry, ¬ dataless entry) (drop startIndex branchEntries).
Proof.
  rewrite <- (entryTurns_returns _ startIndex []). unfold groupEntriesIntoBlocks.
  destruct (entryTurns _ _ _) as [|turns]; split; intros [? ?]; eauto; done.
Qed.

Lemma dataless_or_not entries :
  Forall (λ entry, ¬ dataless entry) entries ∨ Exists dataless entries.
Proof.
  induction entries as [|entry rest [IH|IH]].
  - left. constructor.
  - destruct (getMessageFromEntry entry) as [|found] eqn:Hread.
    + right. apply Exists_cons_hd. by apply getMessageFromEntry_throws.
    + left. constructor; [|done]. intros Hbad%getMessageFromEntry_throws. congruence.
  - right. by apply Exists_cons_tl.
Qed.

Lemma groupEntriesIntoBlocks_throws cfg branchEntries startIndex :
  groupEntriesIntoBlocks cfg branchEntries startIndex = Threw
  ↔ Exists dataless (drop startIndex branchEntries).
Proof.
  pose proof (groupEntriesIntoBlocks_returns cfg branchEntries startIndex) as Hret.
  destruct (groupEntriesIntoBlocks cfg branchEntries startIndex) as [|blocks].
  - split; [intros _ | done].
    destruct (dataless_or_not (drop startIndex branchEntries)) as [Hall|Hex]; [|done].
    apply Hret in Hall as [? ?]. done.
  - split; [done |]. intros Hex. exfalso.
    assert (Forall (λ entry, ¬ dataless entry) (drop startIndex branchEntries)) as Hall
      by (apply Hret; eauto).
    apply Exists_exists in Hex as (entry & Hin & Hbad).
    rewrite Forall_forall in Hall. by apply (Hall entry).
Qed.

End SegmenterProofs.

Section SegmenterTheorems.
Context `{Platform}.

Lemma segsOK_Forall before segs :
  segsOK before segs → Forall (λ s, segmentEntries s ≠ [] ∧ wellFormed s) segs.
Proof.
  revert before. induction segs as [|s segs IH]; intros before; simpl; [constructor |].
  intros (Hstart & Hwf & Hok). constructor; [|by eapply IH].
  split; [|done]. unfold startsClean in Hstart. by destruct (segmentEntries s).
Qed.

Lemma segmentBlocks_entries s b : b ∈ segmentBlocks s → eb_entries b = segmentEntries s.
Proof.
  destruct s as [es|e chunks]; simpl.
  - by intros ->%list_elem_of_singleton.
  - intros (chunk & -> & _)%list_elem_of_fmap. done.
Qed.

(** The texts of the blocks of one segment concatenate to the joined text
    of its entries. *)
Lemma segmentBlocks_text s :
  wellFormed s →
  Str.cat (map eb_text (segmentBlocks s)) = Str.join msgSep (map entryText (segmentEntries s)).
Proof.
  destruct s as [es|e chunks]; simpl.
  - intros _. apply append_nil_r.
  - intros [Hcat _]. rewrite map_map. simpl. rewrite map_id. exact Hcat.
Qed.

(** Joining the texts of groups whose own text is the join of their
    members' texts. *)
Lemma join_groups {S A} (segs : list S) (members : S → list A) (text : A → string)
    (groupText : S → string) :
  Forall (λ s, members s ≠ [] ∧ groupText s = Str.join msgSep (map text (members s))) segs →
  Str.join msgSep (map groupText segs) = Str.join msgSep (map text (flat_map members segs)).
Proof.
  intros Hok.
  transitivity (Str.join msgSep
                  (map (Str.join msgSep) (map (λ s, map text (members s)) segs))).
  - f_equal. rewrite map_map. apply Forall_fmap_ext_1.
    eapply Forall_impl; [exact Hok |]. by intros s [_ Hs].
  - rewrite join_concat.
    + f_equal. clear. induction segs as [|s segs IH]; simpl; [done |].
      by rewrite map_app, IH.
    + induction Hok as [|s segs [Hne _] _ IH]; simpl; constructor; [|done].
      by destruct (members s).
Qed.

(** *** Tool pairs *)

Lemma keptEntries_index entries : ∀ i te, te ∈ keptEntries entries i → i ≤ te_index te.
Proof.
  induction entries as [|entry rest IH]; intros i te; simpl.
  - by intros ?%elem_of_nil.
  - assert (te ∈ keptEntries rest (S i) → i ≤ te_index te) as Hrest.
    { intros Hin%IH. lia. }
    destruct (getMessageFromEntry entry) as [|[msg|]]; [done | | done].
    destruct (isSummary msg); [done |].
    intros [->|Hin]%elem_of_cons; [simpl; lia | auto].
Qed.

Lemma keptEntries_NoDup entries : ∀ i, NoDup (keptEntries entries i).
Proof.
  induction entries as [|entry rest IH]; intros i; simpl; [constructor |].
  destruct (getMessageFromEntry entry) as [|[msg|]]; [done | | done].
  destruct (isSummary msg); [done |].
  constructor; [|done]. intros Hin%keptEntries_index. simpl in Hin. lia.
Qed.

(** Every result of a run is attached, whatever came before the
    invocation. *)
Lemma run_attached inv results ctx :
  hasToolUse (te_message inv) = true →
  Forall (λ e, hasToolResult (te_message e) = true) results →
  Forall (λ e, roleIs (te_message e) "user" = false) (tail results) →
  ∀ r1 y r2, results = r1 ++ y :: r2 → attached (rev r1 ++ inv :: ctx) y = true.
Proof.
  intros Hinv Hres Hrole r1. induction r1 as [|x r1 IH] using rev_ind; intros y r2 ->.
  - simpl. inversion Hres; subst. rewrite Hinv. by apply andb_true_iff.
  - rewrite rev_app_distr. simpl.
    assert (hasToolResult (te_message y) = true) as Hy.
    { rewrite Forall_forall in Hres. apply Hres.
      apply elem_of_app. right. apply elem_of_cons. by left. }
    assert (roleIs (te_message y) "user" = false) as Hny.
    { rewrite Forall_forall in Hrole. apply Hrole.
      rewrite <- app_assoc. destruct r1; simpl.
      - apply elem_of_cons. by left.
      - apply elem_of_app. right. apply elem_of_cons. right. apply elem_of_cons. by left. }
    rewrite Hy, Hny. simpl.
    rewrite (IH x (y :: r2)); [by rewrite orb_true_r |].
    by rewrite <- ?app_assoc.
Qed.

Lemma flat_map_head_entry before segs y l :
  segsOK before segs → flat_map segmentEntries segs = y :: l →
  attached before y = false.
Proof.
  destruct segs as [|s segs]; simpl; [done |].
  intros (Hstart & _) Heq. unfold startsClean in Hstart.
  destruct (segmentEntries s) as [|e es]; [done |].
  simpl in Heq. by injection Heq as -> _.
Qed.

(** A run that no segment may start inside lies within one whole block. *)
Lemma run_in_one_segment inv r rs post :
  ∀ segs before pre,
    segsOK before segs →
    flat_map segmentEntries segs = pre ++ inv :: r :: rs ++ post →
    (∀ r1 y r2, r :: rs = r1 ++ y :: r2 →
       attached (rev r1 ++ inv :: rev pre ++ before) y = true) →
    ∃ s1 es s2 l1 l2,
      segs = s1 ++ Whole es :: s2 ∧ es = l1 ++ inv :: r :: rs ++ l2.
Proof.
  induction segs as [|s segs IH]; intros before pre Hok Hflat Hrun.
  - simpl in Hflat. by destruct pre.
  - simpl in Hok. destruct Hok as (Hstart & Hwf & Hok). simpl in Hflat.
    apply app_eq_app in Hflat as [k [[Hs Hk]|[Hpre Hsegs]]].
    + (* the segment reaches the invocation *)
      destruct k as [|k0 k].
      { (* it ends right before it *)
        rewrite app_nil_r in Hs. simpl in Hk.
        destruct (IH (rev (segmentEntries s) ++ before) [] Hok) as (s1 & es & s2 & l1 & l2 & -> & Hes).
        - done.
        - intros r1 y r2 Hr. specialize (Hrun r1 y r2 Hr). by rewrite Hs.
        - exists (s :: s1), es, s2, l1, l2. done. }
      simpl in Hk. injection Hk as <- Hk.
      symmetry in Hk. change (r :: rs ++ post) with ((r :: rs) ++ post) in Hk.
      apply app_eq_app in Hk as [m [[Hk Hpost]|[Hrs Hsegs]]].
      * (* it holds the whole run *)
        destruct s as [es|e chunks]; simpl in Hs.
        -- exists [], es, segs, pre, m. split; [done |].
           rewrite Hs, Hk. simpl. by rewrite <- ?app_assoc.
        -- subst k. destruct pre; simpl in Hs; [done |].
           injection Hs as _ Hs. by destruct pre.
      * (* it would end inside the run *)
        destruct m as [|y m].
        -- rewrite app_nil_r in Hrs. subst k.
           destruct s as [es|e chunks]; simpl in Hs.
           ++ exists [], es, segs, pre, []. split; [done |]. by rewrite Hs, app_nil_r.
           ++ destruct pre; simpl in Hs; [done |]. injection Hs as _ Hs. by destruct pre.
        -- exfalso. simpl in Hsegs.
           pose proof (flat_map_head_entry _ _ _ _ Hok Hsegs) as Hclean.
           specialize (Hrun k y m Hrs).
           rewrite Hs, rev_app_distr in Hclean. simpl in Hclean.
           rewrite <- !app_assoc in Hclean. simpl in Hclean. congruence.
    + (* the segment lies before the invocation *)
      destruct (IH (rev (segmentEntries s) ++ before) k Hok Hsegs)
        as (s1 & es & s2 & l1 & l2 & -> & Hes).
      * intros r1 y r2 Hr. specialize (Hrun r1 y r2 Hr).
        rewrite Hpre, rev_app_distr, <- app_assoc in Hrun. exact Hrun.
      * exists (s :: s1), es, s2, l1, l2. done.
Qed.

(** X29: what the compaction path does for tool pairs.  Among the blocks
    it returns, a tool invocation, the tool result right after it and every
    further tool result that follows directly and whose role is not
    ["user"] lie in one block, and no other block holds any of them,
    whatever the block budget. *)
Theorem tool_pairs_stay_together cfg branchEntries startIndex blocks pre inv r rs post :
  groupEntriesIntoBlocks cfg branchEntries startIndex = Returned blocks →
  spanEntries branchEntries startIndex = pre ++ inv :: r :: rs ++ post →
  hasToolUse (te_message inv) = true →
  Forall (λ e, hasToolResult (te_message e) = true) (r :: rs) →
  Forall (λ e, roleIs (te_message e) "user" = false) rs →
  ∃ bs1 b bs2 l1 l2,
    blocks = bs1 ++ b :: bs2
    ∧ eb_entries b = l1 ++ inv :: r :: rs ++ l2
    ∧ ∀ b' e, b' ∈ bs1 ++ bs2 → e ∈ inv :: r :: rs → e ∉ eb_entries b'.
Proof.
  intros Hrun Hspan Hinv Hres Hrole.
  destruct (segmentation cfg branchEntries startIndex blocks Hrun)
    as (segs & Hblocks & Hentries & Hok).
  pose proof (keptEntries_NoDup (drop startIndex branchEntries) startIndex) as Hnodup.
  fold (spanEntries branchEntries startIndex) in Hnodup.
  rewrite <- Hentries in Hnodup. rewrite Hspan in Hentries.
  destruct (run_in_one_segment inv r rs post segs [] pre Hok Hentries)
    as (s1 & es & s2 & l1 & l2 & -> & ->).
  { intros r1 y r2 Hr. rewrite app_nil_r. by eapply run_attached. }
  exists (flat_map segmentBlocks s1), (finalizeEntryBlock (l1 ++ inv :: r :: rs ++ l2)),
    (flat_map segmentBlocks s2), l1, l2.
  split; [|split].
  - rewrite Hblocks, flat_map_app. done.
  - done.
  - intros b' e Hb' He Hin.
    rewrite flat_map_app in Hnodup. simpl in Hnodup.
    apply NoDup_app in Hnodup as (_ & Hdisj1 & Hnodup).
    apply NoDup_app in Hnodup as (_ & Hdisj2 & _).
    assert (e ∈ l1 ++ inv :: r :: rs ++ l2) as Hees.
    { apply elem_of_app. right. apply elem_of_cons in He as [->|He]; [by apply elem_of_cons; left |].
      apply elem_of_cons. right. change (e ∈ (r :: rs) ++ l2). apply elem_of_app. by left. }
    apply elem_of_app in Hb' as [Hb'|Hb'].
    + apply list_elem_of_In, in_flat_map in Hb' as (s & Hs & Hb').
      apply list_elem_of_In in Hs, Hb'.
      rewrite (segmentBlocks_entries _ _ Hb') in Hin.
      apply (Hdisj1 e); [|apply elem_of_app; by left].
      apply list_elem_of_In, in_flat_map. exists s.
      split; by apply list_elem_of_In.
    + apply list_elem_of_In, in_flat_map in Hb' as (s & Hs & Hb').
      apply list_elem_of_In in Hs, Hb'.
      rewrite (segmentBlocks_entries _ _ Hb') in Hin.
      apply (Hdisj2 e Hees).
      apply list_elem_of_In, in_flat_map. exists s.
      split; by apply list_elem_of_In.
Qed.

End SegmenterTheorems.

Section MessagePath.
Context `{Platform}.

Lemma flushMsgSegs_spec blockMsgs :
  flushMessages blockMsgs = flat_map msgSegmentBlocks (flushMsgSegs blockMsgs)
  ∧ flat_map msgSegmentMessages (flushMsgSegs blockMsgs) = blockMsgs
  ∧ Forall msgSegmentOK (flushMsgSegs blockMsgs).
Proof.
  unfold flushMessages, flushMsgSegs. destruct blockMsgs; simpl; [done |].
  rewrite app_nil_r. repeat split. by repeat constructor.
Qed.

Lemma splitTurnMessages_spec maxTokens maxChars turnMsgs :
  ∀ blockMsgs blockTokens,
    ∃ segs,
      splitTurnMessages maxTokens maxChars turnMsgs blockMsgs blockTokens
        = flat_map msgSegmentBlocks segs
      ∧ flat_map msgSegmentMessages segs = blockMsgs ++ turnMsgs
      ∧ Forall msgSegmentOK segs.
Proof.
  induction turnMsgs as [|msg rest IH]; intros blockMsgs blockTokens; simpl.
  - exists (flushMsgSegs blockMsgs). rewrite app_nil_r. apply flushMsgSegs_spec.
  - destruct (flushMsgSegs_spec blockMsgs) as (Hfb & Hfm & Hfok).
    destruct (maxTokens <? estimateTokens (extractMessageText msg)).
    + destruct (IH [] 0) as (segs & Hb & Hm & Hok).
      exists (flushMsgSegs blockMsgs
              ++ MessageFragments msg (hardSplitText (extractMessageText msg) maxChars) :: segs).
      rewrite !flat_map_app. simpl. rewrite <- Hfb, Hfm, Hb, Hm. repeat split.
      apply Forall_app. split; [done |]. constructor; [apply hardSplitText_cat | done].
    + destruct ((maxTokens <? blockTokens + _) && nonempty blockMsgs) eqn:Hfull.
      * apply andb_true_iff in Hfull as [_ Hne].
        destruct (IH [msg] (estimateTokens (extractMessageText msg))) as (segs & Hb & Hm & Hok).
        exists (WholeMessages blockMsgs :: segs). simpl. rewrite Hb, Hm. repeat split.
        constructor; [by destruct blockMsgs | done].
      * destruct (IH (blockMsgs ++ [msg])
                    (blockTokens + estimateTokens (extractMessageText msg)))
          as (segs & Hb & Hm & Hok).
        exists segs. rewrite Hm, <- app_assoc. done.
Qed.

Lemma messageTurns_spec messages :
  ∀ currentMsgs,
    concat (messageTurns messages currentMsgs) = currentMsgs ++ keptMessages messages
    ∧ Forall (λ t, t ≠ []) (messageTurns messages currentMsgs).
Proof.
  unfold keptMessages.
  induction messages as [|msg rest IH]; intros currentMsgs; simpl.
  - destruct currentMsgs; simpl; [done |]. rewrite !app_nil_r. by repeat constructor.
  - destruct (isSummary msg) eqn:Hsum.
    + rewrite filter_cons_False by (by rewrite Hsum). apply IH.
    + rewrite filter_cons_True by done.
      destruct (roleIs msg "user" && nonempty currentMsgs) eqn:Huser.
      * destruct (IH [msg]) as [Hc Hne]. simpl. rewrite Hc. split; [done |].
        constructor; [|done]. apply andb_true_iff in Huser as [_ Hcur]. by destruct currentMsgs.
      * destruct (IH (currentMsgs ++ [msg])) as [Hc Hne]. rewrite Hc, <- app_assoc. done.
Qed.

Lemma message_segmentation cfg messages :
  ∃ segs,
    groupMessagesIntoBlocks cfg messages = flat_map msgSegmentBlocks segs
    ∧ flat_map msgSegmentMessages segs = keptMessages messages
    ∧ Forall msgSegmentOK segs.
Proof.
  unfold groupMessagesIntoBlocks.
  destruct (messageTurns_spec messages []) as [Hconcat Hne]. simpl in Hconcat.
  rewrite <- Hconcat. clear Hconcat.
  induction Hne as [|turn turns Hturn _ IH].
  - exists []. done.
  - destruct IH as (segs2 & Hb2 & Hm2 & Hok2).
    assert (∃ segs1, messageTurnBlocks (maxTokensOf cfg) turn = flat_map msgSegmentBlocks segs1
                     ∧ flat_map msgSegmentMessages segs1 = turn
                     ∧ Forall msgSegmentOK segs1) as (segs1 & Hb1 & Hm1 & Hok1).
    { unfold messageTurnBlocks. destruct (_ <=? _).
      - exists [WholeMessages turn]. simpl. rewrite app_nil_r. by repeat constructor.
      - apply (splitTurnMessages_spec _ _ turn [] 0). }
    exists (segs1 ++ segs2). rewrite !flat_map_app. simpl.
    rewrite Hb1, Hb2, Hm1, Hm2. repeat split. by apply Forall_app.
Qed.

Lemma msgSegmentBlocks_text s :
  msgSegmentOK s →
  Str.cat (map mb_text (msgSegmentBlocks s))
  = Str.join msgSep (map extractMessageText (msgSegmentMessages s)).
Proof.
  destruct s as [messages|msg chunks]; simpl.
  - intros _. apply append_nil_r.
  - intros Hcat. rewrite map_map. simpl. rewrite map_id. exact Hcat.
Qed.

(** C5, as amended: on both paths the blocks the segmenter returns fall,
    in order, into consecutive groups that cover the kept messages of the
    span in order, each once.  A group is one block, or the fragments of
    one hard-split message.  Concatenating the block texts inside each
    group gives the joined text of the group's messages, and joining the
    groups with the message separator gives the text of the span.  The
    turn-completion path always returns; the compaction path returns
    unless an entry of the span is a custom entry without data, on which
    reading it throws. *)
Theorem blocks_reassemble_span cfg :
  (∀ branchEntries startIndex,
     (∃ blocks, groupEntriesIntoBlocks cfg branchEntries startIndex = Returned blocks)
     ↔ Forall (λ entry, ¬ dataless entry) (drop startIndex branchEntries))
  ∧ (∀ branchEntries startIndex blocks,
     groupEntriesIntoBlocks cfg branchEntries startIndex = Returned blocks →
     ∃ segs : list Segment,
       blocks = flat_map segmentBlocks segs
       ∧ flat_map segmentEntries segs = spanEntries branchEntries startIndex
       ∧ Forall (λ s, Str.cat (map eb_text (segmentBlocks s))
                      = Str.join msgSep (map entryText (segmentEntries s))) segs
       ∧ Str.join msgSep (map (λ s, Str.cat (map eb_text (segmentBlocks s))) segs)
         = spanText branchEntries startIndex)
  ∧ (∀ messages,
       ∃ segs : list MsgSegment,
         groupMessagesIntoBlocks cfg messages = flat_map msgSegmentBlocks segs
         ∧ flat_map msgSegmentMessages segs = keptMessages messages
         ∧ Forall (λ s, Str.cat (map mb_text (msgSegmentBlocks s))
                        = Str.join msgSep (map extractMessageText (msgSegmentMessages s))) segs
         ∧ Str.join msgSep (map (λ s, Str.cat (map mb_text (msgSegmentBlocks s))) segs)
           = Str.join msgSep (map extractMessageText (keptMessages messages))).
Proof.
  split; [|split].
  - intros branchEntries startIndex. apply groupEntriesIntoBlocks_returns.
  - intros branchEntries startIndex blocks Hrun.
    destruct (segmentation cfg branchEntries startIndex blocks Hrun)
      as (segs & Hblocks & Hentries & Hok).
    exists segs. apply segsOK_Forall in Hok.
    split; [done |]. split; [done |]. split.
    + eapply Forall_impl; [exact Hok |]. intros s [_ Hwf]. by apply segmentBlocks_text.
    + unfold spanText. rewrite <- Hentries. apply join_groups.
      eapply Forall_impl; [exact Hok |]. intros s [Hne Hwf].
      split; [done | by apply segmentBlocks_text].
  - intros messages.
    destruct (message_segmentation cfg messages) as (segs & Hblocks & Hmsgs & Hok).
    exists segs. split; [done |]. split; [done |]. split.
    + eapply Forall_impl; [exact Hok |]. intros s Hs. by apply msgSegmentBlocks_text.
    + rewrite <- Hmsgs. apply join_groups.
      eapply Forall_impl; [exact Hok |]. intros s Hs.
      split; [by destruct s | by apply msgSegmentBlocks_text].
Qed.

End MessagePath.

(** * The swap planner *)

Section Planner.
Context (cache : gmap string CacheEntry) (overflow : Z).

Lemma cumulativeSavings_0 blocks : cumulativeSavings cache blocks 0 = 0%Z.
Proof. unfold cumulativeSavings. by rewrite take_0. Qed.

Lemma cumulativeSavings_S b blocks k :
  cumulativeSavings cache (b :: blocks) (S k)
  = (savings cache b + cumulativeSavings cache blocks k)%Z.
Proof. reflexivity. Qed.

(** The walk stops at the first count whose cumulative savings reach the
    overflow, or at the end of the list. *)
Lemma walkBlocks_spec blocks :
  ∀ i saved,
    ∃ m, snd (walkBlocks cache overflow blocks i saved i) = i + m
       ∧ m ≤ length blocks
       ∧ fst (walkBlocks cache overflow blocks i saved i)
         = (saved + cumulativeSavings cache blocks m)%Z
       ∧ (∀ j, j < m → (saved + cumulativeSavings cache blocks j < overflow)%Z)
       ∧ (m < length blocks → (overflow ≤ saved + cumulativeSavings cache blocks m)%Z).
Proof.
  induction blocks as [|b blocks IH]; intros i saved; simpl.
  - exists 0. rewrite cumulativeSavings_0. repeat split; try lia.
  - destruct (overflow <=? saved)%Z eqn:Hstop.
    + exists 0. rewrite cumulativeSavings_0. simpl. repeat split; try lia.
    + apply Z.leb_gt in Hstop.
      destruct (IH (S i) (saved + savings cache b)%Z) as (m & Hm & Hle & Hsaved & Hlt & Hge).
      exists (S m). rewrite cumulativeSavings_S. repeat split; try lia.
      * intros [|j] Hj; [rewrite cumulativeSavings_0; lia |].
        rewrite cumulativeSavings_S. specialize (Hlt j). lia.
Qed.

Lemma walked_reaches blocks k : reachesAt cache overflow blocks k → walked cache overflow blocks = k.
Proof.
  intros (Hk & Hge & Hlt). unfold walked.
  destruct (walkBlocks_spec blocks 0 0%Z) as (m & -> & Hm & _ & Hmlt & Hmge). simpl.
  destruct (Nat.lt_trichotomy m k) as [Hlt'|[->|Hgt]]; [|done|].
  - specialize (Hlt m Hlt'). lia.
  - specialize (Hmlt k Hgt). lia.
Qed.

Lemma walked_never blocks :
  (∀ k, k ≤ length blocks → (cumulativeSavings cache blocks k < overflow)%Z) →
  walked cache overflow blocks = length blocks.
Proof.
  intros Hnever. unfold walked.
  destruct (walkBlocks_spec blocks 0 0%Z) as (m & -> & Hm & _ & _ & Hmge). simpl.
  destruct (decide (m = length blocks)) as [->|Hne]; [done |].
  specialize (Hnever m Hm). lia.
Qed.

Lemma walked_bounds blocks :
  (0 < overflow)%Z → blocks ≠ [] → 1 ≤ walked cache overflow blocks ≤ length blocks.
Proof.
  intros Hpos Hne. unfold walked.
  destruct (walkBlocks_spec blocks 0 0%Z) as (m & -> & Hm & _ & _ & Hmge). simpl.
  split; [|done]. destruct m; [|lia].
  rewrite cumulativeSavings_0 in Hmge. destruct blocks; [done |]. simpl in Hmge. lia.
Qed.

Lemma swapCount_walked blocks :
  (0 < overflow)%Z → blocks ≠ [] →
  swapCount cache overflow blocks = Nat.min (walked cache overflow blocks) (length blocks - 1).
Proof.
  intros Hpos Hne. pose proof (walked_bounds blocks Hpos Hne) as Hw.
  unfold swapCount. fold (walked cache overflow blocks).
  destruct (walked cache overflow blocks =? 0) eqn:H0; [apply Nat.eqb_eq in H0; lia |].
  destruct (length blocks <=? walked cache overflow blocks) eqn:Hall.
  - apply Nat.leb_le in Hall. lia.
  - apply Nat.leb_gt in Hall. lia.
Qed.

Lemma swapCount_lt blocks : blocks ≠ [] → swapCount cache overflow blocks < length blocks.
Proof.
  intros Hne. unfold swapCount.
  assert (0 < length blocks) by (destruct blocks; [done | simpl; lia]).
  destruct (length blocks <=? _) eqn:Hall; [lia |]. by apply Nat.leb_gt in Hall.
Qed.

End Planner.

(** * FIFO eviction *)

Section Eviction.
Context `{Platform}.

Lemma fold_history_sum history acc :
  fold_left (λ sum e, (sum + Z.of_nat (he_tokensCompressed e) + overheadPerBlock)%Z) history acc
  = (acc + foldr (λ e s, (contribution e + s)%Z) 0%Z history)%Z.
Proof.
  revert acc. induction history as [|e history IH]; intros acc; simpl; [lia |].
  rewrite IH. unfold contribution. lia.
Qed.

Lemma historyTotal_cons e history :
  historyTotal (e :: history) = (contribution e + historyTotal history)%Z.
Proof. unfold historyTotal. rewrite !fold_history_sum. simpl. lia. Qed.



Lemma archiveEvictedBlock_keeps sid e files name content :
  files !! name = Some content → archiveEvictedBlock sid e files !! name = Some content.
Proof.
  intros Hf. unfold archiveEvictedBlock.
  destruct (files !! evictedFileName e) eqn:He; [done |].
  rewrite lookup_insert_ne; [done |]. congruence.
Qed.

Lemma archiveEvictedBlock_present sid e files :
  is_Some (archiveEvictedBlock sid e files !! evictedFileName e).
Proof.
  unfold archiveEvictedBlock. destruct (files !! evictedFileName e) eqn:He.
  - rewrite He. eauto.
  - rewrite lookup_insert_eq. eauto.
Qed.

Lemma evictLoop_spec trigger sid history :
  ∀ total files history' total' files',
    total = historyTotal history →
    evictLoop trigger sid history total files = (history', total', files') →
    ∃ removed,
      history = removed ++ history'
      ∧ total' = historyTotal history'
      ∧ ((total' ≤ trigger)%Z ∨ history' = [])
      ∧ (∀ older e newer, removed = older ++ e :: newer →
           (trigger < historyTotal (e :: newer ++ history'))%Z)
      ∧ (∀ e, e ∈ removed → is_Some (files' !! evictedFileName e))
      ∧ (∀ name content, files !! name = Some content → files' !! name = Some content).
Proof.
  induction history as [|oldest rest IH]; intros total files history' total' files' Htotal; simpl.
  - intros [= <- <- <-]. exists []. repeat split; auto.
    + by intros older e newer ?%app_cons_not_nil.
    + by intros e ?%elem_of_nil.
  - destruct (trigger <? total)%Z eqn:Hover.
    + apply Z.ltb_lt in Hover. intros Hloop.
      apply IH in Hloop as (removed & -> & Ht & Hdone & Hmin & Harch & Hkeep).
      2:{ rewrite Htotal, historyTotal_cons. unfold contribution. lia. }
      exists (oldest :: removed). repeat split; auto.
      * intros older e newer Heq. destruct older as [|o older]; simpl in Heq.
        -- injection Heq as <- <-. by rewrite <- Htotal.
        -- injection Heq as <- Heq. eauto.
      * intros e [->|He]%elem_of_cons; [|auto].
        destruct (archiveEvictedBlock_present sid oldest files) as [content Hc].
        rewrite (Hkeep _ _ Hc). eauto.
      * intros name content Hf. eauto using archiveEvictedBlock_keeps.
    + apply Z.ltb_ge in Hover. intros [= <- <- <-]. exists []. repeat split; auto.
      * by intros older e newer ?%app_cons_not_nil.
      * by intros e ?%elem_of_nil.
Qed.

Lemma applyFifoEviction_prefix st :
  ∃ removed, compactionHistory st = removed ++ compactionHistory (applyFifoEviction st).
Proof.
  unfold applyFifoEviction.
  destruct (evictLoop _ _ _ _ _) as [[history' total'] files'] eqn:Hloop.
  apply evictLoop_spec in Hloop as (removed & Hsplit & _); [|done].
  exists removed. done.
Qed.





End Eviction.

Lemma uncachedEstimate_ceil tokens :
  3 * tokens ≤ 5 * uncachedEstimate tokens < 3 * tokens + 5.
Proof.
  unfold uncachedEstimate.
  pose proof (Nat.div_mod_eq (3 * tokens + 4) 5) as Hdiv.
  pose proof (Nat.mod_upper_bound (3 * tokens + 4) 5) as Hmod. lia.
Qed.

(** C2, as amended: the planner walks the eligible blocks oldest first;
    each block adds its raw tokens minus the cached compressed tokens, or
    minus six tenths of its raw tokens rounded up when it is not cached.
    The swap count is the number of blocks walked when the cumulative
    savings first reach the overflow, capped at one less than the number
    of eligible blocks; when the savings never reach the overflow it is
    that cap.  For a trigger of 36000, 40000 tokens before, blocks of 5000,
    4000, 4000 and 3000 tokens and the first two cached at 2000 and 1800,
    the swap count is 2 and blocks 3 and 4 stay raw. *)
Theorem swap_count_is_capped_walk cache overflow blocks :
  (0 < overflow)%Z → blocks ≠ [] →
  (∀ b, savings cache b
        = (Z.of_nat (eb_tokens b)
           - Z.of_nat (match cache !! eb_hash b with
                       | Some cached => ce_tokensCompressed cached
                       | None => uncachedEstimate (eb_tokens b)
                       end))%Z)
  ∧ (∀ tokens, 3 * tokens ≤ 5 * uncachedEstimate tokens < 3 * tokens + 5)
  ∧ (∀ k, reachesAt cache overflow blocks k →
          swapCount cache overflow blocks = Nat.min k (length blocks - 1))
  ∧ ((∀ k, k ≤ length blocks → (cumulativeSavings cache blocks k < overflow)%Z) →
     swapCount cache overflow blocks = length blocks - 1)
  ∧ swapCount Demo.scenarioCache (40000 - 36000) Demo.scenarioBlocks = 2
  ∧ drop 2 Demo.scenarioBlocks = [Demo.sized "b3" 4000; Demo.sized "b4" 3000].
Proof.
  intros Hpos Hne. split; [done |]. split; [apply uncachedEstimate_ceil |].
  split; [|split; [|split]].
  - intros k Hk. rewrite swapCount_walked by done. by rewrite (walked_reaches _ _ _ _ Hk).
  - intros Hnever. rewrite swapCount_walked by done.
    rewrite (walked_never _ _ _ Hnever). lia.
  - by vm_compute.
  - done.
Qed.

(** * The cache *)

Lemma compressSingleBlock_raw_or_smaller st rawText entry :
  compressSingleBlock st rawText = Some entry →
  ce_tokensCompressed entry ≤ ce_tokensRaw entry
  ∧ (String.length rawText < minCompressChars (config st) → ce_compressed entry = rawText)
  ∧ (∀ provider texts,
       completeSimple st = Some provider → provider rawText = RespContent texts →
       95 * estimateTokens rawText ≤ 100 * estimateTokens (Str.join Str.nl texts) →
       ce_compressed entry = rawText).
Proof.
  unfold compressSingleBlock.
  destruct (completeSimple st) as [provider|]; [|done].
  destruct (resolvedApiKey st); [|done].
  destruct (String.length rawText <? minCompressChars (config st)) eqn:Hshort.
  - intros [= <-]. simpl. auto.
  - apply Nat.ltb_ge in Hshort.
    destruct (provider rawText) as [| |texts] eqn:Hresp; [done | done |].
    destruct (95 * estimateTokens rawText <=? 100 * _) eqn:Hshrink.
    + intros [= <-]. simpl. auto.
    + apply Nat.leb_gt in Hshrink. intros [= <-]. simpl.
      split; [lia |]. split; [lia |].
      intros provider' texts' [= <-]. rewrite Hresp. intros [= <-]. lia.
Qed.

Lemma onDemandEntry_raw_or_smaller st b :
  ce_tokensCompressed (onDemandEntry st b) ≤ ce_tokensRaw (onDemandEntry st b)
  ∧ (String.length (eb_text b) < minCompressChars (config st) →
     ce_compressed (onDemandEntry st b) = eb_text b)
  ∧ (∀ provider texts,
       completeSimple st = Some provider → provider (eb_text b) = RespContent texts →
       95 * estimateTokens (eb_text b) ≤ 100 * estimateTokens (Str.join Str.nl texts) →
       ce_compressed (onDemandEntry st b) = eb_text b).
Proof.
  unfold onDemandEntry.
  destruct (compressSingleBlock st (eb_text b)) as [entry|] eqn:Hc.
  - by apply compressSingleBlock_raw_or_smaller.
  - simpl. auto.
Qed.

Lemma queueBlock_cache st block h entry :
  messageCache (queueBlock st block) !! h = Some entry →
  messageCache st !! h = Some entry
  ∨ (h = mb_hash block
     ∧ entry = rawCacheEntry (mb_text block) (mb_tokens block)
     ∧ String.length (mb_text block) < minCompressChars (config st)).
Proof.
  unfold queueBlock.
  destruct (negb (enabled (config st)) || capabilityUnavailable st); [auto |].
  destruct (messageCache st !! mb_hash block) eqn:Hhit; [auto |].
  destruct (String.length (mb_text block) <? minCompressChars (config st)) eqn:Hshort.
  - apply Nat.ltb_lt in Hshort. simpl.
    destruct (decide (h = mb_hash block)) as [->|Hne].
    + rewrite lookup_insert_eq. intros [= <-]. auto.
    + rewrite lookup_insert_ne by done. auto.
  - destruct (0 <? deferredCompactionMinBlocks _); simpl; auto.
Qed.

(** * The background queue *)

Lemma archiveRawBlock_present hash text files :
  is_Some (archiveRawBlock hash text files !! (hash +:+ ".md")).
Proof.
  unfold archiveRawBlock. destruct (files !! (hash +:+ ".md")) eqn:Hf.
  - rewrite Hf. eauto.
  - rewrite lookup_insert_eq. eauto.
Qed.

Lemma drainQueue_app q1 q2 files :
  drainQueue (q1 ++ q2) files = drainQueue q2 (drainQueue q1 files).
Proof.
  revert files. induction q1 as [|[text hash] q1 IH]; intros files; simpl; [done |].
  apply IH.
Qed.

(** C4, as amended: [queueBlock] does nothing when the engine is switched
    off, when the provider or the key is missing, or when the hash is
    cached.  Otherwise a block shorter than the minimum is cached as it
    is and not archived; any other block is queued, the queue is drained
    at once by archiving the raw text under the block's hash, and the
    cache is left as it was: no compression is run in the background. *)
Theorem queueBlock_archives_without_compressing st block :
  (enabled (config st) = false ∨ capabilityUnavailable st = true →
     queueBlock st block = st)
  ∧ (enabled (config st) = true → capabilityUnavailable st = false →
     (is_Some (messageCache st !! mb_hash block) → queueBlock st block = st)
     ∧ (messageCache st !! mb_hash block = None →
        (String.length (mb_text block) < minCompressChars (config st) →
           queueBlock st block
           = setCache st (<[ mb_hash block := rawCacheEntry (mb_text block) (mb_tokens block) ]>
                            (messageCache st)))
        ∧ (minCompressChars (config st) ≤ String.length (mb_text block) →
           messageCache (queueBlock st block) = messageCache st
           ∧ compressionQueue (queueBlock st block) = []
           ∧ rawArchive (queueBlock st block)
             = archiveRawBlock (mb_hash block) (mb_text block)
                 (drainQueue (compressionQueue st) (rawArchive st))
           ∧ is_Some (rawArchive (queueBlock st block) !! (mb_hash block +:+ ".md"))
           ∧ deferredCompactionMinBlocks (queueBlock st block) = 0))).
Proof.
  unfold queueBlock. split.
  - intros [Hoff|Hcap]; [rewrite Hoff | rewrite Hcap, orb_true_r]; done.
  - intros Hon Hcap. rewrite Hon, Hcap. simpl. split.
    + intros [entry Hhit]. by rewrite Hhit.
    + intros Hmiss. rewrite Hmiss. split.
      * intros Hshort. apply Nat.ltb_lt in Hshort. by rewrite Hshort.
      * intros Hlong. apply Nat.ltb_ge in Hlong. rewrite Hlong.
        destruct (0 <? deferredCompactionMinBlocks _) eqn:Hdef; simpl.
        -- rewrite drainQueue_app. simpl.
           repeat split; try done. apply archiveRawBlock_present.
        -- apply Nat.ltb_ge in Hdef. simpl in Hdef. rewrite drainQueue_app. simpl.
           repeat split; try done; [apply archiveRawBlock_present | lia].
Qed.

Section Handler.
Context `{Platform}.

(** The diagnostic pass throws where the segmenter does. *)
Lemma diagnoseEntries_throws entries :
  diagnoseEntries entries = Threw ↔ Exists dataless entries.
Proof.
  induction entries as [|entry rest IH]; simpl.
  - split; [done | by intros ?%Exists_nil].
  - rewrite Exists_cons, <- getMessageFromEntry_throws, <- IH.
    destruct (getMessageFromEntry entry); [tauto |].
    split; [auto | by intros [? | ?]].
Qed.

Lemma trackSession_config st ev : config (trackSession st ev) = config st.
Proof. unfold trackSession. by case_bool_decide. Qed.

(** The handler, with the two passes over the span read as one. *)
Lemma handleBeforeCompact_eq st ev :
  handleBeforeCompact st ev
  = if negb (enabled (config st)) then (st, Undefined)
    else if negb (nonempty (branchEntries ev)) then (st, Cancel)
    else if capabilityUnavailable st then (st, Cancel)
    else match groupEntriesIntoBlocks (config st) (branchEntries ev)
                 (startIndexOf (branchEntries ev)) with
         | Threw => (trackSession st ev, Throws)
         | Returned _ =>
             planAndSwap (trackSession st ev) ev (eligibleBlocks (trackSession st ev) ev)
         end.
Proof.
  unfold handleBeforeCompact.
  destruct (negb (enabled (config st))); [done |].
  destruct (negb (nonempty (branchEntries ev))); [done |].
  destruct (capabilityUnavailable st); [done |].
  unfold eligibleBlocks, allBlocksOf. rewrite trackSession_config.
  destruct (diagnoseEntries _) as [|[]] eqn:Hdiag.
  - apply diagnoseEntries_throws, (groupEntriesIntoBlocks_throws (config st)) in Hdiag.
    by rewrite Hdiag.
  - destruct (groupEntriesIntoBlocks _ _ _) as [|allBlocks] eqn:Hseg; [|done].
    apply groupEntriesIntoBlocks_throws, diagnoseEntries_throws in Hseg. congruence.
Qed.

(** C9, as amended: with the engine switched on, a missing provider or
    key makes the handler cancel before any block is selected or swapped,
    and nothing of the state changes, the history and the cache included.
    With the engine switched off the handler returns nothing instead, the
    state unchanged as well. *)
Theorem capability_unavailable_cancels st ev :
  capabilityUnavailable st = true →
  (enabled (config st) = true → handleBeforeCompact st ev = (st, Cancel))
  ∧ (enabled (config st) = false → handleBeforeCompact st ev = (st, Undefined)).
Proof.
  intros Hcap. unfold handleBeforeCompact. split; intros ->; simpl; [|done].
  rewrite Hcap. by destruct (nonempty (branchEntries ev)).
Qed.

Lemma sameSetup_refl st : sameSetup st st.
Proof. done. Qed.

Lemma sameSetup_trans st1 st2 st3 : sameSetup st1 st2 → sameSetup st2 st3 → sameSetup st1 st3.
Proof. unfold sameSetup. intros (-> & -> & ->) (-> & -> & ->). done. Qed.

Lemma trackSession_setup st ev : sameSetup (trackSession st ev) st.
Proof. unfold trackSession. by case_bool_decide. Qed.

Lemma trackSession_cache st ev : messageCache (trackSession st ev) = messageCache st.
Proof. unfold trackSession. by case_bool_decide. Qed.

Lemma preservePrevious_setup st ev : sameSetup (preservePrevious st ev) st.
Proof.
  unfold preservePrevious.
  destruct (compactionHistory st); [|done].
  destruct (lastCompactionIndex _ _); [|done].
  destruct (_ !! _); [|done]. by destruct (Str.nonEmpty _).
Qed.

Lemma preservePrevious_cache st ev : messageCache (preservePrevious st ev) = messageCache st.
Proof.
  unfold preservePrevious.
  destruct (compactionHistory st); [|done].
  destruct (lastCompactionIndex _ _); [|done].
  destruct (_ !! _); [|done]. by destruct (Str.nonEmpty _).
Qed.

Lemma compressSingleBlock_ext st1 st2 text :
  sameSetup st1 st2 → compressSingleBlock st1 text = compressSingleBlock st2 text.
Proof. intros (Hc & Hp & Hk). unfold compressSingleBlock. by rewrite Hc, Hp, Hk. Qed.

Lemma onDemandEntry_ext st1 st2 b :
  sameSetup st1 st2 → onDemandEntry st1 b = onDemandEntry st2 b.
Proof. intros Hs. unfold onDemandEntry. by rewrite (compressSingleBlock_ext st1 st2). Qed.

Lemma slotResult_ext st1 st2 cache b :
  sameSetup st1 st2 → slotResult st1 cache b = slotResult st2 cache b.
Proof. intros Hs. unfold slotResult. by rewrite (onDemandEntry_ext st1 st2). Qed.

Lemma newHistoryEntry_ext st1 st2 cache toSwap ts :
  sameSetup st1 st2 → newHistoryEntry st1 cache toSwap ts = newHistoryEntry st2 cache toSwap ts.
Proof.
  intros Hs. unfold newHistoryEntry.
  assert (map (λ b, ce_compressed (slotResult st1 cache b)) toSwap
          = map (λ b, ce_compressed (slotResult st2 cache b)) toSwap) as ->; [|done].
  apply map_ext. intros b. by rewrite (slotResult_ext st1 st2).
Qed.

Lemma eligibleBlocks_ext st1 st2 ev :
  config st1 = config st2 → eligibleBlocks st1 ev = eligibleBlocks st2 ev.
Proof. intros Hc. unfold eligibleBlocks, allBlocksOf. by rewrite Hc. Qed.

Lemma overflowOf_ext st1 st2 ev : config st1 = config st2 → overflowOf st1 ev = overflowOf st2 ev.
Proof. intros Hc. unfold overflowOf. by rewrite Hc. Qed.

(** *** The on-demand batches *)

Lemma insertOnDemand_ext st1 st2 missed :
  sameSetup st1 st2 →
  ∀ cache, insertOnDemand st1 cache missed = insertOnDemand st2 cache missed.
Proof.
  intros Hs. induction missed as [|b missed IH]; intros cache; simpl; [done |].
  rewrite (onDemandEntry_ext st1 st2) by done. apply IH.
Qed.

Lemma compressMissed_done fuel st sig batchSize :
  ∀ k missed cache cache',
    compressMissed fuel st sig batchSize k missed cache = BatchesDone cache' →
    cache' = insertOnDemand st cache missed.
Proof.
  induction fuel as [|fuel IH]; intros k missed cache cache'; simpl.
  - destruct missed; [|done]. by intros [= <-].
  - destruct missed as [|b missed]; [by intros [= <-] |].
    destruct (abortedAtBatch sig k); [done |].
    destruct (batchSize =? 0); [done |].
    intros Hrec%IH. rewrite Hrec. unfold insertOnDemand.
    rewrite <- fold_left_app, take_drop. done.
Qed.


Lemma insertOnDemand_lookup st missed :
  ∀ cache h entry,
    insertOnDemand st cache missed !! h = Some entry →
    cache !! h = Some entry
    ∨ ∃ b, b ∈ missed ∧ h = eb_hash b ∧ entry = onDemandEntry st b.
Proof.
  induction missed as [|b missed IH]; intros cache h entry; simpl; [auto |].
  intros Hl. apply IH in Hl as [Hl|(b' & Hb' & -> & ->)].
  - destruct (decide (h = eb_hash b)) as [->|Hne].
    + rewrite lookup_insert_eq in Hl. injection Hl as <-.
      right. exists b. split; [apply elem_of_cons; by left | done].
    + rewrite lookup_insert_ne in Hl by done. auto.
  - right. exists b'. split; [apply elem_of_cons; by right | done].
Qed.

Lemma insertOnDemand_present st missed :
  ∀ cache b, b ∈ missed → is_Some (insertOnDemand st cache missed !! eb_hash b).
Proof.
  assert (∀ missed cache h, is_Some (cache !! h) →
            is_Some (insertOnDemand st cache missed !! h)) as Hkeep.
  { clear. induction missed as [|b missed IH]; intros cache h Hh; simpl; [done |].
    apply IH. destruct (decide (h = eb_hash b)) as [->|Hne].
    - rewrite lookup_insert_eq. eauto.
    - by rewrite lookup_insert_ne. }
  induction missed as [|b0 missed IH]; intros cache b; [by intros ?%elem_of_nil |].
  intros [->|Hin]%elem_of_cons; simpl.
  - apply Hkeep. rewrite lookup_insert_eq. eauto.
  - by apply IH.
Qed.

End Handler.

Section HandlerTheorems.
Context `{Platform}.

Lemma applyFifoEviction_cache st : messageCache (applyFifoEviction st) = messageCache st.
Proof. unfold applyFifoEviction. by destruct (evictLoop _ _ _ _ _) as [[? ?] ?]. Qed.

Lemma applyFifoEviction_setup st : sameSetup (applyFifoEviction st) st.
Proof. unfold applyFifoEviction. by destruct (evictLoop _ _ _ _ _) as [[? ?] ?]. Qed.

Lemma swapAndAssemble_compact st ev toSwap firstKept st' c :
  swapAndAssemble st ev toSwap firstKept = (st', Compact c) →
  ∃ removed,
    firstKeptEntryId c = firstKept
    ∧ summary c = compressedContent (compactionHistory st')
    ∧ compactionHistory (preservePrevious st ev)
        ++ [newHistoryEntry st (messageCache st) toSwap (now ev)]
      = removed ++ compactionHistory st'
    ∧ messageCache st' = insertOnDemand st (messageCache st) (missedBlocks (messageCache st) toSwap)
    ∧ cacheFile st' = Some (messageCache st')
    ∧ sameSetup st' st.
Proof.
  unfold swapAndAssemble.
  destruct (abortedBeforeSwap (signal ev)); [done |].
  rewrite preservePrevious_cache.
  set (stP := preservePrevious st ev).
  set (stA := setRawArchive stP _).
  assert (sameSetup stA st) as HA by (apply (preservePrevious_setup st ev)).
  destruct (compressMissed _ _ _ _ _ _ _) as [cache| |] eqn:Hbatches; [|done|done].
  apply compressMissed_done in Hbatches.
  destruct (abortedBeforeAssembly (signal ev)); [done |].
  set (st2 := setHistory _ _).
  intros [= <- <-]. simpl.
  destruct (applyFifoEviction_prefix st2) as (removed & Hsplit).
  exists removed. split; [done |]. split; [done |]. split; [|split; [|split]].
  - rewrite <- Hsplit. subst st2. simpl. by rewrite (newHistoryEntry_ext stA st).
  - rewrite applyFifoEviction_cache. subst st2. simpl. rewrite Hbatches.
    by apply insertOnDemand_ext.
  - done.
  - eapply sameSetup_trans; [apply (applyFifoEviction_setup st2) | exact HA].
Qed.

Lemma handle_compact_inv st ev st' c :
  handleBeforeCompact st ev = (st', Compact c) →
  ∃ hist0 removed,
    enabled (config st) = true ∧ capabilityUnavailable st = false
    ∧ (0 < overflowOf st ev)%Z
    ∧ 0 < swapCount (messageCache st) (overflowOf st ev) (eligibleBlocks st ev)
        < length (eligibleBlocks st ev)
    ∧ firstKeptEntryId c
      = firstKeptOf ev (drop (swapCount (messageCache st) (overflowOf st ev) (eligibleBlocks st ev))
                          (eligibleBlocks st ev))
    ∧ summary c = compressedContent (compactionHistory st')
    ∧ hist0 ++ [newHistoryEntry st (messageCache st)
                  (take (swapCount (messageCache st) (overflowOf st ev) (eligibleBlocks st ev))
                     (eligibleBlocks st ev)) (now ev)]
      = removed ++ compactionHistory st'
    ∧ messageCache st'
      = insertOnDemand st (messageCache st)
          (missedBlocks (messageCache st)
             (take (swapCount (messageCache st) (overflowOf st ev) (eligibleBlocks st ev))
                (eligibleBlocks st ev)))
    ∧ cacheFile st' = Some (messageCache st')
    ∧ sameSetup st' st.
Proof.
  rewrite handleBeforeCompact_eq. unfold planAndSwap.
  destruct (enabled (config st)) eqn:Hon; [|done]. simpl.
  destruct (nonempty (branchEntries ev)); [|done]. simpl.
  destruct (capabilityUnavailable st) eqn:Hcap; [done |].
  destruct (groupEntriesIntoBlocks _ _ _) as [|allBlocks] eqn:Hseg; [done |].
  pose proof (trackSession_setup st ev) as Hsetup.
  pose proof (trackSession_cache st ev) as Hcache.
  set (stS := trackSession st ev) in *.
  destruct Hsetup as (Hcfg & Hprov & Hkey).
  rewrite (eligibleBlocks_ext stS st ev Hcfg), (overflowOf_ext stS st ev Hcfg), Hcache.
  set (blocks := eligibleBlocks st ev).
  destruct (nonempty blocks) eqn:Hne; [|done]. simpl.
  destruct (_ && _); [done |].
  destruct (overflowOf st ev <=? 0)%Z eqn:Hover; [done |].
  apply Z.leb_gt in Hover.
  set (k := swapCount (messageCache st) (overflowOf st ev) blocks).
  destruct (k =? 0) eqn:Hk; [done |]. apply Nat.eqb_neq in Hk.
  destruct (negb (Str.nonEmpty _)); [done |].
  intros Hswap. apply swapAndAssemble_compact in Hswap
    as (removed & Hfirst & Hsummary & Hhist & Hc' & Hfile & Hs').
  simpl in Hc'. rewrite Hcache in Hc'. simpl in Hhist. rewrite Hcache in Hhist.
  assert (sameSetup (setDeferred stS 0) st) as HsD by done.
  exists (compactionHistory (preservePrevious (setDeferred stS 0) ev)), removed.
  split; [done |]. split; [done |]. split; [done |].
  split; [split; [lia | apply swapCount_lt; by destruct blocks] |].
  split; [done |]. split; [done |].
  split; [rewrite <- Hhist; by rewrite (newHistoryEntry_ext (setDeferred stS 0) st) |].
  split; [rewrite Hc'; by apply insertOnDemand_ext |].
  split; [done |]. exact (sameSetup_trans _ _ _ Hs' HsD).
Qed.

End HandlerTheorems.

Section ClaimTheorems.
Context `{Platform}.

(** *** The last block *)

Lemma allBlocksOf_returned st ev :
  allBlocksOf st ev ≠ [] →
  groupEntriesIntoBlocks (config st) (branchEntries ev) (startIndexOf (branchEntries ev))
  = Returned (allBlocksOf st ev).
Proof. unfold allBlocksOf. by destruct (groupEntriesIntoBlocks _ _ _). Qed.

Lemma segmentBlocks_disjoint segs s1 s2 e before after :
  NoDup (flat_map segmentEntries segs) →
  segs = before ++ s2 :: after → s1 ∈ before →
  e ∈ segmentEntries s1 → e ∈ segmentEntries s2 → False.
Proof.
  intros Hnodup -> Hs1 He1 He2.
  rewrite flat_map_app in Hnodup. simpl in Hnodup.
  apply NoDup_app in Hnodup as (_ & Hdisj & _).
  apply (Hdisj e).
  - apply list_elem_of_In, in_flat_map. exists s1. split; by apply list_elem_of_In.
  - apply elem_of_app. by left.
Qed.

(** The last block ends with the last entry of the span.  An earlier
    block holds that entry only as a fragment of it: the entry was hard-split
    and the last block is its last fragment. *)
Lemma last_block_holds_last_entry cfg branchEntries startIndex blocks :
  groupEntriesIntoBlocks cfg branchEntries startIndex = Returned blocks →
  blocks ≠ [] →
  ∃ older lastBlock lastEntry,
    blocks = older ++ [lastBlock]
    ∧ last (spanEntries branchEntries startIndex) = Some lastEntry
    ∧ last (eb_entries lastBlock) = Some lastEntry
    ∧ ∀ b, b ∈ older → lastEntry ∈ eb_entries b →
        (∃ chunk, b = chunkEntryBlock lastEntry chunk)
        ∧ ∃ chunk, lastBlock = chunkEntryBlock lastEntry chunk.
Proof.
  intros Hrun.
  destruct (segmentation cfg branchEntries startIndex blocks Hrun) as (segs & -> & Hspan & Hok).
  pose proof (keptEntries_NoDup (drop startIndex branchEntries) startIndex) as Hnodup.
  fold (spanEntries branchEntries startIndex) in Hnodup. rewrite <- Hspan in *. clear Hspan.
  apply segsOK_Forall in Hok. intros Hne.
  destruct segs as [|s0 segs0] using rev_ind; [done |]. clear IHsegs0.
  apply Forall_app in Hok as [_ Hs]. inversion Hs as [|? ? [Hes Hwf] _]; subst.
  assert (∀ b e, b ∈ flat_map segmentBlocks segs0 → e ∈ eb_entries b →
            e ∈ segmentEntries s0 → False) as Hearlier.
  { intros b e (s & Hs0 & Hb)%list_elem_of_In%in_flat_map Hin Hlast.
    apply list_elem_of_In in Hs0, Hb. rewrite (segmentBlocks_entries _ _ Hb) in Hin.
    by apply (segmentBlocks_disjoint (segs0 ++ [s0]) s s0 e segs0 [] Hnodup). }
  rewrite !flat_map_app. simpl. rewrite !app_nil_r.
  destruct s0 as [es|e chunks]; simpl in *.
  - destruct es as [|e0 es0] using rev_ind; [done |]. clear IHes0.
    exists (flat_map segmentBlocks segs0), (finalizeEntryBlock (es0 ++ [e0])), e0.
    split; [done |]. simpl. rewrite app_assoc, !last_snoc. split; [done |]. split; [done |].
    intros b Hb Hin. exfalso. apply (Hearlier b e0 Hb Hin).
    apply elem_of_app. right. apply elem_of_cons. by left.
  - destruct Hwf as [_ Hchunks].
    destruct chunks as [|chunk chunks0] using rev_ind; [done |]. clear IHchunks0.
    exists (flat_map segmentBlocks segs0 ++ map (chunkEntryBlock e) chunks0),
      (chunkEntryBlock e chunk), e.
    rewrite map_app. simpl. rewrite <- app_assoc. split; [done |].
    rewrite last_snoc. split; [done |]. split; [done |].
    intros b [Hb|Hb]%elem_of_app Hin.
    + exfalso. apply (Hearlier b e Hb Hin). apply elem_of_cons. by left.
    + apply list_elem_of_fmap in Hb as (c & -> & _). eauto.
Qed.

(** *** Where a block starts *)

Lemma keptEntries_lookup entries :
  ∀ i te, te ∈ keptEntries entries i →
    i ≤ te_index te
    ∧ ∃ entry, entries !! (te_index te - i) = Some entry ∧ e_id entry = te_id te.
Proof.
  induction entries as [|entry rest IH]; intros i te; simpl.
  - by intros ?%elem_of_nil.
  - assert (te ∈ keptEntries rest (S i) →
            i ≤ te_index te
            ∧ ∃ entry', (entry :: rest) !! (te_index te - i) = Some entry'
                        ∧ e_id entry' = te_id te) as Hrest.
    { intros (Hle & entry' & Hl & Hid)%IH. split; [lia |]. exists entry'.
      replace (te_index te - i) with (S (te_index te - S i)) by lia. done. }
    destruct (getMessageFromEntry entry) as [|[msg|]]; [done | | done].
    destruct (isSummary msg); [done |].
    intros [->|Hin]%elem_of_cons; [|auto]. simpl. split; [lia |].
    exists entry. by rewrite Nat.sub_diag.
Qed.



(** C3, as amended: a round that returns a payload swaps a non-empty,
    proper prefix of the eligible blocks, so at least one block stays raw
    and the resume marker is the first entry of the first of them; the last
    block of the segmentation, which ends with the last entry of the span,
    is beyond every swapped block.  A swapped block holds the last entry
    only when that entry was hard-split: the swapped block is then an
    earlier fragment of it, and the last block its last fragment.  With a
    single eligible block the round cancels, and when that is for an
    overflow it could not resolve it records a deferred minimum of two
    blocks. *)
Theorem most_recent_block_stays_raw st ev :
  (∀ st' c, handleBeforeCompact st ev = (st', Compact c) →
     0 < swapCount (messageCache st) (overflowOf st ev) (eligibleBlocks st ev)
       < length (eligibleBlocks st ev)
     ∧ (∃ firstRaw moreRaw,
          drop (swapCount (messageCache st) (overflowOf st ev) (eligibleBlocks st ev))
            (eligibleBlocks st ev) = firstRaw :: moreRaw
          ∧ firstKeptEntryId c = eb_firstEntryId firstRaw)
     ∧ ∃ older lastBlock lastEntry,
         groupEntriesIntoBlocks (config st) (branchEntries ev)
           (startIndexOf (branchEntries ev)) = Returned (older ++ [lastBlock])
         ∧ last (spanEntries (branchEntries ev) (startIndexOf (branchEntries ev)))
           = Some lastEntry
         ∧ last (eb_entries lastBlock) = Some lastEntry
         ∧ take (swapCount (messageCache st) (overflowOf st ev) (eligibleBlocks st ev))
             (eligibleBlocks st ev)
           = take (swapCount (messageCache st) (overflowOf st ev) (eligibleBlocks st ev))
               (filter (λ b, eligible (config st) b = true) older)
         ∧ ∀ b, b ∈ take (swapCount (messageCache st) (overflowOf st ev)
                            (eligibleBlocks st ev)) (eligibleBlocks st ev) →
             lastEntry ∈ eb_entries b →
             (∃ chunk, b = chunkEntryBlock lastEntry chunk)
             ∧ ∃ chunk, lastBlock = chunkEntryBlock lastEntry chunk)
  ∧ (enabled (config st) = true → length (eligibleBlocks st ev) = 1 →
       snd (handleBeforeCompact st ev) = Cancel)
  ∧ (enabled (config st) = true → capabilityUnavailable st = false →
     length (eligibleBlocks st ev) = 1 → (0 < overflowOf st ev)%Z →
     deferredCompactionMinBlocks st ≤ 1 →
     handleBeforeCompact st ev = (setDeferred (trackSession st ev) 2, Cancel)).
Proof.
  assert (length (eligibleBlocks st ev) = 1 →
          ∃ allBlocks, groupEntriesIntoBlocks (config st) (branchEntries ev)
                         (startIndexOf (branchEntries ev)) = Returned allBlocks) as Hreturned.
  { intros Hone. exists (allBlocksOf st ev). apply allBlocksOf_returned.
    intros Hnil. unfold eligibleBlocks in Hone. by rewrite Hnil in Hone. }
  split; [|split].
  - intros st' c Hrun.
    apply handle_compact_inv in Hrun
      as (hist0 & removed & _ & _ & _ & Hk & Hfirst & _).
    set (blocks := eligibleBlocks st ev) in *.
    set (k := swapCount (messageCache st) (overflowOf st ev) blocks) in *.
    split; [done |]. split.
    + destruct (drop k blocks) as [|firstRaw moreRaw] eqn:Hdrop.
      * apply (f_equal length) in Hdrop. rewrite length_drop in Hdrop. simpl in Hdrop. lia.
      * eauto.
    + assert (allBlocksOf st ev ≠ []) as Hall.
      { intros Hnil. unfold blocks, eligibleBlocks in Hk. rewrite Hnil in Hk.
        simpl in Hk. lia. }
      pose proof (allBlocksOf_returned st ev Hall) as Hseg.
      destruct (last_block_holds_last_entry _ _ _ _ Hseg Hall)
        as (older & lastBlock & lastEntry & Holder & Hlast & Hentries & Hfragment).
      exists older, lastBlock, lastEntry. rewrite <- Holder.
      split; [done |]. split; [done |]. split; [done |].
      assert (take k blocks = take k (filter (λ b, eligible (config st) b = true) older))
        as Hprefix.
      { unfold blocks, eligibleBlocks in *. rewrite Holder, filter_app in *.
        rewrite length_app in Hk.
        destruct (decide (eligible (config st) lastBlock = true)) as [Hel|Hel].
        * assert (filter (λ b, eligible (config st) b = true) [lastBlock] = [lastBlock]) as Hf
            by (by rewrite filter_cons_True).
          rewrite Hf in *. simpl in Hk. apply take_app_le. lia.
        * assert (filter (λ b, eligible (config st) b = true) [lastBlock] = []) as Hf
            by (by rewrite filter_cons_False).
          rewrite Hf in *. by rewrite app_nil_r. }
      split; [done |].
      intros b Hb. apply Hfragment. rewrite Hprefix in Hb.
      apply elem_of_take in Hb as (i & Hb & _). apply list_elem_of_lookup_2 in Hb.
      by apply list_elem_of_filter in Hb as [_ Hb].
  - intros Hon Hone. destruct (Hreturned Hone) as [allBlocks Hseg].
    rewrite handleBeforeCompact_eq. unfold planAndSwap. rewrite Hon, Hseg. simpl.
    destruct (nonempty (branchEntries ev)); [|done]. simpl.
    destruct (capabilityUnavailable st); [done |].
    destruct (trackSession_setup st ev) as (Hcfg & _).
    rewrite (eligibleBlocks_ext _ st ev Hcfg).
    destruct (nonempty (eligibleBlocks st ev)) eqn:Hne; [|done]. simpl.
    destruct (_ && _); [done |].
    destruct (_ <=? 0)%Z; [done |].
    assert (swapCount (messageCache (trackSession st ev))
              (overflowOf (trackSession st ev) ev) (eligibleBlocks st ev) = 0) as ->; [|done].
    assert (eligibleBlocks st ev ≠ []) as Hne' by (by destruct (eligibleBlocks st ev)).
    pose proof (swapCount_lt (messageCache (trackSession st ev))
                  (overflowOf (trackSession st ev) ev) _ Hne'). lia.
  - intros Hon Hcap Hone Hover Hdef. destruct (Hreturned Hone) as [allBlocks Hseg].
    rewrite handleBeforeCompact_eq. unfold planAndSwap. rewrite Hon, Hcap, Hseg. simpl.
    assert (nonempty (branchEntries ev) = true) as ->.
    { destruct (branchEntries ev) eqn:Hnil; [|done].
      unfold eligibleBlocks, allBlocksOf, groupEntriesIntoBlocks in Hone.
      rewrite Hnil in Hone. by rewrite drop_nil in Hone. }
    simpl.
    destruct (trackSession_setup st ev) as (Hcfg & _).
    rewrite (eligibleBlocks_ext _ st ev Hcfg), (overflowOf_ext _ st ev Hcfg).
    assert (nonempty (eligibleBlocks st ev) = true) as ->
      by (by destruct (eligibleBlocks st ev)).
    simpl.
    assert (deferredCompactionMinBlocks (trackSession st ev)
            = deferredCompactionMinBlocks st) as ->.
    { unfold trackSession. by case_bool_decide. }
    rewrite Hone.
    assert ((0 <? deferredCompactionMinBlocks st) && (1 <? deferredCompactionMinBlocks st)
            = false) as ->.
    { destruct (deferredCompactionMinBlocks st) as [|[|d]]; [done | done | lia]. }
    assert ((overflowOf st ev <=? 0)%Z = false) as -> by (apply Z.leb_gt; lia).
    assert (swapCount (messageCache (trackSession st ev)) (overflowOf st ev)
              (eligibleBlocks st ev) = 0) as ->; [|done].
    assert (eligibleBlocks st ev ≠ []) as Hne' by (by destruct (eligibleBlocks st ev)).
    pose proof (swapCount_lt (messageCache (trackSession st ev)) (overflowOf st ev) _ Hne').
    lia.
Qed.


End ClaimTheorems.

Section CacheTheorems.
Context `{Platform}.

(** *** What a round may add to the cache *)

Lemma compressMissed_lookup fuel st sig batchSize :
  ∀ k missed cache,
    match compressMissed fuel st sig batchSize k missed cache with
    | BatchesDone cache' | BatchesAborted cache' =>
        ∀ h entry, cache' !! h = Some entry →
          cache !! h = Some entry
          ∨ ∃ b, b ∈ missed ∧ h = eb_hash b ∧ entry = onDemandEntry st b
    | BatchesStuck => True
    end.
Proof.
  induction fuel as [|fuel IH]; intros k missed cache; simpl.
  - destruct missed; [auto | done].
  - destruct missed as [|b0 missed0]; [auto |].
    destruct (abortedAtBatch sig k); [auto |].
    destruct (batchSize =? 0); [done |].
    set (missed := b0 :: missed0).
    specialize (IH (S k) (drop batchSize missed)
                  (fold_left (λ c b, <[eb_hash b:=onDemandEntry st b]> c)
                     (take batchSize missed) cache)).
    destruct (compressMissed _ _ _ _ _ _ _) as [cache'|cache'|]; [| |done].
    all: intros h entry Hl; apply IH in Hl as [Hl|(b & Hb & -> & ->)].
    all: try (right; exists b; split; [|done];
              rewrite <- (take_drop batchSize missed); apply elem_of_app; by right).
    all: apply (insertOnDemand_lookup st) in Hl as [Hl|(b & Hb & -> & ->)]; [by left |].
    all: right; exists b; split; [|done];
         rewrite <- (take_drop batchSize missed); apply elem_of_app; by left.
Qed.

Lemma swapAndAssemble_cache st ev toSwap firstKept h entry :
  messageCache (fst (swapAndAssemble st ev toSwap firstKept)) !! h = Some entry →
  messageCache st !! h = Some entry
  ∨ ∃ b, b ∈ toSwap ∧ h = eb_hash b ∧ entry = onDemandEntry st b.
Proof.
  unfold swapAndAssemble.
  destruct (abortedBeforeSwap (signal ev)).
  { simpl. rewrite preservePrevious_cache. auto. }
  rewrite preservePrevious_cache.
  set (stP := preservePrevious st ev).
  set (stA := setRawArchive stP _).
  assert (sameSetup stA st) as HA by (apply (preservePrevious_setup st ev)).
  set (missed := filter _ toSwap).
  pose proof (compressMissed_lookup (length missed) stA (signal ev)
                (maxParallelCompressions (config stA)) 0 missed (messageCache st)) as Hl.
  assert (∀ cache' : gmap string CacheEntry,
    (∀ h entry, cache' !! h = Some entry →
       messageCache st !! h = Some entry
       ∨ ∃ b, b ∈ missed ∧ h = eb_hash b ∧ entry = onDemandEntry stA b) →
    cache' !! h = Some entry →
    messageCache st !! h = Some entry
    ∨ ∃ b, b ∈ toSwap ∧ h = eb_hash b ∧ entry = onDemandEntry st b) as Hconv.
  { intros cache' Hc Hin. apply Hc in Hin as [Hin|(b & Hb & -> & ->)]; [by left |].
    right. exists b. split; [|split; [done |]].
    - by apply list_elem_of_filter in Hb as [_ Hb].
    - by apply onDemandEntry_ext. }
  destruct (compressMissed _ _ _ _ _ _ _) as [cache'|cache'|].
  - destruct (abortedBeforeAssembly (signal ev)); simpl.
    + by apply Hconv.
    + rewrite applyFifoEviction_cache. simpl. by apply Hconv.
  - simpl. by apply Hconv.
  - simpl. unfold stP. rewrite preservePrevious_cache. auto.
Qed.

Lemma handle_cache st ev h entry :
  messageCache (fst (handleBeforeCompact st ev)) !! h = Some entry →
  messageCache st !! h = Some entry
  ∨ ∃ b, b ∈ eligibleBlocks st ev ∧ h = eb_hash b ∧ entry = onDemandEntry st b.
Proof.
  rewrite handleBeforeCompact_eq. unfold planAndSwap.
  destruct (negb (enabled (config st))); [auto |].
  destruct (negb (nonempty (branchEntries ev))); [auto |].
  destruct (capabilityUnavailable st); [auto |].
  pose proof (trackSession_setup st ev) as Hsetup.
  pose proof (trackSession_cache st ev) as Hcache.
  set (stS := trackSession st ev) in *.
  destruct (groupEntriesIntoBlocks _ _ _) as [|allBlocks]; [simpl; rewrite Hcache; auto |].
  destruct (negb (nonempty _)); [simpl; rewrite Hcache; auto |].
  destruct (_ && _); [simpl; rewrite Hcache; auto |].
  destruct (_ <=? 0)%Z; [simpl; rewrite Hcache; auto |].
  destruct (_ =? 0); [simpl; rewrite Hcache; auto |].
  destruct (negb (Str.nonEmpty _)); [simpl; rewrite Hcache; auto |].
  intros Hl. apply swapAndAssemble_cache in Hl as [Hl|(b & Hb & -> & ->)].
  - simpl in Hl. rewrite Hcache in Hl. auto.
  - right. exists b. split; [|split; [done |]].
    + apply elem_of_take in Hb as (i & Hb & _).
      apply list_elem_of_lookup_2 in Hb.
      by rewrite <- (eligibleBlocks_ext stS st ev) by apply Hsetup.
    + apply onDemandEntry_ext. eapply sameSetup_trans; [|exact Hsetup]. done.
Qed.

(** C8: an entry that [compressSingleBlock] returns, and an entry the
    compaction round computes on demand, never has more compressed than
    raw tokens, and holds the block's own text when the text is shorter
    than the minimum or when the provider's answer takes at least 95% of
    the raw tokens.  Every entry that [queueBlock] or a compaction round
    adds to the cache is such an entry: the raw entry of a short block, or
    the on-demand entry of a block of the round. *)
Theorem cache_never_stores_larger st :
  (∀ rawText entry, compressSingleBlock st rawText = Some entry →
     ce_tokensCompressed entry ≤ ce_tokensRaw entry
     ∧ (String.length rawText < minCompressChars (config st) → ce_compressed entry = rawText)
     ∧ (∀ provider texts,
          completeSimple st = Some provider → provider rawText = RespContent texts →
          95 * estimateTokens rawText ≤ 100 * estimateTokens (Str.join Str.nl texts) →
          ce_compressed entry = rawText))
  ∧ (∀ b,
       ce_tokensCompressed (onDemandEntry st b) ≤ ce_tokensRaw (onDemandEntry st b)
       ∧ (String.length (eb_text b) < minCompressChars (config st) →
          ce_compressed (onDemandEntry st b) = eb_text b)
       ∧ (∀ provider texts,
            completeSimple st = Some provider → provider (eb_text b) = RespContent texts →
            95 * estimateTokens (eb_text b) ≤ 100 * estimateTokens (Str.join Str.nl texts) →
            ce_compressed (onDemandEntry st b) = eb_text b))
  ∧ (∀ block h entry,
       messageCache (queueBlock st block) !! h = Some entry →
       messageCache st !! h = Some entry
       ∨ (h = mb_hash block
          ∧ String.length (mb_text block) < minCompressChars (config st)
          ∧ ce_compressed entry = mb_text block
          ∧ ce_tokensCompressed entry ≤ ce_tokensRaw entry))
  ∧ (∀ ev h entry,
       messageCache (fst (handleBeforeCompact st ev)) !! h = Some entry →
       messageCache st !! h = Some entry
       ∨ ∃ b, b ∈ eligibleBlocks st ev ∧ h = eb_hash b ∧ entry = onDemandEntry st b).
Proof.
  split; [|split; [|split]].
  - apply compressSingleBlock_raw_or_smaller.
  - apply onDemandEntry_raw_or_smaller.
  - intros block h entry [Hold|(-> & -> & Hshort)]%queueBlock_cache; [by left |].
    right. simpl. auto.
  - apply handle_cache.
Qed.

(** *** The provider does not decide whether a round completes *)





End CacheTheorems.

(** * Further properties of the code *)

(** * Hard splitting, fragment by fragment *)

Lemma lastIndexOfFrom_get c s fromIndex :
  ∀ i found p,
    Str.lastIndexOfFrom c s fromIndex i found = Some p →
    found = Some p ∨ (i ≤ p ∧ String.get (p - i) s = Some c).
Proof.
  induction s as [|a s IH]; intros i found p; simpl; [auto |].
  destruct (fromIndex <? i); [auto |].
  intros [Hf|[Hle Hget]]%IH.
  - destruct (Ascii.eqb a c) eqn:Hac; [|auto].
    apply Ascii.eqb_eq in Hac as ->. injection Hf as <-.
    right. split; [lia |]. by rewrite Nat.sub_diag.
  - right. split; [lia |].
    replace (p - i) with (S (p - S i)) by lia. done.
Qed.

Lemma lastIndexOf_get c s fromIndex p :
  Str.lastIndexOf c s fromIndex = Some p → String.get p s = Some c.
Proof.
  intros [Hf|[_ Hget]]%lastIndexOfFrom_get; [done |].
  by rewrite Nat.sub_0_r in Hget.
Qed.

Lemma take_succ_get (p : nat) (s : string) (c : ascii) :
  String.get p s = Some c → Str.take (S p) s = Str.take p s +:+ String c "".
Proof.
  revert s. induction p as [|p IH]; intros [|a s]; simpl; try done.
  - by intros [= ->].
  - intros Hget. rewrite append_cons. f_equal. by apply IH.
Qed.

Lemma splitPoint_cases s maxChars :
  splitPoint s maxChars = maxChars
  ∨ (splitPoint s maxChars ≤ maxChars + 1
     ∧ endsWithNewline (Str.take (splitPoint s maxChars) s)).
Proof.
  unfold splitPoint.
  destruct (Str.lastIndexOf "010"%char s maxChars) as [p|] eqn:Hp; [|auto].
  destruct (pastSeventyPercent p maxChars); [|auto].
  right. split; [apply lastIndexOf_bound in Hp; lia |].
  exists (Str.take p s). rewrite Nat.add_1_r.
  by apply take_succ_get, lastIndexOf_get with maxChars.
Qed.

Lemma hardSplitLoop_fuel maxChars :
  0 < maxChars →
  ∀ fuel1 fuel2 s,
    String.length s ≤ fuel1 + maxChars → String.length s ≤ fuel2 + maxChars →
    hardSplitLoop fuel1 s maxChars = hardSplitLoop fuel2 s maxChars.
Proof.
  intros Hm. induction fuel1 as [|fuel1 IH]; intros fuel2 s H1 H2.
  - destruct fuel2; cbn [hardSplitLoop]; [done |].
    assert ((maxChars <? String.length s) = false) as -> by (apply Nat.ltb_ge; lia). done.
  - destruct fuel2; cbn [hardSplitLoop].
    + assert ((maxChars <? String.length s) = false) as -> by (apply Nat.ltb_ge; lia). done.
    + destruct (maxChars <? String.length s) eqn:Hlt; [|done].
      pose proof (splitPoint_bounds s maxChars Hm).
      f_equal. apply IH; rewrite length_drop_string; lia.
Qed.

Lemma hardSplitLoop_fragments maxChars :
  0 < maxChars →
  ∀ fuel s,
    String.length s ≤ fuel + maxChars →
    Forall (fragmentOK maxChars) (hardSplitLoop fuel s maxChars)
    ∧ ∀ chunks lastChunk,
        hardSplitLoop fuel s maxChars = chunks ++ [lastChunk] →
        Forall (λ chunk, String.length chunk = maxChars ∨ endsWithNewline chunk) chunks.
Proof.
  intros Hm.
  assert (∀ s, String.length s ≤ maxChars →
            Forall (fragmentOK maxChars) (if 0 <? String.length s then [s] else [])
            ∧ ∀ chunks lastChunk,
                (if 0 <? String.length s then [s] else []) = chunks ++ [lastChunk] →
                Forall (λ chunk, String.length chunk = maxChars ∨ endsWithNewline chunk) chunks)
    as Hexit.
  { intros s Hs. destruct (0 <? String.length s) eqn:Hpos.
    - apply Nat.ltb_lt in Hpos. split.
      + constructor; [split; [done | by left] | constructor].
      + intros [|c chunks] lastChunk Heq; [constructor |].
        injection Heq as _ Heq. by destruct chunks.
    - split; [constructor |]. intros chunks lastChunk Heq. by destruct chunks. }
  induction fuel as [|fuel IH]; intros s Hlen; cbn [hardSplitLoop].
  - apply Hexit. lia.
  - destruct (maxChars <? String.length s) eqn:Hlt.
    2:{ apply Nat.ltb_ge in Hlt. by apply Hexit. }
    apply Nat.ltb_lt in Hlt.
    pose proof (splitPoint_bounds s maxChars Hm) as Hsplit.
    pose proof (splitPoint_cases s maxChars) as Hcases.
    set (splitAt := splitPoint s maxChars) in *.
    assert (String.length (Str.take splitAt s) = splitAt) as Htake.
    { rewrite length_take_string. lia. }
    destruct (IH (Str.drop splitAt s)) as [Hall Hinit].
    { rewrite length_drop_string. lia. }
    split.
    + constructor; [|done]. split; [lia |]. rewrite Htake.
      destruct Hcases as [->|[Hle Hnl]]; [by left |].
      destruct (decide (splitAt ≤ maxChars)); [by left |]. right. split; [lia | done].
    + intros chunks lastChunk Heq. destruct chunks as [|c chunks].
      * constructor.
      * injection Heq as <- Heq. constructor; [|by eapply Hinit].
        rewrite Htake. destruct Hcases as [->|[_ Hnl]]; auto.
Qed.

(** X1: what [hardSplitText] returns for a positive [maxChars].  The loop
    ends by its own test (more fuel changes nothing); a text that fits is
    returned whole, the empty text gives no fragment; no fragment is
    empty; a fragment is at most [maxChars] long, or one character longer
    when it ends with the newline found at position [maxChars]; every
    fragment but the last is exactly [maxChars] long or ends with a
    newline. *)
Theorem hardSplitText_fragments text maxChars :
  0 < maxChars →
  (∀ fuel, String.length text ≤ fuel →
     hardSplitLoop fuel text maxChars = hardSplitText text maxChars)
  ∧ (String.length text ≤ maxChars →
     hardSplitText text maxChars = if Str.nonEmpty text then [text] else [])
  ∧ Forall (λ chunk,
      0 < String.length chunk
      ∧ (String.length chunk ≤ maxChars
         ∨ (String.length chunk = maxChars + 1 ∧ ∃ pre, chunk = pre +:+ Str.nl)))
      (hardSplitText text maxChars)
  ∧ ∀ chunks lastChunk,
      hardSplitText text maxChars = chunks ++ [lastChunk] →
      Forall (λ chunk, String.length chunk = maxChars ∨ ∃ pre, chunk = pre +:+ Str.nl) chunks.
Proof.
  intros Hm. split; [|split; [|split]].
  - intros fuel Hfuel. apply hardSplitLoop_fuel; [done | lia | lia].
  - intros Hfits. unfold hardSplitText.
    destruct text as [|c text]; [done |]. cbn [hardSplitLoop String.length].
    assert ((maxChars <? String.length (String c text)) = false) as Hlt
      by (apply Nat.ltb_ge; done).
    simpl in Hlt. rewrite Hlt. done.
  - apply (hardSplitLoop_fragments maxChars Hm (String.length text) text). lia.
  - apply (hardSplitLoop_fragments maxChars Hm (String.length text) text). lia.
Qed.

Section PathsAgree.
Context `{Platform}.

Lemma finalize_key (es : list TurnEntry) :
  entryBlockKey (finalizeEntryBlock es) = msgBlockKey (finalizeBlock (map te_message es)).
Proof.
  unfold entryBlockKey, msgBlockKey, finalizeEntryBlock, finalizeBlock. simpl.
  by rewrite map_map.
Qed.

Lemma flush_key (be : list TurnEntry) :
  map entryBlockKey (flushEntries be) = map msgBlockKey (flushMessages (map te_message be)).
Proof.
  unfold flushEntries, flushMessages. destruct be; simpl; [done |].
  f_equal. apply (finalize_key (t :: be)).
Qed.

Lemma chunk_key entry msg chunks :
  map entryBlockKey (map (chunkEntryBlock entry) chunks)
  = map msgBlockKey (map (chunkBlock msg) chunks).
Proof. rewrite !map_map. by apply map_ext. Qed.

Lemma splitTurn_key maxTokens maxChars fuel :
  ∀ es be bt,
    length es ≤ fuel →
    Forall (λ e, hasToolUse (te_message e) = false) es →
    map entryBlockKey (splitTurnEntries fuel maxTokens maxChars es be bt)
    = map msgBlockKey
        (splitTurnMessages maxTokens maxChars (map te_message es) (map te_message be) bt).
Proof.
  induction fuel as [|fuel IH]; intros es be bt Hlen Hno.
  - destruct es; [|simpl in Hlen; lia]. simpl. apply flush_key.
  - destruct es as [|entry rest]; [apply flush_key |].
    inversion Hno as [|? ? Hentry Hrest]; subst.
    cbn [splitTurnEntries splitTurnMessages map]. rewrite Hentry.
    cbn [length list_sum map]. rewrite Nat.add_0_r.
    change (extractMessageText (te_message entry)) with (entryText entry).
    simpl in Hlen.
    destruct (maxTokens <? estimateTokens (entryText entry)); simpl.
    + rewrite !map_app, flush_key, (chunk_key entry (te_message entry)).
      rewrite IH by (done || lia). done.
    + destruct ((maxTokens <? bt + estimateTokens (entryText entry)) && nonempty be) eqn:Hfull.
      * assert (nonempty (map te_message be) = nonempty be) as Hne by (by destruct be).
        rewrite Hne, Hfull. simpl. rewrite finalize_key.
        rewrite IH by (done || lia). done.
      * assert (nonempty (map te_message be) = nonempty be) as Hne by (by destruct be).
        rewrite Hne, Hfull. rewrite IH by (done || lia).
        by rewrite map_app.
Qed.

Lemma turnBlocks_key maxTokens turn :
  Forall (λ e, hasToolUse (te_message e) = false) turn →
  map entryBlockKey (entryTurnBlocks maxTokens turn)
  = map msgBlockKey (messageTurnBlocks maxTokens (map te_message turn)).
Proof.
  intros Hno. unfold entryTurnBlocks, messageTurnBlocks.
  rewrite map_map.
  change (map (λ x, extractMessageText (te_message x)) turn) with (map entryText turn).
  destruct (_ <=? maxTokens).
  - simpl. f_equal. apply finalize_key.
  - apply (splitTurn_key maxTokens (maxTokens * 4) (length turn) turn [] 0); [lia | done].
Qed.

Lemma logMessages_cons entry rest :
  logMessages (entry :: rest)
  = match messageOf entry with
    | Some msg => msg :: logMessages rest
    | None => logMessages rest
    end.
Proof. reflexivity. Qed.

Lemma entryTurns_messages entries :
  ∀ i current turns,
    Forall (λ e, hasToolUse (te_message e) = false) current →
    Forall (λ msg, hasToolUse msg = false) (logMessages entries) →
    entryTurns entries i current = Returned turns →
    map (map te_message) turns = messageTurns (logMessages entries) (map te_message current)
    ∧ Forall (Forall (λ e, hasToolUse (te_message e) = false)) turns.
Proof.
  induction entries as [|entry rest IH]; intros i current turns Hcur Hno.
  - simpl. intros [= <-].
    destruct current; simpl; [done |]. split; [done |]. constructor; [done | constructor].
  - rewrite logMessages_cons in *. unfold messageOf in *. cbn [entryTurns].
    destruct (getMessageFromEntry entry) as [|[msg|]] eqn:Hmsg; [done | | by apply IH].
    inversion Hno as [|? ? Hm Hrest]; subst. cbn [messageTurns].
    destruct (isSummary msg); [by apply IH |].
    assert (nonempty (map te_message current) = nonempty current) as -> by (by destruct current).
    assert (Forall (λ e, hasToolUse (te_message e) = false)
              (current ++ [mkTurnEntry i entry msg])) as Hgrow.
    { apply Forall_app. split; [done |]. by repeat constructor. }
    assert (lastHasToolUse current = false) as Hlast.
    { unfold lastHasToolUse. destruct (last current) as [prev|] eqn:Hl; [|done].
      apply last_Some in Hl as [l' ->]. apply Forall_app in Hcur as [_ Hp].
      by inversion Hp. }
    destruct (roleIs msg "user" && nonempty current).
    + rewrite Hlast, andb_false_r.
      destruct (entryTurns rest (S i) _) as [|following] eqn:Hrun; [done |].
      intros [= <-].
      destruct (IH (S i) [mkTurnEntry i entry msg] following) as [Heq Hall];
        [by repeat constructor | done | done |].
      simpl. rewrite Heq. split; [done |]. by constructor.
    + intros Hrun.
      destruct (IH (S i) (current ++ [mkTurnEntry i entry msg]) turns Hgrow Hrest Hrun)
        as [Heq Hall].
      rewrite Heq, map_app. done.
Qed.

(** X2: on a span that can be read (no custom entry without data) and in
    which no message carries a tool invocation, the compaction path
    returns, and it cuts the log into the blocks the turn-completion path
    cuts its messages into: the same texts, hashes and token counts, in
    the same order. *)
Theorem paths_agree_without_tool_calls cfg branchEntries startIndex :
  Forall (λ entry, ¬ dataless entry) (drop startIndex branchEntries) →
  Forall (λ msg, hasToolUse msg = false) (logMessages (drop startIndex branchEntries)) →
  ∃ blocks,
    groupEntriesIntoBlocks cfg branchEntries startIndex = Returned blocks
    ∧ map entryBlockKey blocks
      = map msgBlockKey
          (groupMessagesIntoBlocks cfg (logMessages (drop startIndex branchEntries))).
Proof.
  intros Hread Hno.
  apply (entryTurns_returns _ startIndex []) in Hread as [turns Hrun].
  unfold groupEntriesIntoBlocks, groupMessagesIntoBlocks. rewrite Hrun.
  eexists. split; [done |].
  destruct (entryTurns_messages _ startIndex [] turns (Forall_nil_2 _) Hno Hrun)
    as [Hturns Hall].
  simpl in Hturns. rewrite <- Hturns. clear Hturns Hrun.
  induction Hall as [|turn turns Hturn _ IH]; [done |].
  simpl. rewrite !map_app, IH, turnBlocks_key by done. done.
Qed.

End PathsAgree.

(** * The block budget *)

Lemma estimateTokens_bounds text :
  String.length text ≤ 4 * estimateTokens text < String.length text + 4.
Proof.
  unfold estimateTokens.
  pose proof (Nat.div_mod_eq (String.length text + 3) 4).
  pose proof (Nat.mod_upper_bound (String.length text + 3) 4). lia.
Qed.

Lemma list_sum_cons (a : nat) (l : list nat) : list_sum (a :: l) = a + list_sum l.
Proof. reflexivity. Qed.

Lemma length_join_msgSep (texts : list string) :
  texts ≠ [] →
  String.length (Str.join msgSep texts) + 2
  = list_sum (map (λ t, String.length t + 2) texts).
Proof.
  induction texts as [|x texts IH]; [done |]. intros _.
  destruct texts as [|y texts].
  - simpl. lia.
  - rewrite join_cons by done. rewrite !length_append.
    change (String.length msgSep) with 2.
    specialize (IH ltac:(done)). cbn [map] in *.
    rewrite !list_sum_cons in *. lia.
Qed.

(** Joining [k] texts adds two characters between neighbours, at most
    half a token for each text. *)
Lemma joined_tokens (texts : list string) :
  2 * estimateTokens (Str.join msgSep texts)
  ≤ 2 * list_sum (map estimateTokens texts) + length texts.
Proof.
  destruct (decide (texts = [])) as [->|Hne]; [by compute |].
  pose proof (length_join_msgSep texts Hne) as Hlen.
  pose proof (estimateTokens_bounds (Str.join msgSep texts)) as Hjoin.
  assert (list_sum (map (λ t, String.length t + 2) texts)
          ≤ 4 * list_sum (map estimateTokens texts) + 2 * length texts) as Hsum.
  { clear. induction texts as [|x texts IH]; simpl; [lia |].
    pose proof (estimateTokens_bounds x). lia. }
  lia.
Qed.

Section Budget.
Context `{Platform}.

Lemma finalizeBlock_budget maxTokens msgs :
  messageTokens msgs ≤ maxTokens → withinBudget maxTokens (finalizeBlock msgs).
Proof.
  intros Hsum. unfold withinBudget, finalizeBlock. simpl.
  pose proof (joined_tokens (map extractMessageText msgs)) as Hj.
  rewrite map_map, length_map in Hj. unfold messageTokens in Hsum. lia.
Qed.

Lemma chunk_tokens maxTokens text :
  0 < maxTokens →
  Forall (λ chunk, estimateTokens chunk ≤ maxTokens + 1) (hardSplitText text (maxTokens * 4)).
Proof.
  intros Hpos. eapply Forall_impl; [apply hardSplitText_bounded; lia |].
  intros chunk Hlen. simpl in Hlen.
  pose proof (estimateTokens_bounds chunk). lia.
Qed.

Lemma splitTurnMessages_budget maxTokens turnMsgs :
  0 < maxTokens →
  ∀ blockMsgs blockTokens,
    blockTokens = messageTokens blockMsgs → blockTokens ≤ maxTokens →
    Forall (withinBudget maxTokens)
      (splitTurnMessages maxTokens (maxTokens * 4) turnMsgs blockMsgs blockTokens).
Proof.
  intros Hpos.
  assert (∀ blockMsgs, messageTokens blockMsgs ≤ maxTokens →
            Forall (withinBudget maxTokens) (flushMessages blockMsgs)) as Hflush.
  { intros bm Hbm. unfold flushMessages. destruct (nonempty bm); [|constructor].
    constructor; [by apply finalizeBlock_budget | constructor]. }
  induction turnMsgs as [|msg rest IH]; intros bm bt Hbt Hle; cbn [splitTurnMessages].
  - apply Hflush. by rewrite <- Hbt.
  - destruct (maxTokens <? estimateTokens (extractMessageText msg)) eqn:Hbig.
    + apply Forall_app. split; [apply Hflush; by rewrite <- Hbt |].
      apply Forall_app. split; [|by apply IH; [done | lia]].
      apply Forall_fmap.
      eapply Forall_impl; [apply (chunk_tokens maxTokens _ Hpos) |].
      intros chunk Hc. unfold compose, withinBudget, chunkBlock.
      cbn [mb_tokens mb_messages length] in *. lia.
    + apply Nat.ltb_ge in Hbig.
      destruct ((maxTokens <? bt + _) && nonempty bm) eqn:Hfull.
      * constructor; [apply finalizeBlock_budget; by rewrite <- Hbt |].
        apply IH; [|done]. unfold messageTokens. simpl. lia.
      * apply IH.
        -- unfold messageTokens in *. rewrite map_app, list_sum_app. simpl. lia.
        -- apply andb_false_iff in Hfull as [Hfits|Hempty].
           ++ apply Nat.ltb_ge in Hfits. done.
           ++ destruct bm; [|done]. subst bt. unfold messageTokens. simpl. done.
Qed.

(** X3: on the turn-completion path the block size is a soft limit with
    a bounded excess.  The budget is checked on the sum of the messages'
    own token counts, while a block's count is taken on the joined text,
    separators included, and a hard-split fragment may keep one character
    beyond the limit: a block of [k] messages has at most
    [maxTokens + (k + 1) / 2] tokens. *)
Theorem message_blocks_within_budget cfg messages b :
  b ∈ groupMessagesIntoBlocks cfg messages →
  2 * mb_tokens b ≤ 2 * maxTokensOf cfg + length (mb_messages b) + 1.
Proof.
  assert (0 < maxTokensOf cfg) as Hpos.
  { unfold maxTokensOf. destruct (blockSize cfg =? 0) eqn:Hz; [lia |].
    apply Nat.eqb_neq in Hz. lia. }
  unfold groupMessagesIntoBlocks.
  intros (turn & _ & Hb)%list_elem_of_In%in_flat_map.
  apply list_elem_of_In in Hb. revert b Hb. apply Forall_forall.
  unfold messageTurnBlocks.
  destruct (_ <=? maxTokensOf cfg) eqn:Hsmall.
  - apply Nat.leb_le in Hsmall. constructor; [|constructor].
    change (withinBudget (maxTokensOf cfg) (finalizeBlock turn)).
    unfold withinBudget, finalizeBlock. simpl. lia.
  - apply splitTurnMessages_budget; [done | done | lia].
Qed.

Lemma finalizeEntryBlock_budget maxTokens es :
  entriesTokens es ≤ maxTokens → entryWithinBudget maxTokens (finalizeEntryBlock es).
Proof.
  intros Hsum. left. unfold finalizeEntryBlock. simpl.
  pose proof (joined_tokens (map entryText es)) as Hj.
  rewrite map_map, length_map in Hj. unfold entriesTokens, entryTokens in Hsum. lia.
Qed.

Lemma splitTurnEntries_budget maxTokens fuel :
  0 < maxTokens →
  ∀ es blockEntries blockTokens,
    blockTokens = entriesTokens blockEntries → blockTokens ≤ maxTokens →
    Forall (entryWithinBudget maxTokens)
      (splitTurnEntries fuel maxTokens (maxTokens * 4) es blockEntries blockTokens).
Proof.
  intros Hpos.
  assert (∀ be, entriesTokens be ≤ maxTokens →
            Forall (entryWithinBudget maxTokens) (flushEntries be)) as Hflush.
  { intros be Hbe. unfold flushEntries. destruct (nonempty be); [|constructor].
    constructor; [by apply finalizeEntryBlock_budget | constructor]. }
  induction fuel as [|fuel IH]; intros es be bt Hbt Hle.
  - simpl. apply Hflush. by rewrite <- Hbt.
  - destruct es as [|entry rest]; [simpl; apply Hflush; by rewrite <- Hbt |].
    cbn [splitTurnEntries].
    destruct (if hasToolUse (te_message entry) then takeResults rest else ([], rest))
      as [results rest'] eqn:Hla.
    set (pairedTokens := estimateTokens (entryText entry) + list_sum (map entryTokens results)).
    assert (pairedTokens = entriesTokens (entry :: results)) as Hpaired by done.
    destruct ((maxTokens <? pairedTokens) && (1 <? length (entry :: results))) eqn:Hbig.
    + apply Forall_app. split; [apply Hflush; by rewrite <- Hbt |].
      constructor; [|by apply IH; [done | lia]].
      right. simpl. exists entry, results.
      apply andb_true_iff in Hbig as [_ Hmany]. apply Nat.ltb_lt in Hmany.
      destruct (hasToolUse (te_message entry)) eqn:Huse.
      * apply takeResults_spec in Hla as (_ & Hres & _).
        repeat split; [|done]. destruct results; [simpl in Hmany; lia | done].
      * injection Hla as <- <-. simpl in Hmany. lia.
    + destruct ((maxTokens <? pairedTokens) && (length (entry :: results) =? 1)) eqn:Hsplit.
      * apply Forall_app. split; [apply Hflush; by rewrite <- Hbt |].
        apply Forall_app. split; [|by apply IH; [done | lia]].
        apply Forall_fmap.
        eapply Forall_impl; [apply (chunk_tokens maxTokens _ Hpos) |].
        intros chunk Hc. unfold compose. left. unfold chunkEntryBlock.
        cbn [eb_tokens eb_entries length] in *. lia.
      * assert (pairedTokens ≤ maxTokens) as Hfits.
        { destruct (maxTokens <? pairedTokens) eqn:Hover; [|by apply Nat.ltb_ge in Hover].
          simpl in Hbig, Hsplit. apply Nat.ltb_ge in Hbig. apply Nat.eqb_neq in Hsplit.
          simpl in *. lia. }
        destruct ((maxTokens <? bt + pairedTokens) && nonempty be) eqn:Hfull.
        -- constructor; [apply finalizeEntryBlock_budget; by rewrite <- Hbt |].
           by apply IH.
        -- apply IH.
           ++ unfold entriesTokens in *. rewrite map_app, list_sum_app.
              rewrite Hbt. f_equal.
           ++ apply andb_false_iff in Hfull as [Hsum|Hempty].
              ** by apply Nat.ltb_ge in Hsum.
              ** destruct be; [|done]. subst bt. unfold entriesTokens. simpl. done.
Qed.

(** X4: a block that the compaction path returns is a tool invocation
    kept with its results, whatever their size, or a block of [k] entries
    with at most [maxTokens + (k + 1) / 2] tokens. *)
Theorem entry_blocks_within_budget cfg branchEntries startIndex blocks b :
  groupEntriesIntoBlocks cfg branchEntries startIndex = Returned blocks →
  b ∈ blocks →
  2 * eb_tokens b ≤ 2 * maxTokensOf cfg + length (eb_entries b) + 1
  ∨ ∃ invocation results,
      eb_entries b = invocation :: results ∧ results ≠ []
      ∧ hasToolUse (te_message invocation) = true
      ∧ Forall (λ e, hasToolResult (te_message e) = true) results.
Proof.
  assert (0 < maxTokensOf cfg) as Hpos.
  { unfold maxTokensOf. destruct (blockSize cfg =? 0) eqn:Hz; [lia |].
    apply Nat.eqb_neq in Hz. lia. }
  unfold groupEntriesIntoBlocks.
  destruct (entryTurns _ _ _) as [|turns]; [done |]. intros [= <-].
  intros (turn & _ & Hb)%list_elem_of_In%in_flat_map.
  apply list_elem_of_In in Hb. revert b Hb. apply Forall_forall.
  unfold entryTurnBlocks.
  destruct (_ <=? maxTokensOf cfg) eqn:Hsmall.
  - apply Nat.leb_le in Hsmall. constructor; [|constructor].
    left. unfold finalizeEntryBlock. simpl. lia.
  - apply splitTurnEntries_budget; [done | done | lia].
Qed.

End Budget.

Section BlockShape.
Context `{Platform}.

Lemma keptEntries_message entries :
  ∀ i te, te ∈ keptEntries entries i →
    ∃ entry, entries !! (te_index te - i) = Some entry
             ∧ getMessageFromEntry entry = Returned (Some (te_message te))
             ∧ isSummary (te_message te) = false.
Proof.
  induction entries as [|entry rest IH]; intros i te; simpl.
  - by intros ?%elem_of_nil.
  - assert (te ∈ keptEntries rest (S i) →
            ∃ entry', (entry :: rest) !! (te_index te - i) = Some entry'
                      ∧ getMessageFromEntry entry' = Returned (Some (te_message te))
                      ∧ isSummary (te_message te) = false) as Hrest.
    { intros Hin. pose proof (keptEntries_index _ _ _ Hin) as Hle.
      apply IH in Hin as (entry' & Hl & Hm). exists entry'.
      replace (te_index te - i) with (S (te_index te - S i)) by lia. done. }
    destruct (getMessageFromEntry entry) as [|[msg|]] eqn:Hmsg; [done | | done].
    destruct (isSummary msg) eqn:Hsum; [done |].
    intros [->|Hin]%elem_of_cons; [|auto]. simpl.
    exists entry. by rewrite Nat.sub_diag.
Qed.

(** X5: every block that the compaction path returns holds at least one
    entry and records the id and the index of its first one; its hash and
    its token count are those of its text; and each of its entries is an
    entry of the log at or after the start index, found at the index and
    under the id the block carries for it, whose message is the one read
    off that entry and is not a summary. *)
Theorem entry_blocks_are_well_formed cfg branchEntries startIndex blocks b :
  groupEntriesIntoBlocks cfg branchEntries startIndex = Returned blocks →
  b ∈ blocks →
  (∃ first rest,
     eb_entries b = first :: rest
     ∧ eb_firstEntryId b = te_id first ∧ eb_firstEntryIndex b = te_index first)
  ∧ eb_hash b = hashText (eb_text b)
  ∧ eb_tokens b = estimateTokens (eb_text b)
  ∧ ∀ e, e ∈ eb_entries b →
      startIndex ≤ te_index e
      ∧ ∃ entry, branchEntries !! te_index e = Some entry
                 ∧ e_id entry = te_id e
                 ∧ getMessageFromEntry entry = Returned (Some (te_message e))
                 ∧ isSummary (te_message e) = false.
Proof.
  intros Hrun.
  destruct (segmentation cfg branchEntries startIndex blocks Hrun) as (segs & -> & Hspan & Hok).
  apply segsOK_Forall in Hok.
  intros (s & Hs & Hb)%list_elem_of_In%in_flat_map.
  apply list_elem_of_In in Hs, Hb.
  rewrite Forall_forall in Hok. destruct (Hok s Hs) as [Hne _].
  pose proof (segmentBlocks_entries s b Hb) as Hentries.
  split; [|split; [|split]].
  - destruct s as [es|e chunks]; simpl in *.
    + apply list_elem_of_singleton in Hb as ->. destruct es as [|e es]; [done |]. eauto.
    + apply list_elem_of_fmap in Hb as (chunk & -> & _). eauto.
  - destruct s as [es|e chunks]; simpl in *.
    + by apply list_elem_of_singleton in Hb as ->.
    + by apply list_elem_of_fmap in Hb as (chunk & -> & _).
  - destruct s as [es|e chunks]; simpl in *.
    + by apply list_elem_of_singleton in Hb as ->.
    + by apply list_elem_of_fmap in Hb as (chunk & -> & _).
  - intros e He. rewrite Hentries in He.
    assert (e ∈ spanEntries branchEntries startIndex) as Hin.
    { rewrite <- Hspan. apply list_elem_of_In, in_flat_map.
      exists s. split; by apply list_elem_of_In. }
    unfold spanEntries in Hin.
    pose proof (keptEntries_index _ _ _ Hin) as Hle.
    destruct (keptEntries_lookup _ _ _ Hin) as (_ & entry & Hl & Hid).
    destruct (keptEntries_message _ _ _ Hin) as (entry' & Hl' & Hmsg & Hsum).
    rewrite Hl in Hl'. injection Hl' as <-.
    split; [done |]. exists entry. split; [|done].
    rewrite lookup_drop in Hl.
    by replace (startIndex + (te_index e - startIndex)) with (te_index e) in Hl by lia.
Qed.

(** *** When there is nothing to cut *)

Lemma segmentBlocks_nonempty s : wellFormed s → segmentBlocks s ≠ [].
Proof.
  destruct s as [es|e chunks]; simpl; [done |].
  intros [_ Hne]. by destruct chunks.
Qed.

Lemma splitTurnMessages_nonempty maxTokens maxChars turnMsgs :
  ∀ blockMsgs blockTokens,
    turnMsgs ≠ [] ∨ blockMsgs ≠ [] →
    splitTurnMessages maxTokens maxChars turnMsgs blockMsgs blockTokens ≠ [].
Proof.
  induction turnMsgs as [|msg rest IH]; intros bm bt Hne; cbn [splitTurnMessages].
  - destruct Hne as [|Hbm]; [done |]. unfold flushMessages. by destruct bm.
  - destruct (maxTokens <? estimateTokens (extractMessageText msg)) eqn:Hbig.
    + apply Nat.ltb_lt in Hbig.
      assert (hardSplitText (extractMessageText msg) maxChars ≠ []) as Hchunks.
      { apply hardSplitLoop_nonempty, estimateTokens_pos. lia. }
      destruct (hardSplitText _ _); [done |].
      intros Heq. apply app_eq_nil in Heq as [_ Heq]. done.
    + destruct (_ && _); [done |]. apply IH. right. by destruct bm.
Qed.

Lemma messageTurnBlocks_nonempty maxTokens turn :
  turn ≠ [] → messageTurnBlocks maxTokens turn ≠ [].
Proof.
  intros Hne. unfold messageTurnBlocks. destruct (_ <=? _); [done |].
  apply splitTurnMessages_nonempty. by left.
Qed.

(** X6: when the segmenter has nothing to cut.  The compaction path
    returns unless the span holds a custom entry without data (reading it
    throws), and it throws in that case whatever else the span holds.  The
    blocks it returns are none exactly when the span holds no message to
    keep: an empty log, a start index at or past its end, or nothing but
    summaries and entries without a message.  The turn-completion path
    emits no block exactly when every message is a summary. *)
Theorem no_blocks_iff_nothing_kept cfg :
  (∀ branchEntries startIndex,
     groupEntriesIntoBlocks cfg branchEntries startIndex = Threw
     ↔ Exists dataless (drop startIndex branchEntries))
  ∧ (∀ branchEntries startIndex blocks,
       groupEntriesIntoBlocks cfg branchEntries startIndex = Returned blocks →
       blocks = [] ↔ spanEntries branchEntries startIndex = [])
  ∧ (∀ branchEntries startIndex,
       length branchEntries ≤ startIndex →
       groupEntriesIntoBlocks cfg branchEntries startIndex = Returned [])
  ∧ (∀ messages,
       groupMessagesIntoBlocks cfg messages = [] ↔ keptMessages messages = []).
Proof.
  assert (∀ branchEntries startIndex blocks,
            groupEntriesIntoBlocks cfg branchEntries startIndex = Returned blocks →
            blocks = [] ↔ spanEntries branchEntries startIndex = []) as Hentries.
  { intros branchEntries startIndex blocks Hrun.
    destruct (segmentation cfg branchEntries startIndex blocks Hrun) as (segs & -> & <- & Hok).
    apply segsOK_Forall in Hok.
    destruct segs as [|s segs]; [done |].
    inversion Hok as [|? ? [Hne Hwf] _]; subst. simpl. split.
    - intros [Hb _]%app_eq_nil. by apply segmentBlocks_nonempty in Hb.
    - intros [He _]%app_eq_nil. done. }
  split; [apply groupEntriesIntoBlocks_throws |]. split; [done |]. split.
  - intros branchEntries startIndex Hlen.
    destruct (proj2 (groupEntriesIntoBlocks_returns cfg branchEntries startIndex))
      as [blocks Hrun]; [rewrite drop_ge by done; constructor |].
    rewrite Hrun. f_equal. apply (Hentries _ _ _ Hrun).
    unfold spanEntries. by rewrite drop_ge.
  - intros messages. unfold groupMessagesIntoBlocks.
    destruct (messageTurns_spec messages []) as [Hconcat Hne]. simpl in Hconcat.
    rewrite <- Hconcat.
    destruct (messageTurns messages []) as [|turn turns]; [done |].
    inversion Hne as [|? ? Hturn _]; subst. simpl. split.
    + intros [Hb _]%app_eq_nil. by apply messageTurnBlocks_nonempty in Hb.
    + intros [He _]%app_eq_nil. done.
Qed.

End BlockShape.

Lemma keepsAll_refl {V} (m : gmap string V) : keepsAll m m.
Proof. by intros k v. Qed.

Lemma keepsAll_trans {V} (m1 m2 m3 : gmap string V) :
  keepsAll m1 m2 → keepsAll m2 m3 → keepsAll m1 m3.
Proof. intros H12 H23 k v Hk. auto. Qed.

Lemma append_inj_suffix (a b s : string) : a +:+ s = b +:+ s → a = b.
Proof.
  revert b. induction a as [|c a IH]; intros [|d b]; try done.
  - intros Heq. apply (f_equal String.length) in Heq.
    rewrite !length_append in Heq. simpl in Heq. lia.
  - intros Heq. apply (f_equal String.length) in Heq.
    rewrite !length_append in Heq. simpl in Heq. lia.
  - rewrite !append_cons. intros [= -> Heq]. f_equal. by apply IH.
Qed.

Lemma archiveRawBlock_keeps hash text files : keepsAll files (archiveRawBlock hash text files).
Proof.
  intros name content Hf. unfold archiveRawBlock.
  destruct (files !! (hash +:+ ".md")) eqn:He; [done |].
  rewrite lookup_insert_ne; [done |]. congruence.
Qed.

Lemma archiveRawBlock_content hash text files :
  archiveRawBlock hash text files !! (hash +:+ ".md")
  = Some (default text (files !! (hash +:+ ".md"))).
Proof.
  unfold archiveRawBlock. destruct (files !! (hash +:+ ".md")) eqn:He; simpl.
  - done.
  - apply lookup_insert_eq.
Qed.

Lemma archiveRawBlock_other hash text files name :
  name ≠ hash +:+ ".md" → archiveRawBlock hash text files !! name = files !! name.
Proof.
  intros Hne. unfold archiveRawBlock.
  destruct (files !! (hash +:+ ".md")); [done |]. by rewrite lookup_insert_ne.
Qed.

Lemma archiveSwapped_keeps toSwap : ∀ files, keepsAll files (archiveSwapped toSwap files).
Proof.
  unfold archiveSwapped. induction toSwap as [|b toSwap IH]; intros files; simpl.
  - apply keepsAll_refl.
  - eapply keepsAll_trans; [apply archiveRawBlock_keeps | apply IH].
Qed.

(** Every swapped block has its file; when the name was free, the file
    holds the text of a swapped block with that hash. *)
Lemma archiveSwapped_present toSwap :
  ∀ files b, b ∈ toSwap →
    ∃ text, archiveSwapped toSwap files !! (eb_hash b +:+ ".md") = Some text
            ∧ (files !! (eb_hash b +:+ ".md") = None →
               ∃ b', b' ∈ toSwap ∧ eb_hash b' = eb_hash b ∧ text = eb_text b').
Proof.
  unfold archiveSwapped.
  induction toSwap as [|b0 toSwap IH]; intros files b; [by intros ?%elem_of_nil |].
  simpl. intros Hin.
  destruct (decide (eb_hash b0 = eb_hash b)) as [Heq|Hne].
  - pose proof (archiveRawBlock_content (eb_hash b0) (eb_text b0) files) as Hc.
    rewrite <- Heq.
    exists (default (eb_text b0) (files !! (eb_hash b0 +:+ ".md"))). split.
    + exact (archiveSwapped_keeps toSwap _ _ _ Hc).
    + intros Hfree. rewrite Hfree. simpl. exists b0.
      split; [apply elem_of_cons; by left | done].
  - apply elem_of_cons in Hin as [->|Hin]; [done |].
    destruct (IH (archiveRawBlock (eb_hash b0) (eb_text b0) files) b Hin)
      as (text & Hl & Hfree).
    exists text. split; [done |]. intros Hf.
    destruct Hfree as (b' & Hb' & Hh & ->).
    { rewrite archiveRawBlock_other; [done |].
      intros Heq%append_inj_suffix. done. }
    exists b'. split; [apply elem_of_cons; by right | done].
Qed.

Section Rounds.
Context `{Platform}.

Lemma insertOnDemand_keeps st missed :
  ∀ cache h entry,
    Forall (λ b, eb_hash b ≠ h) missed →
    cache !! h = Some entry → insertOnDemand st cache missed !! h = Some entry.
Proof.
  induction missed as [|b missed IH]; intros cache h entry Hmiss Hl; simpl; [done |].
  inversion Hmiss as [|? ? Hb Hrest]; subst.
  apply IH; [done |]. by rewrite lookup_insert_ne.
Qed.

Lemma compressMissed_keeps fuel st sig batchSize h entry :
  ∀ k missed cache,
    Forall (λ b, eb_hash b ≠ h) missed →
    cache !! h = Some entry →
    match compressMissed fuel st sig batchSize k missed cache with
    | BatchesDone cache' | BatchesAborted cache' => cache' !! h = Some entry
    | BatchesStuck => True
    end.
Proof.
  induction fuel as [|fuel IH]; intros k missed cache Hmiss Hl; simpl.
  - by destruct missed.
  - destruct missed as [|b0 missed0]; [done |].
    destruct (abortedAtBatch sig k); [done |].
    destruct (batchSize =? 0); [done |].
    apply IH.
    + rewrite <- (take_drop batchSize (b0 :: missed0)) in Hmiss.
      by apply Forall_app in Hmiss as [_ ?].
    + apply (insertOnDemand_keeps st); [|done].
      rewrite <- (take_drop batchSize (b0 :: missed0)) in Hmiss.
      by apply Forall_app in Hmiss as [? _].
Qed.

Lemma storeKept_refl st : storeKept st st.
Proof. repeat split; apply keepsAll_refl. Qed.

Lemma storeKept_trans st1 st2 st3 : storeKept st1 st2 → storeKept st2 st3 → storeKept st1 st3.
Proof.
  intros (Hs & Hq & Hr & Hm & Hc) (Hs' & Hq' & Hr' & Hm' & Hc').
  split; [by eapply sameSetup_trans |]. split; [congruence |].
  split; [|split]; by eapply keepsAll_trans.
Qed.

Lemma trackSession_kept st ev : storeKept st (trackSession st ev).
Proof.
  unfold trackSession. case_bool_decide; [apply storeKept_refl |].
  repeat split; apply keepsAll_refl.
Qed.

Lemma preservePrevious_kept st ev : storeKept st (preservePrevious st ev).
Proof.
  unfold preservePrevious.
  destruct (compactionHistory st); [|apply storeKept_refl].
  destruct (lastCompactionIndex _ _); [|apply storeKept_refl].
  destruct (_ !! _); [|apply storeKept_refl].
  destruct (Str.nonEmpty _); [|apply storeKept_refl].
  repeat split; apply keepsAll_refl.
Qed.

Lemma applyFifoEviction_kept st : storeKept st (applyFifoEviction st).
Proof.
  unfold applyFifoEviction.
  destruct (evictLoop _ _ _ _ _) as [[history' total'] files'] eqn:Hloop.
  apply evictLoop_spec in Hloop as (removed & _ & _ & _ & _ & _ & Hkeep); [|done].
  repeat split; simpl; try apply keepsAll_refl. exact Hkeep.
Qed.

Lemma swapAndAssemble_kept st ev toSwap firstKept :
  storeKept st (fst (swapAndAssemble st ev toSwap firstKept)).
Proof.
  unfold swapAndAssemble.
  pose proof (preservePrevious_kept st ev) as HP.
  set (stP := preservePrevious st ev) in *.
  destruct (abortedBeforeSwap (signal ev)); [done |].
  set (stA := setRawArchive stP _).
  assert (storeKept stP stA) as HA.
  { repeat split; simpl; try apply keepsAll_refl. apply archiveSwapped_keeps. }
  set (missed := filter _ toSwap).
  assert (∀ cache', keepsAll (messageCache stP) cache' → storeKept st (setCache stA cache'))
    as Hcache.
  { intros cache' Hc. eapply storeKept_trans; [exact HP |].
    eapply storeKept_trans; [exact HA |].
    repeat split; simpl; try apply keepsAll_refl. exact Hc. }
  assert (match compressMissed (length missed) stA (signal ev)
                  (maxParallelCompressions (config stA)) 0 missed (messageCache stP) with
          | BatchesDone cache' | BatchesAborted cache' => keepsAll (messageCache stP) cache'
          | BatchesStuck => True
          end) as Hbatches.
  { pose proof (λ h entry, compressMissed_keeps (length missed) stA (signal ev)
                  (maxParallelCompressions (config stA)) h entry 0 missed (messageCache stP))
      as Hk.
    destruct (compressMissed _ _ _ _ _ _ _) as [cache'|cache'|] eqn:Hrun; [| |done].
    all: intros h entry Hl; apply (Hk h entry); [|done].
    all: apply Forall_forall; intros b [Hb _]%list_elem_of_filter Heq;
         rewrite Heq in Hb; congruence. }
  destruct (compressMissed _ _ _ _ _ _ _) as [cache'|cache'|].
  - destruct (abortedBeforeAssembly (signal ev)); simpl; [by apply Hcache |].
    set (st2 := setHistory _ _).
    eapply storeKept_trans; [apply (Hcache cache' Hbatches) |].
    assert (storeKept (setCache stA cache') st2) as H2.
    { repeat split; apply keepsAll_refl. }
    eapply storeKept_trans; [exact H2 |].
    eapply storeKept_trans; [apply applyFifoEviction_kept |].
    repeat split; apply keepsAll_refl.
  - simpl. by apply Hcache.
  - simpl. eapply storeKept_trans; [exact HP | exact HA].
Qed.

Lemma handle_kept st ev : storeKept st (fst (handleBeforeCompact st ev)).
Proof.
  rewrite handleBeforeCompact_eq. unfold planAndSwap.
  destruct (negb (enabled (config st))); [apply storeKept_refl |].
  destruct (negb (nonempty (branchEntries ev))); [apply storeKept_refl |].
  destruct (capabilityUnavailable st); [apply storeKept_refl |].
  pose proof (trackSession_kept st ev) as HS.
  set (stS := trackSession st ev) in *.
  destruct (groupEntriesIntoBlocks _ _ _) as [|allBlocks]; [done |].
  destruct (negb (nonempty _)); [done |].
  destruct (_ && _); [done |].
  destruct (_ <=? 0)%Z; [done |].
  assert (∀ n, storeKept st (setDeferred stS n)) as HD.
  { intros n. eapply storeKept_trans; [exact HS |]. repeat split; apply keepsAll_refl. }
  destruct (_ =? 0); [apply HD |].
  destruct (negb (Str.nonEmpty _)); [apply HD |].
  eapply storeKept_trans; [apply (HD 0) | apply swapAndAssemble_kept].
Qed.

(** X7: whatever a compaction round comes to (a payload, a cancel,
    nothing, an exception), the archives and the cache only grow: every
    file of the raw archive, every file of the memory archive and every
    entry of the cache is still there with the content it had.  The
    configuration, the provider, the key and the queue are the same.  (The
    history in memory, its file and the cache file are not covered: a
    round that returns a payload rewrites them.) *)
Theorem round_keeps_archives_and_cache st ev st' result :
  handleBeforeCompact st ev = (st', result) →
  config st' = config st
  ∧ completeSimple st' = completeSimple st
  ∧ resolvedApiKey st' = resolvedApiKey st
  ∧ compressionQueue st' = compressionQueue st
  ∧ (∀ name content, rawArchive st !! name = Some content →
       rawArchive st' !! name = Some content)
  ∧ (∀ name content, memoryArchive st !! name = Some content →
       memoryArchive st' !! name = Some content)
  ∧ (∀ hash entry, messageCache st !! hash = Some entry →
       messageCache st' !! hash = Some entry).
Proof.
  intros Hrun. pose proof (handle_kept st ev) as Hk. rewrite Hrun in Hk.
  destruct Hk as ((Hc & Hp & Hkey) & Hq & Hr & Hm & Hcache). simpl in *.
  repeat split; done.
Qed.

(** *** A round that cancels *)

(** X8: a round that cancels has written nothing: the cache, the two
    archives, the history files and the cache file are as they were.  All
    it may have changed is the session it tracks, with that session's
    history loaded, and the deferred minimum. *)
Theorem cancelled_round_writes_nothing st ev st' :
  handleBeforeCompact st ev = (st', Cancel) →
  messageCache st' = messageCache st
  ∧ rawArchive st' = rawArchive st
  ∧ memoryArchive st' = memoryArchive st
  ∧ historyFiles st' = historyFiles st
  ∧ cacheFile st' = cacheFile st
  ∧ compressionQueue st' = compressionQueue st
  ∧ config st' = config st
  ∧ (compactionHistory st' = compactionHistory st
     ∨ (currentSessionId st ≠ Some (detectSessionId (branchEntries ev))
        ∧ compactionHistory st'
          = default [] (historyFiles st !! detectSessionId (branchEntries ev)))).
Proof.
  rewrite handleBeforeCompact_eq. unfold planAndSwap.
  destruct (negb (enabled (config st))); [done |].
  destruct (negb (nonempty (branchEntries ev))); [intros [= <-]; repeat split; auto |].
  destruct (capabilityUnavailable st); [intros [= <-]; repeat split; auto |].
  assert (∀ n, let stS := setDeferred (trackSession st ev) n in
            messageCache stS = messageCache st
            ∧ rawArchive stS = rawArchive st
            ∧ memoryArchive stS = memoryArchive st
            ∧ historyFiles stS = historyFiles st
            ∧ cacheFile stS = cacheFile st
            ∧ compressionQueue stS = compressionQueue st
            ∧ config stS = config st
            ∧ (compactionHistory stS = compactionHistory st
               ∨ (currentSessionId st ≠ Some (detectSessionId (branchEntries ev))
                  ∧ compactionHistory stS
                    = default [] (historyFiles st !! detectSessionId (branchEntries ev)))))
    as HS.
  { intros n. unfold trackSession. case_bool_decide; simpl; repeat split; auto. }
  destruct (groupEntriesIntoBlocks _ _ _) as [|allBlocks]; [done |].
  destruct (negb (nonempty _)).
  { intros [= <-]. apply (HS (deferredCompactionMinBlocks (trackSession st ev))). }
  destruct (_ && _).
  { intros [= <-]. apply (HS (deferredCompactionMinBlocks (trackSession st ev))). }
  destruct (_ <=? 0)%Z.
  { intros [= <-]. apply (HS (deferredCompactionMinBlocks (trackSession st ev))). }
  destruct (_ =? 0); [intros [= <-]; apply (HS 2) |].
  destruct (negb (Str.nonEmpty _)); [intros [= <-]; apply (HS 0) |].
  unfold swapAndAssemble.
  destruct (abortedBeforeSwap _); [done |].
  destruct (compressMissed _ _ _ _ _ _ _); [|done|done].
  by destruct (abortedBeforeAssembly _).
Qed.

(** *** At or under the trigger *)

(** X9: with no more tokens than the compression trigger (a request
    without a token count reads as zero) a round never compacts.  The
    hook cancels, or returns nothing when the engine is switched off.  The
    handler under it does the same, unless the engine is switched on and
    able and an entry after the last compaction is a custom entry without
    data: then it throws, with nothing done but the session tracked, and
    the cancel is the hook's. *)
Theorem no_compaction_under_trigger st ev :
  tokensBefore ev ≤ compressTrigger (config st) →
  (∃ st', sessionBeforeCompact st ev
          = (st', if enabled (config st) then Cancel else Undefined))
  ∧ (handleBeforeCompact st ev = (trackSession st ev, Throws)
     ∨ ∃ st', handleBeforeCompact st ev
              = (st', if enabled (config st) then Cancel else Undefined))
  ∧ (snd (handleBeforeCompact st ev) = Throws
     ↔ enabled (config st) = true ∧ branchEntries ev ≠ []
       ∧ capabilityUnavailable st = false
       ∧ Exists dataless (drop (startIndexOf (branchEntries ev)) (branchEntries ev))).
Proof.
  intros Hunder.
  assert (handleBeforeCompact st ev
          = (if negb (enabled (config st)) then (st, Undefined)
             else if negb (nonempty (branchEntries ev)) then (st, Cancel)
             else if capabilityUnavailable st then (st, Cancel)
             else match groupEntriesIntoBlocks (config st) (branchEntries ev)
                          (startIndexOf (branchEntries ev)) with
                  | Threw => (trackSession st ev, Throws)
                  | Returned _ =>
                      (trackSession st ev, Cancel)
                  end)) as Hrun.
  { rewrite handleBeforeCompact_eq. unfold planAndSwap.
    destruct (negb (enabled (config st))); [done |].
    destruct (negb (nonempty (branchEntries ev))); [done |].
    destruct (capabilityUnavailable st); [done |].
    destruct (groupEntriesIntoBlocks _ _ _) as [|allBlocks]; [done |].
    destruct (negb (nonempty _)); [done |].
    destruct (_ && _); [done |].
    assert ((overflowOf (trackSession st ev) ev <=? 0)%Z = true) as ->; [|done].
    apply Z.leb_le. unfold overflowOf. rewrite trackSession_config. lia. }
  pose proof (groupEntriesIntoBlocks_throws (config st) (branchEntries ev)
                (startIndexOf (branchEntries ev))) as Hthrows.
  unfold sessionBeforeCompact. rewrite Hrun. clear Hrun.
  destruct (enabled (config st)); simpl.
  2:{ split; [eauto |]. split; [eauto |]. split; [done | by intros (? & _)]. }
  destruct (branchEntries ev) as [|entry entries] eqn:Hlog; simpl.
  { split; [eauto |]. split; [eauto |]. split; [done | by intros (_ & ? & _)]. }
  destruct (capabilityUnavailable st).
  { split; [eauto |]. split; [eauto |]. split; [done | by intros (_ & _ & ? & _)]. }
  destruct (groupEntriesIntoBlocks _ _ _) as [|allBlocks].
  - split; [eauto |]. split; [by left |]. split; [intros _ | done].
    repeat split; [done |]. by apply Hthrows.
  - split; [eauto |]. split; [eauto |]. split; [done |].
    intros (_ & _ & _ & Hbad). by apply Hthrows in Hbad.
Qed.

(** *** A round that compacts *)


Lemma applyFifoEviction_session st :
  currentSessionId (applyFifoEviction st) = currentSessionId st.
Proof. unfold applyFifoEviction. by destruct (evictLoop _ _ _ _ _) as [[? ?] ?]. Qed.

Lemma applyFifoEviction_bound st :
  (historyTotal (compactionHistory (applyFifoEviction st))
     ≤ Z.of_nat (evictTrigger (config st)))%Z
  ∨ compactionHistory (applyFifoEviction st) = [].
Proof.
  unfold applyFifoEviction.
  destruct (evictLoop _ _ _ _ _) as [[history' total'] files'] eqn:Hloop.
  apply evictLoop_spec in Hloop as (removed & _ & -> & Hdone & _); [|done].
  exact Hdone.
Qed.

Lemma applyFifoEviction_historyFiles st :
  historyFiles (applyFifoEviction st) = historyFiles st.
Proof. unfold applyFifoEviction. by destruct (evictLoop _ _ _ _ _) as [[? ?] ?]. Qed.

Lemma applyFifoEviction_rawArchive st :
  rawArchive (applyFifoEviction st) = rawArchive st.
Proof. unfold applyFifoEviction. by destruct (evictLoop _ _ _ _ _) as [[? ?] ?]. Qed.

Lemma swapAndAssemble_saved st ev toSwap firstKept st' c :
  swapAndAssemble st ev toSwap firstKept = (st', Compact c) →
  currentSessionId st' = currentSessionId st
  ∧ historyFiles st'
    = <[ default "default" (currentSessionId st) := compactionHistory st' ]> (historyFiles st)
  ∧ ((historyTotal (compactionHistory st') ≤ Z.of_nat (evictTrigger (config st)))%Z
     ∨ compactionHistory st' = [])
  ∧ rawArchive st' = archiveSwapped toSwap (rawArchive st)
  ∧ c_tokensBefore c = tokensBefore ev.
Proof.
  unfold swapAndAssemble.
  destruct (abortedBeforeSwap (signal ev)); [done |].
  set (stP := preservePrevious st ev).
  assert (currentSessionId stP = currentSessionId st
          ∧ historyFiles stP = historyFiles st ∧ rawArchive stP = rawArchive st
          ∧ config stP = config st) as (HPs & HPf & HPr & HPc).
  { unfold stP, preservePrevious.
    destruct (compactionHistory st); [|done].
    destruct (lastCompactionIndex _ _); [|done].
    destruct (_ !! _); [|done]. by destruct (Str.nonEmpty _). }
  destruct (compressMissed _ _ _ _ _ _ _) as [cache| |]; [|done|done].
  destruct (abortedBeforeAssembly (signal ev)); [done |].
  set (st2 := setHistory _ _).
  intros [= <- <-]. simpl.
  rewrite applyFifoEviction_session, applyFifoEviction_historyFiles,
    applyFifoEviction_rawArchive.
  pose proof (applyFifoEviction_bound st2) as Hb.
  subst st2. simpl in *. rewrite HPc in Hb. rewrite HPs, HPf.
  split; [done |]. split; [done |]. split; [exact Hb |]. by rewrite HPr.
Qed.


(** X11: in a round that returns a payload every swapped block has been
    archived raw and is in the cache.  The archive holds a file named by
    the block's hash; when no such file existed, it holds the text of a
    swapped block with that hash. *)
Theorem swapped_blocks_are_archived_and_cached st ev st' c b :
  handleBeforeCompact st ev = (st', Compact c) →
  b ∈ take (swapCount (messageCache st) (overflowOf st ev) (eligibleBlocks st ev))
         (eligibleBlocks st ev) →
  (∃ text,
     rawArchive st' !! (eb_hash b +:+ ".md") = Some text
     ∧ (rawArchive st !! (eb_hash b +:+ ".md") = None →
        ∃ b', b' ∈ take (swapCount (messageCache st) (overflowOf st ev) (eligibleBlocks st ev))
                     (eligibleBlocks st ev)
              ∧ eb_hash b' = eb_hash b ∧ text = eb_text b'))
  ∧ is_Some (messageCache st' !! eb_hash b).
Proof.
  intros Hrun Hb.
  pose proof (handle_compact_inv st ev st' c Hrun)
    as (_ & _ & _ & _ & _ & _ & _ & _ & _ & Hcache & _ & _).
  split.
  - revert Hrun. rewrite handleBeforeCompact_eq. unfold planAndSwap.
    destruct (negb (enabled (config st))); [done |].
    destruct (negb (nonempty (branchEntries ev))); [done |].
    destruct (capabilityUnavailable st); [done |].
    pose proof (trackSession_setup st ev) as (Hcfg & _).
    pose proof (trackSession_cache st ev) as Hc.
    assert (rawArchive (trackSession st ev) = rawArchive st) as Hraw.
    { unfold trackSession. by case_bool_decide. }
    set (stS := trackSession st ev) in *.
    rewrite (eligibleBlocks_ext stS st ev Hcfg), (overflowOf_ext stS st ev Hcfg), Hc.
    destruct (groupEntriesIntoBlocks _ _ _) as [|allBlocks]; [done |].
    destruct (negb (nonempty _)); [done |].
    destruct (_ && _); [done |].
    destruct (_ <=? 0)%Z; [done |].
    destruct (_ =? 0); [done |].
    destruct (negb (Str.nonEmpty _)); [done |].
    intros (_ & _ & _ & Harch & _)%swapAndAssemble_saved.
    simpl in Harch. rewrite Hraw in Harch. rewrite Harch.
    by apply archiveSwapped_present.
  - rewrite Hcache.
    destruct (messageCache st !! eb_hash b) as [entry|] eqn:Hhit.
    + exists entry. apply insertOnDemand_keeps; [|done].
      apply Forall_forall. intros b' [Hb' _]%list_elem_of_filter Heq.
      rewrite Heq in Hb'. congruence.
    + apply insertOnDemand_present. unfold missedBlocks. by apply list_elem_of_filter.
Qed.

End Rounds.

(** * The turn-completion path *)

Lemma drainQueue_keeps queue : ∀ files, keepsAll files (drainQueue queue files).
Proof.
  induction queue as [|[text hash] queue IH]; intros files; simpl.
  - apply keepsAll_refl.
  - eapply keepsAll_trans; [apply archiveRawBlock_keeps | apply IH].
Qed.

Lemma archiveRawBlock_idempotent hash text files :
  archiveRawBlock hash text (archiveRawBlock hash text files)
  = archiveRawBlock hash text files.
Proof.
  unfold archiveRawBlock at 1.
  destruct (archiveRawBlock_present hash text files) as [content ->]. done.
Qed.

(** X12: queueing the same block a second time changes nothing: the
    block is found in the cache, or its text is archived under a name
    that is taken. *)
Theorem queueBlock_twice st block :
  queueBlock (queueBlock st block) block = queueBlock st block.
Proof.
  unfold queueBlock at 2.
  destruct (negb (enabled (config st)) || capabilityUnavailable st) eqn:Hoff.
  { unfold queueBlock. by rewrite Hoff. }
  destruct (messageCache st !! mb_hash block) as [entry|] eqn:Hhit.
  { unfold queueBlock. by rewrite Hoff, Hhit. }
  destruct (String.length (mb_text block) <? minCompressChars (config st)) eqn:Hshort.
  - unfold queueBlock. simpl. unfold capabilityUnavailable in *. simpl.
    rewrite Hoff. by rewrite lookup_insert_eq, Hhit, Hshort.
  - unfold queueBlock. rewrite Hoff, Hhit, Hshort.
    unfold processQueue, capabilityUnavailable in *.
    destruct (0 <? deferredCompactionMinBlocks
                     (setQueue st (compressionQueue st ++ [(mb_text block, mb_hash block)])))
      eqn:Hdef; simpl in *.
    all: rewrite ?Hdef, Hoff, Hhit, Hshort; simpl.
    all: rewrite !drainQueue_app; simpl.
    all: by rewrite archiveRawBlock_idempotent.
Qed.

Lemma queueBlock_kept st block :
  config (queueBlock st block) = config st
  ∧ completeSimple (queueBlock st block) = completeSimple st
  ∧ resolvedApiKey (queueBlock st block) = resolvedApiKey st
  ∧ compactionHistory (queueBlock st block) = compactionHistory st
  ∧ historyFiles (queueBlock st block) = historyFiles st
  ∧ memoryArchive (queueBlock st block) = memoryArchive st
  ∧ cacheFile (queueBlock st block) = cacheFile st
  ∧ keepsAll (messageCache st) (messageCache (queueBlock st block))
  ∧ keepsAll (rawArchive st) (rawArchive (queueBlock st block))
  ∧ (compressionQueue st = [] → compressionQueue (queueBlock st block) = []).
Proof.
  unfold queueBlock.
  destruct (negb (enabled (config st)) || capabilityUnavailable st).
  { repeat split; try done; apply keepsAll_refl. }
  destruct (messageCache st !! mb_hash block) as [entry|] eqn:Hhit.
  { repeat split; try done; apply keepsAll_refl. }
  destruct (String.length (mb_text block) <? minCompressChars (config st)).
  - repeat split; try done; simpl; [|apply keepsAll_refl].
    intros h entry Hl. rewrite lookup_insert_ne; [done |]. congruence.
  - destruct (0 <? deferredCompactionMinBlocks _); simpl.
    all: repeat split; try done; try apply keepsAll_refl; apply drainQueue_keeps.
Qed.

(** X13: the blocks of a finished turn are queued without loss: the cache
    and the raw archive keep every entry and every file they held, the
    history, its files, the memory archive, the cache file and the setup
    are untouched, and a queue that was empty is empty again. *)
Theorem queueBlocks_only_adds st blocks :
  config (queueBlocks st blocks) = config st
  ∧ completeSimple (queueBlocks st blocks) = completeSimple st
  ∧ resolvedApiKey (queueBlocks st blocks) = resolvedApiKey st
  ∧ compactionHistory (queueBlocks st blocks) = compactionHistory st
  ∧ historyFiles (queueBlocks st blocks) = historyFiles st
  ∧ memoryArchive (queueBlocks st blocks) = memoryArchive st
  ∧ cacheFile (queueBlocks st blocks) = cacheFile st
  ∧ (∀ hash entry, messageCache st !! hash = Some entry →
       messageCache (queueBlocks st blocks) !! hash = Some entry)
  ∧ (∀ name content, rawArchive st !! name = Some content →
       rawArchive (queueBlocks st blocks) !! name = Some content)
  ∧ (compressionQueue st = [] → compressionQueue (queueBlocks st blocks) = []).
Proof.
  unfold queueBlocks. revert st.
  induction blocks as [|block blocks IH]; intros st; simpl.
  - repeat split; done.
  - destruct (queueBlock_kept st block)
      as (Hc & Hp & Hk & Hh & Hf & Hm & Hcf & Hcache & Hraw & Hq).
    destruct (IH (queueBlock st block))
      as (Hc' & Hp' & Hk' & Hh' & Hf' & Hm' & Hcf' & Hcache' & Hraw' & Hq').
    split; [congruence |]. split; [congruence |]. split; [congruence |].
    split; [congruence |]. split; [congruence |]. split; [congruence |].
    split; [congruence |]. split; [|split].
    + intros h entry Hl. apply Hcache', Hcache, Hl.
    + intros name content Hl. apply Hraw', Hraw, Hl.
    + intros Hempty. apply Hq', Hq, Hempty.
Qed.

Section EvictionAgain.
Context `{Platform}.

(** X14: evicting twice is evicting once: after an eviction the history
    is within the trigger or empty, so a second pass removes nothing and
    archives nothing. *)
Theorem applyFifoEviction_twice st :
  applyFifoEviction (applyFifoEviction st) = applyFifoEviction st.
Proof.
  assert (∃ history' files',
            applyFifoEviction st = setMemoryArchive (setHistory st history') files'
            ∧ ((historyTotal history' ≤ Z.of_nat (evictTrigger (config st)))%Z
               ∨ history' = [])) as (history' & files' & -> & Hdone).
  { unfold applyFifoEviction.
    destruct (evictLoop _ _ _ _ _) as [[history' total'] files'] eqn:Hloop.
    apply evictLoop_spec in Hloop as (removed & _ & -> & Hdone & _); [|done].
    eauto. }
  unfold applyFifoEviction. simpl.
  destruct history' as [|oldest rest]; simpl; [done |].
  destruct Hdone as [Hle|Hnil]; [|done].
  apply Z.ltb_ge in Hle. rewrite Hle. done.
Qed.

End EvictionAgain.

(** * Long tool output *)

Lemma caps_arith : 8000 = 8 * 1000 ∧ 8015 = 8 * 1000 + 15 ∧ 6019 = 6 * 1000 + 19.
Proof. by vm_compute. Qed.

Lemma length_takeLast (n : nat) (s : string) :
  String.length (Str.takeLast n s) = Nat.min n (String.length s).
Proof. unfold Str.takeLast. rewrite length_drop_string. lia. Qed.

Lemma truncateLong_length c :
  String.length (truncateLong c) ≤ 8000
  ∧ (8000 < String.length c → String.length (truncateLong c) = 6019).
Proof.
  unfold truncateLong. destruct (8000 <? String.length c) eqn:Hlong.
  - apply Nat.ltb_lt in Hlong.
    rewrite !length_append, length_take_string, length_takeLast.
    change (String.length Str.nl) with 1.
    change (String.length "...[truncated]...") with 17.
    pose proof caps_arith. lia.
  - apply Nat.ltb_ge in Hlong. pose proof caps_arith. lia.
Qed.

Lemma toolResult_text msg c :
  m_role msg = "toolResult" → m_content msg = CString c →
  extractMessageText msg = "[Tool Result]:" +:+ Str.nl +:+ truncateLong c.
Proof.
  intros Hrole Hc. unfold extractMessageText, messageParts, roleIs.
  by rewrite Hrole, Hc.
Qed.

Lemma bash_text msg :
  m_role msg = "bashExecution" →
  extractMessageText msg
  = "[Bash]:" +:+ Str.nl +:+ "$ " +:+ m_command msg +:+ Str.nl +:+ truncateLong (m_output msg).
Proof.
  intros Hrole. unfold extractMessageText, messageParts, roleIs.
  by rewrite Hrole.
Qed.

(** X15: a tool result given as a string, and the output of a shell
    command, enter a block whole when they have at most 8000 characters;
    anything longer is cut to its first 4000 and its last 2000 characters
    around a marker, 6019 characters in all.  So a string tool result
    never contributes more than 8015 characters to a block. *)
Theorem tool_output_is_capped msg :
  (∀ c, m_role msg = "toolResult" → m_content msg = CString c →
     String.length (extractMessageText msg) ≤ 8015
     ∧ (String.length c ≤ 8000 →
        extractMessageText msg = "[Tool Result]:" +:+ Str.nl +:+ c)
     ∧ (8000 < String.length c →
        extractMessageText msg
        = "[Tool Result]:" +:+ Str.nl +:+ Str.take 4000 c +:+ Str.nl
          +:+ "...[truncated]..." +:+ Str.nl +:+ Str.takeLast 2000 c))
  ∧ (m_role msg = "bashExecution" →
       extractMessageText msg
       = "[Bash]:" +:+ Str.nl +:+ "$ " +:+ m_command msg +:+ Str.nl
         +:+ truncateLong (m_output msg)
       ∧ String.length (truncateLong (m_output msg)) ≤ 8000
       ∧ (8000 < String.length (m_output msg) →
          truncateLong (m_output msg)
          = Str.take 4000 (m_output msg) +:+ Str.nl +:+ "...[truncated]..." +:+ Str.nl
            +:+ Str.takeLast 2000 (m_output msg))).
Proof.
  pose proof caps_arith as (E8000 & E8015 & E6019).
  pose proof (truncateLong_length (m_output msg)) as [Hout _].
  split.
  - intros c Hrole Hc. pose proof (truncateLong_length c) as [Hle _].
    rewrite (toolResult_text msg c Hrole Hc).
    split; [|split].
    + rewrite !length_append. change (String.length "[Tool Result]:") with 14.
      change (String.length Str.nl) with 1. lia.
    + intros Hshort. unfold truncateLong.
      assert ((8000 <? String.length c) = false) as -> by (by apply Nat.ltb_ge). done.
    + intros Hlong. unfold truncateLong.
      assert ((8000 <? String.length c) = true) as -> by (by apply Nat.ltb_lt). done.
  - intros Hrole. rewrite (bash_text msg Hrole).
    split; [done |]. split; [done |].
    intros Hlong. unfold truncateLong.
    assert ((8000 <? String.length (m_output msg)) = true) as -> by (by apply Nat.ltb_lt).
    done.
Qed.

(** * Where a round starts *)

Lemma lastCompactionIndex_spec entries :
  ∀ i,
    match lastCompactionIndex entries i with
    | Some j =>
        i ≤ j
        ∧ (∃ e, entries !! (j - i) = Some e ∧ e_type e = "compaction")
        ∧ ∀ k e, j - i < k → entries !! k = Some e → e_type e ≠ "compaction"
    | None => ∀ k e, entries !! k = Some e → e_type e ≠ "compaction"
    end.
Proof.
  induction entries as [|entry rest IH]; intros i; simpl.
  - by intros k e ?.
  - specialize (IH (S i)).
    destruct (lastCompactionIndex rest (S i)) as [j|].
    + destruct IH as (Hle & (e & He & Htype) & Hlater).
      split; [lia |]. split.
      * exists e. replace (j - i) with (S (j - S i)) by lia. done.
      * intros k e' Hk. destruct k as [|k]; [lia |]. simpl.
        apply Hlater. lia.
    + destruct (String.eqb (e_type entry) "compaction") eqn:Htype.
      * apply String.eqb_eq in Htype.
        split; [lia |]. rewrite Nat.sub_diag. split; [by exists entry |].
        intros k e Hk. destruct k as [|k]; [lia |]. simpl. apply IH.
      * apply String.eqb_neq in Htype.
        intros [|k] e; simpl; [by intros [= <-] | apply IH].
Qed.

Section Span.
Context `{Platform}.

Lemma block_entries_of_span cfg branchEntries startIndex blocks b te :
  groupEntriesIntoBlocks cfg branchEntries startIndex = Returned blocks →
  b ∈ blocks →
  te ∈ eb_entries b → te ∈ spanEntries branchEntries startIndex.
Proof.
  intros Hrun.
  destruct (segmentation cfg branchEntries startIndex blocks Hrun) as (segs & -> & Hspan & _).
  intros (s & Hs & Hb)%list_elem_of_In%in_flat_map.
  apply list_elem_of_In in Hs, Hb.
  rewrite (segmentBlocks_entries s b Hb). intros Hte.
  rewrite <- Hspan. apply list_elem_of_In, in_flat_map.
  exists s. split; by apply list_elem_of_In.
Qed.

(** X16: a round works on what follows the last compaction entry of the
    log, and on nothing older.  The start index is zero when the log has
    no compaction entry, and else one past the last of them; no entry from
    there on is a compaction entry, and every entry of every block of the
    round sits at or after the start index. *)
Theorem round_starts_after_last_compaction st ev :
  (startIndexOf (branchEntries ev) = 0
   ∨ ∃ e, branchEntries ev !! (startIndexOf (branchEntries ev) - 1) = Some e
          ∧ e_type e = "compaction")
  ∧ (∀ k e, startIndexOf (branchEntries ev) ≤ k →
       branchEntries ev !! k = Some e → e_type e ≠ "compaction")
  ∧ (∀ b te, b ∈ allBlocksOf st ev → te ∈ eb_entries b →
       startIndexOf (branchEntries ev) ≤ te_index te).
Proof.
  pose proof (lastCompactionIndex_spec (branchEntries ev) 0) as Hspec.
  unfold startIndexOf.
  destruct (lastCompactionIndex (branchEntries ev) 0) as [j|] eqn:Hlast.
  - destruct Hspec as (_ & (e & He & Htype) & Hlater).
    rewrite Nat.sub_0_r in He.
    split; [right; exists e; by replace (S j - 1) with j by lia |].
    split.
    + intros k e' Hk. apply Hlater. lia.
    + intros b te Hb Hte.
      assert (allBlocksOf st ev ≠ []) as Hall.
      { intros Hnil. rewrite Hnil in Hb. by apply elem_of_nil in Hb. }
      pose proof (block_entries_of_span _ _ _ _ b te (allBlocksOf_returned st ev Hall) Hb Hte)
        as Hin.
      unfold spanEntries, startIndexOf in Hin. rewrite Hlast in Hin.
      by apply keptEntries_index in Hin.
  - split; [by left |]. split.
    + intros k e _. apply Hspec.
    + intros. lia.
Qed.

(** * Whether a round returns *)

Lemma compressMissed_not_stuck st sig batchSize :
  0 < batchSize →
  ∀ fuel k missed cache,
    length missed ≤ fuel →
    compressMissed fuel st sig batchSize k missed cache ≠ BatchesStuck.
Proof.
  intros Hpos. induction fuel as [|fuel IH]; intros k missed cache Hlen; simpl.
  - destruct missed; [done | simpl in Hlen; lia].
  - destruct missed as [|b missed]; [done |].
    destruct (abortedAtBatch sig k); [done |].
    assert ((batchSize =? 0) = false) as -> by (apply Nat.eqb_neq; lia).
    apply IH. rewrite length_drop. simpl in *. lia.
Qed.

Lemma swapAndAssemble_not_stuck st ev toSwap firstKept :
  0 < maxParallelCompressions (config st) →
  snd (swapAndAssemble st ev toSwap firstKept) ≠ Stuck.
Proof.
  intros Hpos. unfold swapAndAssemble.
  destruct (abortedBeforeSwap (signal ev)); [done |].
  set (stA := setRawArchive _ _).
  assert (config stA = config st) as Hcfg.
  { destruct (preservePrevious_setup st ev) as (Hc & _). exact Hc. }
  set (missed := filter _ toSwap).
  pose proof (compressMissed_not_stuck stA (signal ev)
                (maxParallelCompressions (config stA)) ltac:(by rewrite Hcfg)
                (length missed) 0 missed
                (messageCache (preservePrevious st ev)) ltac:(done)) as Hns.
  destruct (compressMissed _ _ _ _ _ _ _); [|done|done].
  by destruct (abortedBeforeAssembly (signal ev)).
Qed.

Lemma swapAndAssemble_zero_batch st ev toSwap firstKept st' c :
  maxParallelCompressions (config st) = 0 →
  swapAndAssemble st ev toSwap firstKept = (st', Compact c) →
  ∀ b, b ∈ toSwap → is_Some (messageCache st !! eb_hash b).
Proof.
  intros Hzero. unfold swapAndAssemble.
  destruct (abortedBeforeSwap (signal ev)); [done |].
  destruct (preservePrevious_setup st ev) as (Hcfg & _).
  rewrite preservePrevious_cache. simpl. rewrite Hcfg, Hzero.
  set (missed := filter _ toSwap).
  assert (∀ b, b ∈ toSwap → messageCache st !! eb_hash b = None → b ∈ missed) as Hmissed.
  { intros b Hb Hmiss. by apply list_elem_of_filter. }
  destruct missed as [|b0 missed0].
  - intros _ b Hb. destruct (messageCache st !! eb_hash b) eqn:Hhit; [eauto |].
    by apply Hmissed, elem_of_nil in Hhit.
  - simpl. by destruct (abortedAtBatch (signal ev) 0).
Qed.

(** X17: with a positive [maxParallelCompressions] a round always comes
    to an end: the on-demand loop takes at least one block per batch.
    With a batch size of zero the loop does not advance, so a round
    returns a payload only when every block to swap was in the cache
    already; with one of them missing, and no abort, it stays in the
    loop. *)
Theorem round_returns_unless_batch_size_zero st ev :
  (0 < maxParallelCompressions (config st) →
   snd (handleBeforeCompact st ev) ≠ Stuck)
  ∧ (maxParallelCompressions (config st) = 0 →
     ∀ st' c b,
       handleBeforeCompact st ev = (st', Compact c) →
       b ∈ take (swapCount (messageCache st) (overflowOf st ev) (eligibleBlocks st ev))
              (eligibleBlocks st ev) →
       is_Some (messageCache st !! eb_hash b))
  ∧ (maxParallelCompressions (config st) = 0 →
     ∀ toSwap firstKept b,
       b ∈ toSwap → messageCache st !! eb_hash b = None →
       abortedBeforeSwap (signal ev) = false →
       abortedAtBatch (signal ev) 0 = false →
       snd (swapAndAssemble st ev toSwap firstKept) = Stuck).
Proof.
  split; [|split].
  - intros Hpos. rewrite handleBeforeCompact_eq. unfold planAndSwap.
    destruct (negb (enabled (config st))); [done |].
    destruct (negb (nonempty (branchEntries ev))); [done |].
    destruct (capabilityUnavailable st); [done |].
    destruct (trackSession_setup st ev) as (Hcfg & _).
    set (stS := trackSession st ev) in *.
    destruct (groupEntriesIntoBlocks _ _ _) as [|allBlocks]; [done |].
    destruct (negb (nonempty _)); [done |].
    destruct (_ && _); [done |].
    destruct (_ <=? 0)%Z; [done |].
    destruct (_ =? 0); [done |].
    destruct (negb (Str.nonEmpty _)); [done |].
    apply swapAndAssemble_not_stuck. simpl. by rewrite Hcfg.
  - intros Hzero st' c b. rewrite handleBeforeCompact_eq. unfold planAndSwap.
    destruct (negb (enabled (config st))); [done |].
    destruct (negb (nonempty (branchEntries ev))); [done |].
    destruct (capabilityUnavailable st); [done |].
    destruct (trackSession_setup st ev) as (Hcfg & _).
    pose proof (trackSession_cache st ev) as Hcache.
    set (stS := trackSession st ev) in *.
    rewrite (eligibleBlocks_ext stS st ev Hcfg), (overflowOf_ext stS st ev Hcfg), Hcache.
    destruct (groupEntriesIntoBlocks _ _ _) as [|allBlocks]; [done |].
    destruct (negb (nonempty _)); [done |].
    destruct (_ && _); [done |].
    destruct (_ <=? 0)%Z; [done |].
    destruct (_ =? 0); [done |].
    destruct (negb (Str.nonEmpty _)); [done |].
    intros Hrun Hb.
    assert (maxParallelCompressions (config (setDeferred stS 0)) = 0) as Hz
      by (simpl; by rewrite Hcfg).
    apply (swapAndAssemble_zero_batch _ _ _ _ _ _ Hz Hrun) in Hb.
    simpl in Hb. by rewrite Hcache in Hb.
  - intros Hzero toSwap firstKept b Hb Hmiss Hswap Hbatch.
    unfold swapAndAssemble. rewrite Hswap.
    destruct (preservePrevious_setup st ev) as (Hcfg & _).
    rewrite preservePrevious_cache. simpl. rewrite Hcfg, Hzero.
    set (missed := filter _ toSwap).
    assert (b ∈ missed) as Hin by (by apply list_elem_of_filter).
    destruct missed as [|b0 missed0]; [by apply elem_of_nil in Hin |].
    simpl. by rewrite Hbatch.
Qed.

End Span.

Lemma ordersCache_size st order :
  ordersCache (st, order) → size (messageCache st) = length order.
Proof.
  intros [Hnd Hkeys]. simpl in *.
  rewrite <- size_dom, <- (size_list_to_set (C := gset string) order) by done.
  f_equal. apply set_eq. intros hash.
  rewrite elem_of_dom, elem_of_list_to_set. symmetry. apply Hkeys.
Qed.

Lemma deleteKeys_lookup keys cache hash :
  deleteKeys keys cache !! hash = if decide (hash ∈ keys) then None else cache !! hash.
Proof.
  unfold deleteKeys. induction keys as [|k keys IH]; cbn [foldr].
  - destruct (decide (hash ∈ [])) as [Hin|_]; [by apply elem_of_nil in Hin | done].
  - destruct (decide (hash = k)) as [->|Hne].
    + rewrite lookup_delete_eq.
      destruct (decide (k ∈ k :: keys)) as [_|Hnin]; [done |].
      exfalso. apply Hnin, elem_of_cons. by left.
    + rewrite lookup_delete_ne by done. rewrite IH.
      destruct (decide (hash ∈ keys)) as [Hin|Hnin];
        destruct (decide (hash ∈ k :: keys)) as [Hin'|Hnin']; try done.
      * exfalso. apply Hnin', elem_of_cons. by right.
      * apply elem_of_cons in Hin' as [?|?]; done.
Qed.

Lemma queueBlock_other st block hash :
  hash ≠ mb_hash block →
  messageCache (queueBlock st block) !! hash = messageCache st !! hash.
Proof.
  intros Hne. unfold queueBlock.
  destruct (negb (enabled (config st)) || capabilityUnavailable st); [done |].
  destruct (messageCache st !! mb_hash block); [done |].
  destruct (String.length (mb_text block) <? minCompressChars (config st)).
  - simpl. by rewrite lookup_insert_ne.
  - by destruct (0 <? _).
Qed.

Lemma queueBlockOrdered_orders so block :
  ordersCache so → ordersCache (queueBlockOrdered so block).
Proof.
  destruct so as [st order]. intros [Hnd Hkeys]. simpl in *.
  unfold queueBlockOrdered.
  destruct (messageCache st !! mb_hash block) as [entry|] eqn:Hold.
  - assert (queueBlock st block = st) as ->; [|done].
    unfold queueBlock. rewrite Hold. by destruct (_ || _).
  - assert (mb_hash block ∉ order) as Hfresh.
    { intros Hin%Hkeys. rewrite Hold in Hin. by destruct Hin. }
    destruct (messageCache (queueBlock st block) !! mb_hash block) as [entry|] eqn:Hnew.
    + split; simpl.
      * apply NoDup_app. split; [done |]. split; [|apply NoDup_singleton].
        intros hash Hin Heq%list_elem_of_singleton. by subst hash.
      * intros hash. rewrite elem_of_app, list_elem_of_singleton.
        destruct (decide (hash = mb_hash block)) as [->|Hne].
        -- rewrite Hnew. split; [eauto | by right].
        -- rewrite queueBlock_other by done. rewrite <- Hkeys.
           split; [by intros [?|?] | by left].
    + split; [done |]. simpl. intros hash.
      destruct (decide (hash = mb_hash block)) as [->|Hne].
      * rewrite Hnew. split; [done | by intros [? ?]].
      * rewrite queueBlock_other by done. apply Hkeys.
Qed.

Lemma cleanupCache_spec st order :
  ordersCache (st, order) →
  let so' := cleanupCache (st, order) in
  ordersCache so'
  ∧ size (messageCache (fst so')) = Nat.min (length order) MAX_CACHE_SIZE
  ∧ snd so' = drop (length order - MAX_CACHE_SIZE) order
  ∧ (∀ hash, hash ∈ snd so' →
       messageCache (fst so') !! hash = messageCache st !! hash)
  ∧ (∀ hash, hash ∈ take (length order - MAX_CACHE_SIZE) order →
       messageCache (fst so') !! hash = None)
  ∧ (length order ≤ MAX_CACHE_SIZE → so' = (st, order))
  ∧ (MAX_CACHE_SIZE < length order → cacheFile (fst so') = Some (messageCache (fst so'))).
Proof.
  intros Hord. pose proof (ordersCache_size st order Hord) as Hsize.
  destruct Hord as [Hnd Hkeys]. simpl in Hnd, Hkeys.
  unfold cleanupCache. rewrite Hsize.
  destruct (length order <=? MAX_CACHE_SIZE) eqn:Hfits.
  - apply Nat.leb_le in Hfits. cbn [fst snd].
    replace (length order - MAX_CACHE_SIZE) with 0 by lia. rewrite drop_0.
    split; [done |]. split; [lia |]. split; [done |]. split; [done |].
    split; [by intros hash ?%elem_of_nil |]. split; [done | lia].
  - apply Nat.leb_gt in Hfits. cbn [fst snd].
    set (n := length order - MAX_CACHE_SIZE).
    rewrite <- (take_drop n order) in Hnd.
    apply NoDup_app in Hnd as (Hnd1 & Hdisj & Hnd2).
    assert (∀ hash, hash ∈ order ↔ hash ∈ take n order ∨ hash ∈ drop n order) as Hsplit.
    { intros hash. by rewrite <- elem_of_app, take_drop. }
    assert (ordersCache
              (saveMessageCache (setCache st (deleteKeys (take n order) (messageCache st))),
               drop n order)) as Hord'.
    { split; [done |]. simpl. intros hash. rewrite deleteKeys_lookup.
      destruct (decide (hash ∈ take n order)) as [Hin|Hnin].
      - split; [intros Hd; by destruct (Hdisj hash Hin) | by intros [? ?]].
      - rewrite <- Hkeys, Hsplit. split; [by right | by intros [?|?]]. }
    split; [done |]. split.
    { rewrite (ordersCache_size _ _ Hord'), length_drop. subst n. lia. }
    split; [done |]. split; [|split; [|split; [lia | done]]].
    + intros hash Hin. simpl. rewrite deleteKeys_lookup.
      rewrite decide_False; [done |]. intros Hd. by apply (Hdisj hash).
    + intros hash Hin. simpl. rewrite deleteKeys_lookup. by rewrite decide_True.
Qed.

Section TurnEndTheorems.
Context `{Platform}.

Lemma queueBlocksOrdered_orders blocks :
  ∀ so, ordersCache so → ordersCache (foldl queueBlockOrdered so blocks).
Proof.
  induction blocks as [|block blocks IH]; intros so Hso; simpl; [done |].
  by apply IH, queueBlockOrdered_orders.
Qed.

Lemma queueBlocksOrdered_fst blocks :
  ∀ st order, fst (foldl queueBlockOrdered (st, order) blocks) = queueBlocks st blocks.
Proof.
  unfold queueBlocks.
  induction blocks as [|block blocks IH]; intros st order; simpl; [done |].
  destruct (messageCache st !! mb_hash block);
    [|destruct (messageCache (queueBlock st block) !! mb_hash block)]; apply IH.
Qed.

Lemma queueBlocksOrdered_snd blocks :
  ∀ st order, ∃ added, snd (foldl queueBlockOrdered (st, order) blocks) = order ++ added.
Proof.
  induction blocks as [|block blocks IH]; intros st order; simpl.
  - exists []. by rewrite app_nil_r.
  - destruct (messageCache st !! mb_hash block);
      [|destruct (messageCache (queueBlock st block) !! mb_hash block)].
    1,3: apply IH.
    destruct (IH (queueBlock st block) (order ++ [mb_hash block])) as [added ->].
    exists (mb_hash block :: added). by rewrite <- app_assoc.
Qed.

(** X18: the end of a turn, on an engine that is switched on and given
    messages.  The blocks of the turn are queued and the cache is then cut
    back to 2000 entries: it ends with the 2000 keys set last, or all of
    them when there are fewer, each with the entry it had, and its order
    still lists its keys once each.  The keys deleted are the oldest, and
    the cache file is written only when some were deleted. *)
Theorem turn_end_bounds_the_cache st order messages :
  ordersCache (st, order) →
  enabled (config st) = true → messages ≠ [] →
  let queued := foldl queueBlockOrdered (st, order)
                  (groupMessagesIntoBlocks (config st) messages) in
  let so' := agentEnd (st, order) messages in
  fst queued = queueBlocks st (groupMessagesIntoBlocks (config st) messages)
  ∧ (∃ added, snd queued = order ++ added)
  ∧ ordersCache so'
  ∧ size (messageCache (fst so')) = Nat.min (length (snd queued)) MAX_CACHE_SIZE
  ∧ snd so' = drop (length (snd queued) - MAX_CACHE_SIZE) (snd queued)
  ∧ (∀ hash, hash ∈ snd so' →
       messageCache (fst so') !! hash = messageCache (fst queued) !! hash)
  ∧ (∀ hash, hash ∈ take (length (snd queued) - MAX_CACHE_SIZE) (snd queued) →
       messageCache (fst so') !! hash = None)
  ∧ (length (snd queued) ≤ MAX_CACHE_SIZE → so' = queued)
  ∧ (MAX_CACHE_SIZE < length (snd queued) →
       cacheFile (fst so') = Some (messageCache (fst so'))).
Proof.
  intros Hord Hon Hmsgs. simpl. unfold agentEnd. rewrite Hon. simpl.
  assert (nonempty messages = true) as -> by (by destruct messages). simpl.
  pose proof (queueBlocksOrdered_orders (groupMessagesIntoBlocks (config st) messages)
                (st, order) Hord) as Hq.
  split; [apply queueBlocksOrdered_fst |].
  split; [apply queueBlocksOrdered_snd |].
  destruct (foldl queueBlockOrdered (st, order) _) as [st1 order1] eqn:Hfold.
  apply (cleanupCache_spec st1 order1 Hq).
Qed.

End TurnEndTheorems.

Section RoutingTheorems.
Import Routing.

Lemma hasNoSlash_cons c s : hasNoSlash (String c s) → c ≠ "/"%char ∧ hasNoSlash s.
Proof.
  intros Hno. split.
  - intros ->. by apply (Hno 0).
  - intros n. apply (Hno (S n)).
Qed.

Lemma splitOn_nonempty sep s : splitOn sep s ≠ [].
Proof.
  induction s as [|c s IH]; simpl; [done |].
  destruct (Ascii.eqb c sep); [done |]. by destruct (splitOn sep s).
Qed.

Lemma splitOn_plain s : hasNoSlash s → splitOn "/" s = [s].
Proof.
  induction s as [|c s IH]; [done |].
  intros [Hc Hs]%hasNoSlash_cons. simpl.
  apply Ascii.eqb_neq in Hc. rewrite Hc, IH by done. done.
Qed.

Lemma splitOn_slash p rest :
  hasNoSlash p → splitOn "/" (p +:+ slash +:+ rest) = p :: splitOn "/" rest.
Proof.
  induction p as [|c p IH]; [done |].
  intros [Hc Hp]%hasNoSlash_cons. rewrite append_cons. simpl.
  apply Ascii.eqb_neq in Hc. rewrite Hc, IH by done. done.
Qed.

(** Splitting and joining again gives the string back. *)
Lemma join_splitOn s : Str.join slash (splitOn "/" s) = s.
Proof.
  induction s as [|c s IH]; [done |]. simpl.
  destruct (Ascii.eqb c "/") eqn:Hc.
  - apply Ascii.eqb_eq in Hc as ->.
    rewrite join_cons by apply splitOn_nonempty. by rewrite IH.
  - pose proof (splitOn_nonempty "/" s) as Hne.
    destruct (splitOn "/" s) as [|part parts]; [done |].
    destruct parts as [|part' parts].
    + simpl in *. by rewrite IH.
    + rewrite join_cons by done. rewrite join_cons in IH by done.
      rewrite append_cons. by rewrite IH.
Qed.

Lemma splitOn_head_noSlash s : hasNoSlash (hd "" (splitOn "/" s)).
Proof.
  induction s as [|c s IH]; simpl.
  - by intros [|n].
  - destruct (Ascii.eqb c "/") eqn:Hc; [by intros [|n] |].
    apply Ascii.eqb_neq in Hc.
    pose proof (splitOn_nonempty "/" s) as Hne.
    destruct (splitOn "/" s) as [|part parts]; [done |]. simpl in *.
    intros [|n]; simpl; [congruence | apply IH].
Qed.

Lemma orElse_nonEmpty s fallback : fallback ≠ "" → orElse s fallback ≠ "".
Proof. unfold orElse. by destruct s. Qed.

Lemma orElse_keep s fallback : s ≠ "" → orElse s fallback = s.
Proof. unfold orElse. by destruct s. Qed.

(** X19: reading a model string.  [provider/model] gives back the
    provider and the model id, slashes inside the id included; the empty
    string gives the default pair; a name without a slash is taken for a
    provider with the default model id; a string that starts with the
    slash gets the default provider.  Neither part is ever empty, and when
    there is no registry function, or it throws, the object built carries
    exactly these two parts. *)
Theorem model_string_round_trip :
  (∀ provider modelId,
     provider ≠ "" → hasNoSlash provider → modelId ≠ "" →
     parseModelString (provider +:+ slash +:+ modelId) = (provider, modelId))
  ∧ parseModelString "" = ("anthropic", "claude-haiku-4-5")
  ∧ (∀ name, name ≠ "" → hasNoSlash name →
       parseModelString name = (name, "claude-haiku-4-5"))
  ∧ (∀ modelId, modelId ≠ "" →
       parseModelString (slash +:+ modelId) = ("anthropic", modelId))
  ∧ (∀ modelString,
       fst (parseModelString modelString) ≠ ""
       ∧ snd (parseModelString modelString) ≠ ""
       ∧ hasNoSlash (fst (parseModelString modelString)))
  ∧ (∀ getModel modelString,
       (getModel = None ∨ ∃ lookup, getModel = Some lookup
          ∧ lookup (fst (parseModelString modelString))
                   (snd (parseModelString modelString)) = None) →
       mo_provider (buildModelObject getModel modelString)
       = fst (parseModelString modelString)
       ∧ mo_id (buildModelObject getModel modelString)
         = snd (parseModelString modelString)).
Proof.
  split; [|split; [|split; [|split; [|split]]]].
  - intros provider modelId Hp Hslash Hm. unfold parseModelString.
    assert (provider +:+ slash +:+ modelId ≠ "") as Hne.
    { destruct provider; [done | by rewrite append_cons]. }
    rewrite (orElse_keep _ _ Hne), splitOn_slash by done. cbn [hd tl].
    rewrite join_splitOn.
    by rewrite (orElse_keep provider), (orElse_keep modelId) by done.
  - reflexivity.
  - intros name Hne Hslash. unfold parseModelString.
    rewrite (orElse_keep _ _ Hne), splitOn_plain by done. cbn [hd tl].
    by rewrite (orElse_keep name) by done.
  - intros modelId Hm. unfold parseModelString.
    rewrite (orElse_keep (slash +:+ modelId)) by (unfold slash; by rewrite append_cons).
    change (slash +:+ modelId) with ("" +:+ slash +:+ modelId).
    rewrite (splitOn_slash "" modelId) by (by intros [|n]). cbn [hd tl].
    rewrite join_splitOn. by rewrite (orElse_keep modelId) by done.
  - intros modelString. unfold parseModelString. simpl.
    split; [by apply orElse_nonEmpty |]. split; [by apply orElse_nonEmpty |].
    set (parts := splitOn "/" _).
    unfold orElse at 1. destruct (Str.nonEmpty (hd "" parts)) eqn:Hhd.
    + apply splitOn_head_noSlash.
    + intros n. do 9 (destruct n as [|n]; [done |]). done.
  - intros getModel modelString Hlookup. unfold buildModelObject.
    destruct (parseModelString modelString) as [provider modelId]. simpl in *.
    destruct Hlookup as [->|(lookup & -> & ->)]; done.
Qed.

(** ** Keys *)

Lemma truthy_nonEmpty s k : truthy s = Some k → k = s ∧ k ≠ "".
Proof. unfold truthy. destruct s; [done |]. by intros [= <-]. Qed.

Lemma scanProfiles_nonEmpty provider profiles k :
  scanProfiles provider profiles = Some k → k ≠ "".
Proof.
  induction profiles as [|[name profile] rest IH]; simpl; [done |].
  destruct (includes name provider && Str.nonEmpty (profileToken profile)) eqn:Hhit; [|done].
  apply andb_true_iff in Hhit as [_ Hne]. intros [= <-]. by destruct (profileToken profile).
Qed.

Lemma scanCredentials_nonEmpty provider files k :
  scanCredentials provider files = Some (Some k) → k ≠ "".
Proof.
  induction files as [|[name file] rest IH]; simpl; [done |].
  destruct (includes name provider && endsWith name ".json"); [|done].
  destruct file as [| |tok]; [done | done |].
  destruct (Str.nonEmpty tok) eqn:Hne; [|done]. intros [= <-]. by destruct tok.
Qed.

Lemma resolveApiKeyForProvider_nonEmpty m provider k :
  resolveApiKeyForProvider m provider = Some k → k ≠ "".
Proof.
  unfold resolveApiKeyForProvider.
  destruct (match envMap _ with Some _ => _ | None => _ end) as [value|] eqn:Henv.
  { intros [= <-]. destruct (envMap _); [|done].
    destruct (environment m !! _); [|done]. by apply truthy_nonEmpty in Henv as [_ ?]. }
  destruct (authProfiles m) as [| |[profiles|]]; try done.
  - destruct (credentials m) as [| |files]; try done.
    destruct (scanCredentials _ files) as [[found|]|] eqn:Hscan; try done.
    intros [= <-]. by apply scanCredentials_nonEmpty in Hscan.
  - destruct (scanProfiles _ profiles) eqn:Hprof.
    + intros [= <-]. by apply scanProfiles_nonEmpty in Hprof.
    + destruct (credentials m) as [| |files]; try done.
      destruct (scanCredentials _ files) as [[found|]|] eqn:Hscan; try done.
      intros [= <-]. by apply scanCredentials_nonEmpty in Hscan.
  - destruct (credentials m) as [| |files]; try done.
    destruct (scanCredentials _ files) as [[found|]|] eqn:Hscan; try done.
    intros [= <-]. by apply scanCredentials_nonEmpty in Hscan.
Qed.

(** X20: where a key comes from.  A key that is found is never empty.  A
    key set in the environment for Anthropic, OpenAI or Google wins over
    every file.  Without a provider name the lookup is the one for
    Anthropic.  And a profile file that does not parse ends the lookup
    with no key, whatever the credentials directory holds; so does a
    matching credentials file that does not parse, whatever follows it. *)
Theorem api_key_lookup m :
  (∀ provider k, resolveApiKeyForProvider m provider = Some k → k ≠ "")
  ∧ (∀ provider variable value,
       envMap provider = Some variable →
       environment m !! variable = Some value → value ≠ "" →
       resolveApiKeyForProvider m provider = Some value)
  ∧ resolveApiKeyForProvider m "" = resolveApiKeyForProvider m "anthropic"
  ∧ (∀ provider,
       (∀ variable, envMap (orElse provider "anthropic") = Some variable →
          environment m !! variable = None) →
       authProfiles m = Failing →
       resolveApiKeyForProvider m provider = None)
  ∧ (∀ provider name rest,
       (∀ variable, envMap (orElse provider "anthropic") = Some variable →
          environment m !! variable = None) →
       authProfiles m = Absent →
       credentials m = Content ((name, Failing) :: rest) →
       includes name (orElse provider "anthropic") = true → endsWith name ".json" = true →
       resolveApiKeyForProvider m provider = None).
Proof.
  split; [apply resolveApiKeyForProvider_nonEmpty |].
  split; [|split; [done |split]].
  - intros provider variable value Hvar Henv Hne. unfold resolveApiKeyForProvider.
    assert (orElse provider "anthropic" = provider) as ->.
    { unfold orElse. by destruct provider. }
    rewrite Hvar, Henv. unfold truthy. by destruct value.
  - intros provider Henv Hauth. unfold resolveApiKeyForProvider.
    destruct (envMap _) as [variable|]; [rewrite (Henv variable eq_refl) |];
      by rewrite Hauth.
  - intros provider name rest Henv Hauth Hcred Hname Hjson.
    unfold resolveApiKeyForProvider.
    destruct (envMap _) as [variable|]; [rewrite (Henv variable eq_refl) |];
      rewrite Hauth, Hcred; simpl; by rewrite Hname, Hjson.
Qed.

(** ** Routing *)

Lemma firstWithKey_spec m models routed :
  firstWithKey m models = Some routed →
  r_routed routed = true ∧ r_provider routed ≠ "anthropic"
  ∧ ∃ k, r_apiKey routed = Some k ∧ k ≠ ""
         ∧ resolveApiKeyForProvider m (r_provider routed) = Some k
         ∧ (r_provider routed, r_model routed) ∈ models.
Proof.
  induction models as [|[prov model] rest IH]; simpl; [done |].
  destruct (String.eqb prov "anthropic") eqn:Hanth.
  - intros (Hr & Hp & k & Hk & Hne & Hres & Hin)%IH.
    split; [done |]. split; [done |]. exists k. repeat split; try done.
    apply elem_of_cons. by right.
  - apply String.eqb_neq in Hanth.
    destruct (resolveApiKeyForProvider m prov) as [apiKey|] eqn:Hkey.
    + intros [= <-]. simpl. split; [done |]. split; [done |].
      exists apiKey. repeat split; try done.
      * by apply resolveApiKeyForProvider_nonEmpty in Hkey.
      * apply elem_of_cons. by left.
    + intros (Hr & Hp & k & Hk & Hne & Hres & Hin)%IH.
      split; [done |]. split; [done |]. exists k. repeat split; try done.
      apply elem_of_cons. by right.
Qed.

(** X21: routing of a background call.  A call that is not routed goes
    to the configured compression model with the resolved key, under the
    name of Anthropic; that is every call when camouflage or its traffic
    segregation is off, and every call of another type than compression
    or narrative.  A call that is routed carries a key that is not empty
    and that the lookup gives for its provider; the provider is the
    preferred one, or a provider other than Anthropic taken from the
    background models.  So with a resolved key that is not empty the
    routing never comes back without a key. *)
Theorem routing_of_background_calls m cam compressionModel resolvedApiKey callType :
  let routing := resolveCamouflageModel m cam compressionModel resolvedApiKey callType in
  (r_routed routing = false →
     r_model routing = compressionModel ∧ r_apiKey routing = resolvedApiKey
     ∧ r_provider routing = "anthropic")
  ∧ (cam_enabled cam = false ∨ trafficSegregation cam = false
     ∨ (callType ≠ "compression" ∧ callType ≠ "narrative") →
     r_routed routing = false)
  ∧ (r_routed routing = true →
     ∃ k, r_apiKey routing = Some k ∧ k ≠ ""
          ∧ resolveApiKeyForProvider m (r_provider routing) = Some k
          ∧ (r_provider routing = preferredBackgroundProvider cam
             ∨ (r_provider routing ≠ "anthropic"
                ∧ (r_provider routing, r_model routing) ∈ backgroundModels cam)))
  ∧ (∀ k, resolvedApiKey = Some k → k ≠ "" →
       ∃ k', r_apiKey routing = Some k' ∧ k' ≠ "").
Proof.
  unfold resolveCamouflageModel.
  set (direct := {| r_model := compressionModel; r_apiKey := resolvedApiKey;
                    r_provider := "anthropic"; r_routed := false |}).
  set (shouldRoute := _ && _ && _).
  set (preferredRoute :=
         match lookupModel (backgroundModels cam) (preferredBackgroundProvider cam) with
         | Some modelStr => _
         | None => None
         end).
  assert (∀ routed, preferredRoute = Some routed →
            r_routed routed = true
            ∧ r_provider routed = preferredBackgroundProvider cam
            ∧ ∃ k, r_apiKey routed = Some k ∧ k ≠ ""
                   ∧ resolveApiKeyForProvider m (r_provider routed) = Some k) as Hpref.
  { subst preferredRoute. intros routed.
    destruct (lookupModel _ _) as [modelStr|]; [|done].
    destruct (resolveApiKeyForProvider m _) as [apiKey|] eqn:Hkey; [|done].
    intros [= <-]. simpl. split; [done |]. split; [done |].
    exists apiKey. repeat split; try done.
    by apply resolveApiKeyForProvider_nonEmpty in Hkey. }
  simpl. split; [|split; [|split]].
  - destruct (negb shouldRoute); [done |].
    destruct preferredRoute as [routed|] eqn:Hp.
    { destruct (Hpref routed eq_refl) as (Hr & _). congruence. }
    destruct (firstWithKey m (backgroundModels cam)) as [routed|] eqn:Hf; [|done].
    apply firstWithKey_spec in Hf as (Hr & _). congruence.
  - intros Hoff.
    assert (shouldRoute = false) as ->; [|done].
    subst shouldRoute. destruct Hoff as [-> | [-> | [Hc Hn]]]; [done | |].
    + by rewrite andb_false_r.
    + apply String.eqb_neq in Hc, Hn. rewrite Hc, Hn. simpl. by rewrite andb_false_r.
  - destruct (negb shouldRoute); [done |].
    destruct preferredRoute as [routed|] eqn:Hp.
    { destruct (Hpref routed eq_refl) as (Hr & Hprov & k & Hk & Hne & Hres).
      intros _. exists k. repeat split; try done. by left. }
    destruct (firstWithKey m (backgroundModels cam)) as [routed|] eqn:Hf; [|done].
    apply firstWithKey_spec in Hf as (Hr & Hprov & k & Hk & Hne & Hres & Hin).
    intros _. exists k. repeat split; try done. by right.
  - intros k -> Hne.
    destruct (negb shouldRoute); [by exists k |].
    destruct preferredRoute as [routed|] eqn:Hp.
    { destruct (Hpref routed eq_refl) as (_ & _ & k' & Hk & Hne' & _). by exists k'. }
    destruct (firstWithKey m (backgroundModels cam)) as [routed|] eqn:Hf; [|by exists k].
    apply firstWithKey_spec in Hf as (_ & _ & k' & Hk & Hne' & _). by exists k'.
Qed.

End RoutingTheorems.

(** * The gateway lifecycle guard: proofs *)

Section GuardProofs.
Import Guard.

Lemma append_nil_l (s : string) : "" +:+ s = s.
Proof. reflexivity. Qed.

Lemma append_eq_nil (s1 s2 : string) : s1 +:+ s2 = "" → s1 = "" ∧ s2 = "".
Proof.
  destruct s1 as [|c s1]; [intros Heq; split; [done | exact Heq] |].
  by rewrite append_cons.
Qed.

Lemma nullable_spec r : nullable r = true ↔ Lang r "".
Proof.
  induction r as [| | c | p | r1 IH1 r2 IH2 | r1 IH1 r2 IH2 | r IH]; simpl.
  - split; [done | inversion 1].
  - split; [constructor | done].
  - split; [done | inversion 1].
  - split; [done | inversion 1].
  - rewrite andb_true_iff, IH1, IH2. split.
    + intros [H1 H2]. by apply (LangSeq r1 r2 "" "").
    + inversion 1 as [| | |? ? s1 s2 H1 H2 [Hr1 Hr2] Hs| | | |]; subst.
      apply append_eq_nil in Hs as [-> ->]. done.
  - rewrite orb_true_iff, IH1, IH2. split.
    + intros [H1|H2]; [by apply LangAltL | by apply LangAltR].
    + inversion 1; subst; auto.
  - split; [constructor | done].
Qed.

(** A non-empty word of [Star r] starts with a non-empty word of [r]. *)
Lemma star_cons r c s :
  Lang (Star r) (String c s) →
  ∃ s1 s2, s = s1 +:+ s2 ∧ Lang r (String c s1) ∧ Lang (Star r) s2.
Proof.
  intros HL. remember (Star r) as r' eqn:Hr. remember (String c s) as w eqn:Hw.
  revert c s Hw.
  induction HL as [|a|p a Hp|ra rb sa sb Ha _ Hb _|ra rb sa Ha _|ra rb sa Ha _
                  |ra|ra sa sb Ha _ Hb IHb]; intros c s Hw; try done.
  injection Hr as ->.
  destruct sa as [|c1 sa].
  - rewrite append_nil_l in Hw. by apply IHb.
  - rewrite append_cons in Hw. injection Hw as -> <-. eauto.
Qed.

Lemma deriv_spec c r : ∀ s, Lang (deriv c r) s ↔ Lang r (String c s).
Proof.
  induction r as [| | d | p | r1 IH1 r2 IH2 | r1 IH1 r2 IH2 | r IH]; intros s; simpl.
  - split; inversion 1.
  - split; inversion 1.
  - destruct (Ascii.eqb c d) eqn:Hcd.
    + apply Ascii.eqb_eq in Hcd as ->. split.
      * inversion 1; subst. constructor.
      * inversion 1; subst. constructor.
    + apply Ascii.eqb_neq in Hcd. split; inversion 1; subst. done.
  - destruct (p c) eqn:Hp.
    + split.
      * inversion 1; subst. by constructor.
      * inversion 1; subst. constructor.
    + split; inversion 1; subst. congruence.
  - assert (Lang (Seq (deriv c r1) r2) s → Lang (Seq r1 r2) (String c s)) as Hfirst.
    { inversion 1 as [| | |? ? s1 s2 H1 H2| | | |]; subst.
      apply IH1 in H1. rewrite <- append_cons. by constructor. }
    assert (Lang (Seq r1 r2) (String c s) →
            Lang (Seq (deriv c r1) r2) s ∨ (Lang r1 "" ∧ Lang r2 (String c s))) as Hinv.
    { inversion 1 as [| | |? ? s1 s2 H1 H2 [Hr1 Hr2] Hs| | | |]; subst.
      destruct s1 as [|c1 s1].
      - rewrite append_nil_l in Hs. subst. auto.
      - rewrite append_cons in Hs. injection Hs as -> <-.
        left. constructor; [by apply IH1 | done]. }
    destruct (nullable r1) eqn:Hn.
    + apply nullable_spec in Hn. split.
      * inversion 1; subst; [auto |].
        rewrite <- (append_nil_l (String c s)). constructor; [done | by apply IH2].
      * intros [H1|[_ H2]]%Hinv; [by apply LangAltL |].
        apply LangAltR. by apply IH2.
    + split; [done |].
      intros [H1|[Hnull _]]%Hinv; [done |].
      apply nullable_spec in Hnull. congruence.
  - split.
    + inversion 1; subst; [apply LangAltL; by apply IH1 | apply LangAltR; by apply IH2].
    + inversion 1; subst; [apply LangAltL; by apply IH1 | apply LangAltR; by apply IH2].
  - split.
    + inversion 1 as [| | |? ? s1 s2 H1 H2| | | |]; subst.
      apply IH in H1. rewrite <- append_cons. by constructor.
    + intros (s1 & s2 & -> & H1 & H2)%star_cons.
      constructor; [by apply IH | done].
Qed.

(** [matchesPrefix] finds the words of the pattern at the head of the
    line, [test] anywhere in it. *)
Lemma matchesPrefix_spec s : ∀ r,
  matchesPrefix r s = true ↔ ∃ word rest, s = word +:+ rest ∧ Lang r word.
Proof.
  induction s as [|c s IH]; intros r; simpl.
  - rewrite orb_false_r, nullable_spec. split.
    + intros Hn. by exists "", "".
    + intros (word & rest & Heq & HL). symmetry in Heq.
      apply append_eq_nil in Heq as [-> _]. done.
  - rewrite orb_true_iff, nullable_spec, IH. split.
    + intros [Hn|(word & rest & -> & HL)].
      * by exists "", (String c s).
      * exists (String c word), rest. split; [by rewrite append_cons |].
        by apply deriv_spec.
    + intros (word & rest & Heq & HL). destruct word as [|c' word].
      * by left.
      * rewrite append_cons in Heq. injection Heq as <- ->.
        right. exists word, rest. split; [done |]. by apply deriv_spec.
Qed.

Lemma test_spec r s :
  test r s = true ↔ ∃ before word after, s = before +:+ word +:+ after ∧ Lang r word.
Proof.
  induction s as [|c s IH]; cbn [test].
  - rewrite orb_false_r, matchesPrefix_spec. split.
    + intros (word & rest & Heq & HL). by exists "", word, rest.
    + intros (before & word & after & Heq & HL). symmetry in Heq.
      apply append_eq_nil in Heq as [_ Heq]. apply append_eq_nil in Heq as [-> _].
      by exists "", "".
  - rewrite orb_true_iff, matchesPrefix_spec, IH. split.
    + intros [(word & rest & Heq & HL)|(before & word & after & -> & HL)].
      * by exists "", word, rest.
      * exists (String c before), word, after. by rewrite append_cons.
    + intros (before & word & after & Heq & HL). destruct before as [|c' before].
      * left. by exists word, after.
      * rewrite append_cons in Heq. injection Heq as <- ->.
        right. by exists before, word, after.
Qed.

(** ** Lines and trimming *)

Lemma firstLine_idem s : firstLine (firstLine s) = firstLine s.
Proof.
  induction s as [|c s IH]; simpl; [done |].
  destruct (Ascii.eqb c "010") eqn:Hc; [done |]. simpl. by rewrite Hc, IH.
Qed.

Lemma firstLine_app_newline s rest :
  hasNoNewline s → firstLine (s +:+ Str.nl +:+ rest) = s.
Proof.
  unfold hasNoNewline. induction s as [|c s IH]; [done |].
  rewrite append_cons. simpl. destruct (Ascii.eqb c "010"); [done |].
  intros [= Hs]. by rewrite IH.
Qed.

Lemma trimEnd_head c s : isSpace c = false → ∃ s', trimEnd (String c s) = String c s'.
Proof. intros Hc. simpl. rewrite Hc. destruct (trimEnd s); eauto. Qed.

Lemma trimStart_head s :
  match trimStart s with
  | EmptyString => True
  | String c _ => isSpace c = false
  end.
Proof.
  induction s as [|c s IH]; simpl; [done |].
  destruct (isSpace c) eqn:Hc; [done | by simpl].
Qed.

(** A trimmed command does not start with white space, so its first line
    is empty only when the command is. *)
Lemma trim_head s :
  match trim s with
  | EmptyString => True
  | String c _ => isSpace c = false
  end.
Proof.
  unfold trim. pose proof (trimStart_head s) as Hs.
  destruct (trimStart s) as [|c s']; [done |].
  destruct (trimEnd_head c s' Hs) as [kept ->]. done.
Qed.

Lemma firstLine_nonEmpty s :
  Str.nonEmpty (trim s) = Str.nonEmpty (firstLine (trim s)).
Proof.
  pose proof (trim_head s) as Hs. destruct (trim s) as [|c s']; [done |].
  simpl. destruct (Ascii.eqb c "010") eqn:Hc; [|done].
  apply Ascii.eqb_eq in Hc. subst c. by vm_compute in Hs.
Qed.

Lemma matchesAny_firstLine command patterns :
  matchesAny (firstLine command) patterns = matchesAny command patterns.
Proof. unfold matchesAny. by rewrite firstLine_idem. Qed.

(** ** What the patterns accept *)

Lemma Lang_lit w : Lang (lit w) w.
Proof.
  induction w as [|c w IH]; simpl; [constructor |].
  change (String c w) with (String c "" +:+ w). constructor; [constructor | done].
Qed.

Lemma Lang_lit_inv w s : Lang (lit w) s → s = w.
Proof.
  revert s. induction w as [|c w IH]; intros s; simpl.
  - by inversion 1.
  - inversion 1 as [| | |? ? s1 s2 H1 H2| | | |]; subst.
    inversion H1; subst. rewrite append_cons. f_equal. by apply IH.
Qed.

Lemma Lang_star_cls p s :
  (∀ n c, String.get n s = Some c → p c = true) → Lang (Star (Cls p)) s.
Proof.
  induction s as [|c s IH]; intros Hall; [constructor |].
  change (String c s) with (String c "" +:+ s). constructor.
  - constructor. by apply (Hall 0).
  - apply IH. intros n d Hn. by apply (Hall (S n)).
Qed.

Lemma Lang_spaces s : allSpace s → Lang spaces s.
Proof.
  intros [Hne Hall]. destruct s as [|c s]; [done |].
  change (String c s) with (String c "" +:+ s). constructor.
  - constructor. by apply (Hall 0).
  - apply Lang_star_cls. intros n d Hn. by apply (Hall (S n)).
Qed.

Lemma Lang_anything s : noLineBreak s → Lang anything s.
Proof. apply Lang_star_cls. Qed.

Lemma test_found r before word after :
  Lang r word → test r (before +:+ word +:+ after) = true.
Proof. intros HL. apply test_spec. by exists before, word, after. Qed.

Lemma Lang_gatewayCommand verb ws1 ws2 :
  allSpace ws1 → allSpace ws2 →
  Lang (gatewayCommand verb) ("openclaw" +:+ ws1 +:+ "gateway" +:+ ws2 +:+ verb).
Proof.
  intros H1 H2. unfold gatewayCommand.
  repeat (constructor; [first [apply Lang_lit | by apply Lang_spaces] |]).
  apply Lang_lit.
Qed.

Ltac seq_inv H :=
  let s1 := fresh "s" in let s2 := fresh "s" in
  let H1 := fresh "Hw" in let H2 := fresh "Hw" in
  inversion H as [| | |? ? s1 s2 H1 H2| | | |]; subst; clear H.

Lemma pattern_mentions_openclaw p word :
  p ∈ STOP_PATTERNS ++ START_PATTERNS → Lang p word → mentionsOpenclaw word.
Proof.
  intros Hp HL. unfold mentionsOpenclaw.
  assert (∀ verb w, Lang (gatewayCommand verb) w →
            ∃ before after, w = before +:+ "openclaw" +:+ after) as Hgw.
  { intros verb w Hw. unfold gatewayCommand in Hw. seq_inv Hw.
    apply (Lang_lit_inv "openclaw") in Hw0 as ->. by exists "", s0. }
  assert (∀ r w, Lang (Seq r (lit "openclaw")) w →
            ∃ before after, w = before +:+ "openclaw" +:+ after) as Hend.
  { intros r w Hw. seq_inv Hw. apply (Lang_lit_inv "openclaw") in Hw1 as ->.
    exists s, "". by rewrite append_nil_r. }
  assert (∀ r w, (∀ w', Lang r w' → ∃ before after, w' = before +:+ "openclaw" +:+ after) →
            ∀ r0, Lang (Seq r0 r) w →
            ∃ before after, w = before +:+ "openclaw" +:+ after) as Hskip.
  { intros r w Hr r0 Hw. seq_inv Hw.
    destruct (Hr _ Hw1) as (before & after & ->).
    exists (s +:+ before), after. by rewrite append_assoc. }
  unfold STOP_PATTERNS, START_PATTERNS in Hp. simpl in Hp.
  repeat (apply elem_of_cons in Hp as [->|Hp]).
  - by apply (Hgw "stop").
  - by apply (Hgw "restart").
  - eapply Hskip; [|exact HL]. intros w'. apply Hend.
  - eapply Hskip; [|exact HL]. intros w1 H1.
    eapply Hskip; [|exact H1]. intros w2 H2.
    eapply Hskip; [|exact H2]. intros w3. apply Hend.
  - by apply (Hgw "start").
  - eapply Hskip; [|exact HL]. intros w1 H1.
    eapply Hskip; [|exact H1]. intros w2 H2.
    eapply Hskip; [|exact H2]. intros w3. apply Hend.
  - by apply elem_of_nil in Hp.
Qed.

Lemma matchesAny_mentions command patterns :
  (∀ p, p ∈ patterns → p ∈ STOP_PATTERNS ++ START_PATTERNS) →
  matchesAny command patterns = true → mentionsOpenclaw (firstLine command).
Proof.
  intros Hsub. unfold matchesAny.
  intros (p & Hp & Ht)%existsb_exists.
  apply test_spec in Ht as (before & word & after & Heq & HL).
  apply list_elem_of_In, Hsub in Hp.
  destruct (pattern_mentions_openclaw p word Hp HL) as (b & a & ->).
  exists (before +:+ b), (a +:+ after). rewrite Heq.
  by rewrite !append_assoc.
Qed.

(** ** The task state *)

(** X22: a task state that is accepted names a resume method and a
    reason, and its delay lies between 30 and 3600 seconds: a request in
    that range is kept, one above it is cut to 3600, and one below it,
    missing or not a number gives the default of 120 (not the minimum). *)
Theorem task_state_delay_in_range file method seconds reason :
  readTaskState file = Valid method seconds reason →
  (30 ≤ seconds ≤ 3600)%Z
  ∧ method ≠ "" ∧ reason ≠ ""
  ∧ ∃ requested given,
      file = Parsed method requested given
      ∧ (∀ n, requested = Some n → (30 ≤ n ≤ 3600)%Z → seconds = n)
      ∧ (∀ n, requested = Some n → (3600 < n)%Z → seconds = 3600%Z)
      ∧ (∀ n, requested = Some n → (n < 30)%Z → seconds = 120%Z)
      ∧ (requested = None → seconds = 120%Z)
      ∧ (given ≠ "" → reason = given).
Proof.
  destruct file as [| |m requested given]; simpl; [done | done |].
  destruct m as [|c m]; simpl; [done |].
  intros [= <- <- <-].
  assert (∀ n : Z, ((n <? 30) = true ↔ n < 30) ∧ ((3600 <? n) = true ↔ 3600 < n))%Z as Hb.
  { intros n. split; [apply Z.ltb_lt | apply Z.ltb_lt]. }
  split.
  { unfold clampSeconds, MIN_RESUME_SECONDS, MAX_RESUME_SECONDS, DEFAULT_RESUME_SECONDS.
    destruct requested as [n|]; simpl.
    - destruct (n <? 30)%Z eqn:Hlow; simpl; [lia |].
      destruct (3600 <? n)%Z eqn:Hhigh; lia.
    - lia. }
  split; [done |]. split; [by destruct given |].
  exists requested, given. split; [done |].
  unfold clampSeconds, MIN_RESUME_SECONDS, MAX_RESUME_SECONDS, DEFAULT_RESUME_SECONDS.
  repeat split.
  - intros n -> Hn.
    assert ((n <? 30)%Z = false) as -> by lia.
    assert ((3600 <? n)%Z = false) as -> by lia. done.
  - intros n -> Hn.
    assert ((n <? 30)%Z = false) as -> by lia.
    assert ((3600 <? n)%Z = true) as -> by lia. done.
  - intros n -> Hn.
    assert ((n <? 30)%Z = true) as -> by lia. done.
  - by intros ->.
  - by destruct given.
Qed.

(** ** The decisions *)

Lemma beforeToolCall_exec w c :
  beforeToolCall w (exec c)
  = if negb (Str.nonEmpty (trim c)) then (w, Allow)
    else if negb (isStop c) && negb (isStart c) then (w, Allow)
    else if isStop c then
      if maintenance w then (w, Allow)
      else match readTaskState (taskState w) with
           | Invalid => (w, Block stopBlockedReason)
           | Valid resumeMethod resumeAfterSeconds _ =>
               if String.eqb resumeMethod "auto" then
                 let '(w', ok) := scheduleAutoResume w resumeAfterSeconds in
                 if ok then (w', Allow) else (w', Block schedulingFailedReason)
               else (w, Allow)
           end
    else if isStart c && maintenance w then (w, Block maintenanceReason)
    else (w, Allow).
Proof. reflexivity. Qed.

Lemma matchesAny_empty patterns :
  (∀ p, p ∈ patterns → p ∈ STOP_PATTERNS ++ START_PATTERNS) →
  matchesAny "" patterns = false.
Proof.
  intros Hsub. destruct (matchesAny "" patterns) eqn:Hm; [|done].
  apply matchesAny_mentions in Hm as (before & after & Heq); [|done].
  simpl in Heq. symmetry in Heq. apply append_eq_nil in Heq as [_ Heq].
  by rewrite append_cons in Heq.
Qed.

Lemma stop_sub p : p ∈ STOP_PATTERNS → p ∈ STOP_PATTERNS ++ START_PATTERNS.
Proof. intros. apply elem_of_app. by left. Qed.

Lemma start_sub p : p ∈ START_PATTERNS → p ∈ STOP_PATTERNS ++ START_PATTERNS.
Proof. intros. apply elem_of_app. by right. Qed.

Lemma nonEmpty_of_match c patterns :
  (∀ p, p ∈ patterns → p ∈ STOP_PATTERNS ++ START_PATTERNS) →
  matchesAny (trim c) patterns = true → Str.nonEmpty (trim c) = true.
Proof.
  intros Hsub Hm. destruct (trim c) eqn:Ht; [|done].
  by rewrite matchesAny_empty in Hm.
Qed.

(** X23: the guard never lets a stop command through without
    maintenance mode or a plan.  When a command that matches a stop
    pattern is allowed, either the maintenance file exists, or the task
    state is valid; with a method other than [auto] nothing is done, and
    with [auto] the resume script has been written and a resume timer
    started with the delay of the task state, between 30 and 3600
    seconds. *)
Theorem stop_needs_maintenance_or_plan w c w' :
  isStop c = true →
  beforeToolCall w (exec c) = (w', Allow) →
  (maintenance w = true ∧ w' = w)
  ∨ (maintenance w = false
     ∧ ∃ method seconds reason,
         readTaskState (taskState w) = Valid method seconds reason
         ∧ ((method ≠ "auto" ∧ w' = w)
            ∨ (method = "auto" ∧ (30 ≤ seconds ≤ 3600)%Z
               ∧ scriptWritten w' = true
               ∧ scheduled w' = scheduled w ++ [seconds]
               ∧ maintenance w' = maintenance w ∧ taskState w' = taskState w))).
Proof.
  intros Hstop. rewrite beforeToolCall_exec.
  rewrite (nonEmpty_of_match c STOP_PATTERNS stop_sub Hstop), Hstop. cbn [negb andb].
  destruct (maintenance w) eqn:Hm; [intros [= <-]; by left |].
  destruct (readTaskState (taskState w)) as [|method seconds reason] eqn:Hstate; [done |].
  intros Hrun. right. split; [done |]. exists method, seconds, reason. split; [done |].
  destruct (String.eqb method "auto") eqn:Hauto.
  - apply String.eqb_eq in Hauto. right. split; [done |].
    assert (30 ≤ seconds ≤ 3600)%Z as Hrange.
    { destruct (taskState w) as [| |m requested given]; simpl in Hstate; [done | done |].
      destruct (Str.nonEmpty m); [|done]. injection Hstate as _ <- _.
      unfold clampSeconds, MIN_RESUME_SECONDS, MAX_RESUME_SECONDS, DEFAULT_RESUME_SECONDS.
      destruct requested as [n|]; simpl.
      - destruct (n <? 30)%Z eqn:Hlow; simpl; [lia |].
        destruct (3600 <? n)%Z eqn:Hhigh; lia.
      - lia. }
    split; [done |]. unfold scheduleAutoResume in Hrun.
    destruct (scriptWritable w); [|done].
    destruct (spawnWorks w); [|done].
    injection Hrun as <-. simpl. by rewrite Hm.
  - apply String.eqb_neq in Hauto. left. by injection Hrun as <-.
Qed.

(** X24: a stop command without maintenance mode is blocked when there is
    no valid task state, and when the automatic resume cannot be
    scheduled; a blocked stop starts no timer. *)
Theorem stop_without_plan_is_blocked w c :
  isStop c = true → maintenance w = false →
  (readTaskState (taskState w) = Invalid →
     beforeToolCall w (exec c) = (w, Block stopBlockedReason))
  ∧ (∀ seconds reason,
       readTaskState (taskState w) = Valid "auto" seconds reason →
       scriptWritable w = false ∨ spawnWorks w = false →
       snd (beforeToolCall w (exec c)) = Block schedulingFailedReason
       ∧ scheduled (fst (beforeToolCall w (exec c))) = scheduled w).
Proof.
  intros Hstop Hm. rewrite beforeToolCall_exec.
  rewrite (nonEmpty_of_match c STOP_PATTERNS stop_sub Hstop), Hstop, Hm. cbn [negb andb].
  split.
  - by intros ->.
  - intros seconds reason -> Hfail. simpl. unfold scheduleAutoResume.
    destruct (scriptWritable w); [|done].
    destruct (spawnWorks w); [|done]. by destruct Hfail.
Qed.

(** X25: a command that matches a start pattern and no stop pattern is
    blocked exactly when the maintenance file exists; either way the guard
    does nothing else. *)
Theorem start_is_blocked_in_maintenance_only w c :
  isStop c = false → isStart c = true →
  beforeToolCall w (exec c)
  = (w, if maintenance w then Block maintenanceReason else Allow).
Proof.
  intros Hstop Hstart. rewrite beforeToolCall_exec.
  rewrite (nonEmpty_of_match c START_PATTERNS start_sub Hstart), Hstop, Hstart. cbn [negb andb].
  by destruct (maintenance w).
Qed.

(** X26: the guard lets every other call through untouched: a tool other
    than [exec], a call without a command string, and any command whose
    first line, once trimmed, does not hold the word [openclaw]. *)
Theorem guard_passes_other_calls w event :
  toolName event ≠ "exec"
  ∨ command event = None
  ∨ (∃ c, command event = Some c ∧ ¬ mentionsOpenclaw (firstLine (trim c))) →
  beforeToolCall w event = (w, Allow).
Proof.
  unfold beforeToolCall. intros [Hname|[Hnone|(c & Hc & Hno)]].
  - apply String.eqb_neq in Hname. by rewrite Hname.
  - rewrite Hnone. simpl. by destruct (negb _).
  - rewrite Hc. destruct (negb (String.eqb _ _)); [done |].
    destruct (negb (Str.nonEmpty (trim c))); [done |].
    assert (matchesAny (trim c) STOP_PATTERNS = false) as ->.
    { destruct (matchesAny _ _) eqn:Hm; [|done].
      apply matchesAny_mentions in Hm; [done | apply stop_sub]. }
    assert (matchesAny (trim c) START_PATTERNS = false) as ->.
    { destruct (matchesAny _ _) eqn:Hm; [|done].
      apply matchesAny_mentions in Hm; [done | apply start_sub]. }
    done.
Qed.

(** X27: only the first line of the trimmed command is examined: two
    commands with the same first line get the same decision, so a stop
    command on a later line is not seen. *)
Theorem guard_reads_first_line_only w name c1 c2 :
  firstLine (trim c1) = firstLine (trim c2) →
  beforeToolCall w {| toolName := name; command := Some c1 |}
  = beforeToolCall w {| toolName := name; command := Some c2 |}.
Proof.
  intros Hline. unfold beforeToolCall. cbn [toolName command].
  rewrite (firstLine_nonEmpty c1), (firstLine_nonEmpty c2).
  rewrite <- (matchesAny_firstLine (trim c1) STOP_PATTERNS),
    <- (matchesAny_firstLine (trim c2) STOP_PATTERNS),
    <- (matchesAny_firstLine (trim c1) START_PATTERNS),
    <- (matchesAny_firstLine (trim c2) START_PATTERNS).
  by rewrite Hline.
Qed.

(** X28: what the guard recognises.  A line that holds [openclaw],
    [gateway] and [stop] or [restart] separated by white space, or
    [pkill] followed later on the line by [openclaw], is a stop command;
    with [start] in place of [stop] it is a start command. *)
Theorem guard_recognises_gateway_commands command before after ws1 ws2 :
  allSpace ws1 → allSpace ws2 →
  (∀ verb,
     firstLine command
     = before +:+ ("openclaw" +:+ ws1 +:+ "gateway" +:+ ws2 +:+ verb) +:+ after →
     (verb = "stop" ∨ verb = "restart" → matchesAny command STOP_PATTERNS = true)
     ∧ (verb = "start" → matchesAny command START_PATTERNS = true))
  ∧ (∀ between,
       noLineBreak between →
       firstLine command = before +:+ ("pkill" +:+ between +:+ "openclaw") +:+ after →
       matchesAny command STOP_PATTERNS = true).
Proof.
  intros H1 H2. split.
  - intros verb Hline. unfold matchesAny. rewrite Hline.
    pose proof (Lang_gatewayCommand verb ws1 ws2 H1 H2) as HL.
    split.
    + intros [-> | ->]; apply existsb_exists.
      * exists (gatewayCommand "stop"). split; [by left | by apply test_found].
      * exists (gatewayCommand "restart").
        split; [right; by left | by apply test_found].
    + intros ->. apply existsb_exists.
      exists (gatewayCommand "start"). split; [by left | by apply test_found].
  - intros between Hbetween Hline. unfold matchesAny. rewrite Hline.
    apply existsb_exists.
    exists (Seq (lit "pkill") (Seq anything (lit "openclaw"))).
    split; [right; right; by left |].
    apply test_found. constructor; [apply Lang_lit |].
    constructor; [by apply Lang_anything | apply Lang_lit].
Qed.

End GuardProofs.

(** * The model on the sample inputs *)

Section Samples.
#[local] Existing Instance Demo.platform.

(** C1: the turn-completion path separates a tool invocation from its
    result.  With a budget of 20 tokens the turn of a question, a tool
    call and its result (10, 15 and 11 tokens) is cut into three blocks,
    the call and the result apart.  The compaction path, given the same
    three messages as log entries, keeps the call and its result in one
    block. *)
Lemma message_path_splits_tool_pair :
  hasToolUse Demo.callLs = true
  ∧ hasToolResult Demo.lsResult = true
  ∧ map mb_messages (groupMessagesIntoBlocks Demo.cfg Demo.toolTurn)
    = [[Demo.askFiles]; [Demo.callLs]; [Demo.lsResult]]
  ∧ ∃ blocks,
      groupEntriesIntoBlocks Demo.cfg (take 3 Demo.log) 0 = Returned blocks
      ∧ map (λ b, map te_message (eb_entries b)) blocks
        = [[Demo.askFiles]; [Demo.callLs; Demo.lsResult]].
Proof.
  split; [done |]. split; [done |]. split; [by vm_compute |].
  exists (match groupEntriesIntoBlocks Demo.cfg (take 3 Demo.log) 0 with
          | Returned blocks => blocks
          | Threw => []
          end).
  split; by vm_compute.
Qed.

(** On the compaction path the call and the result of the sample log share
    a block. *)
Lemma tool_pairs_stay_together_witness :
  ∃ bs1 b bs2 l1 l2,
    Demo.blocks = bs1 ++ b :: bs2
    ∧ eb_entries b
      = l1 ++ Demo.te 1 "e1" Demo.callLs :: Demo.te 2 "e2" Demo.lsResult :: [] ++ l2
    ∧ ∀ b' e, b' ∈ bs1 ++ bs2 →
        e ∈ [Demo.te 1 "e1" Demo.callLs; Demo.te 2 "e2" Demo.lsResult] →
        e ∉ eb_entries b'.
Proof.
  apply (tool_pairs_stay_together Demo.cfg Demo.log 0 Demo.blocks
           [Demo.te 0 "e0" Demo.askFiles] (Demo.te 1 "e1" Demo.callLs)
           (Demo.te 2 "e2" Demo.lsResult) []
           [Demo.te 3 "e3" Demo.sayOk; Demo.te 4 "e4" Demo.askAlpha;
            Demo.te 5 "e5" Demo.askBeta]).
  - by vm_compute.
  - reflexivity.
  - reflexivity.
  - repeat constructor.
  - constructor.
Defined.

(** A second user-role result after a tool call opens a turn of its own,
    and so a block of its own: the turn grouping looks one message back. *)
Lemma second_user_result_opens_a_turn :
  ∃ blocks,
    groupEntriesIntoBlocks Demo.cfg Demo.twoUserResults 0 = Returned blocks
    ∧ map (λ b, map te_index (eb_entries b)) blocks = [[0; 1]; [2]].
Proof.
  exists (match groupEntriesIntoBlocks Demo.cfg Demo.twoUserResults 0 with
          | Returned blocks => blocks
          | Threw => []
          end).
  split; by vm_compute.
Qed.

(** C2 fails when the walk reaches the overflow only at the last block:
    with the first two blocks of the scenario alone the savings reach 4000
    after two blocks, and one block is swapped. *)
Lemma swap_count_capped_below_walk :
  reachesAt Demo.scenarioCache 4000 (take 2 Demo.scenarioBlocks) 2
  ∧ swapCount Demo.scenarioCache 4000 (take 2 Demo.scenarioBlocks) = 1.
Proof.
  split; [|by vm_compute]. split; [simpl; lia |]. split.
  - apply Z.leb_le. by vm_compute.
  - intros [|[|j]] Hj; [apply Z.ltb_lt; by vm_compute .. | lia].
Qed.

Lemma swap_count_is_capped_walk_witness :
  swapCount Demo.scenarioCache 4000 Demo.scenarioBlocks
  = Nat.min 2 (length Demo.scenarioBlocks - 1).
Proof.
  destruct (swap_count_is_capped_walk Demo.scenarioCache 4000 Demo.scenarioBlocks)
    as (_ & _ & Hreach & _); [lia | done |].
  apply Hreach. split; [simpl; lia |]. split.
  - apply Z.leb_le. by vm_compute.
  - intros [|[|j]] Hj; [apply Z.ltb_lt; by vm_compute .. | lia].
Defined.

(** A round on the sample log: three of the four eligible blocks are
    swapped and the last question stays raw. *)
Lemma most_recent_block_stays_raw_witness :
  0 < swapCount (messageCache Demo.state) (overflowOf Demo.state Demo.event)
        (eligibleBlocks Demo.state Demo.event)
    < length (eligibleBlocks Demo.state Demo.event)
  ∧ drop 3 (eligibleBlocks Demo.state Demo.event) = [Demo.lastQuestion].
Proof.
  destruct (most_recent_block_stays_raw Demo.state Demo.event) as [Hrun _].
  destruct (handleBeforeCompact Demo.state Demo.event) as [st' r] eqn:Hhandle.
  assert (∃ c, r = Compact c) as [c ->].
  { apply (f_equal snd) in Hhandle. vm_compute in Hhandle. subst r. eauto. }
  destruct (Hrun st' c eq_refl) as (Hk & _). split; [exact Hk | by vm_compute].
Defined.

(** C3 fails when the last message is hard-split.  The answer of the
    sample exchange is cut into two fragment blocks, each carrying that
    entry; the round swaps the question and the first fragment, so a
    swapped block holds the last entry of the span, and the host resumes
    at that same entry. *)
Lemma swapped_fragment_holds_last_entry :
  ∃ st' c swapped,
    handleBeforeCompact Demo.state Demo.longRequest = (st', Compact c)
    ∧ firstKeptEntryId c = "a1"
    ∧ last (spanEntries (branchEntries Demo.longRequest)
              (startIndexOf (branchEntries Demo.longRequest)))
      = Some (Demo.te 1 "a1" Demo.longAnswer)
    ∧ take (swapCount (messageCache Demo.state) (overflowOf Demo.state Demo.longRequest)
              (eligibleBlocks Demo.state Demo.longRequest))
        (eligibleBlocks Demo.state Demo.longRequest) !! 1 = Some swapped
    ∧ eb_entries swapped = [Demo.te 1 "a1" Demo.longAnswer].
Proof.
  destruct (handleBeforeCompact Demo.state Demo.longRequest) as [st' r] eqn:Hhandle.
  apply (f_equal snd) in Hhandle. vm_compute in Hhandle. subst r.
  eexists st', _, _. split; [reflexivity |]. split; [reflexivity |].
  split; [by vm_compute |]. split; [by vm_compute | reflexivity].
Qed.

(** C4 fails both ways: a block long enough to compress is archived but
    gets no cache entry, and without a provider nothing is archived. *)
Lemma background_queue_does_not_compress :
  messageCache
    (queueBlock Demo.state (finalizeBlock [Demo.askFiles])) !! mb_hash (finalizeBlock [Demo.askFiles])
  = None
  ∧ rawArchive (queueBlock Demo.state (finalizeBlock [Demo.askFiles]))
      !! (mb_hash (finalizeBlock [Demo.askFiles]) +:+ ".md")
    = Some (mb_text (finalizeBlock [Demo.askFiles]))
  ∧ rawArchive (queueBlock Demo.noProvider (finalizeBlock [Demo.askFiles])) = ∅.
Proof. by vm_compute. Qed.

(** C5 fails on a span of two blocks: the block texts put end to end are
    neither the text of the span nor the entry texts put end to end. *)
Lemma block_texts_do_not_concatenate_to_span :
  ∃ blocks,
    groupEntriesIntoBlocks Demo.cfg Demo.chat 0 = Returned blocks
    ∧ length blocks = 2
    ∧ Str.cat (map eb_text blocks) ≠ spanText Demo.chat 0
    ∧ Str.cat (map eb_text blocks) ≠ Str.cat (map entryText (spanEntries Demo.chat 0)).
Proof.
  exists (match groupEntriesIntoBlocks Demo.cfg Demo.chat 0 with
          | Returned blocks => blocks
          | Threw => []
          end).
  split; [by vm_compute |]. split; [by vm_compute |].
  split; intros Heq; vm_compute in Heq; discriminate.
Qed.




(** C9 fails with the engine switched off: no provider, and the handler
    returns nothing rather than a cancellation. *)
Lemma switched_off_engine_does_not_cancel :
  capabilityUnavailable Demo.switchedOff = true
  ∧ snd (handleBeforeCompact Demo.switchedOff Demo.event) = Undefined.
Proof. by vm_compute. Qed.

Lemma capability_unavailable_cancels_witness :
  handleBeforeCompact Demo.noProvider Demo.event = (Demo.noProvider, Cancel).
Proof.
  by apply (capability_unavailable_cancels Demo.noProvider Demo.event eq_refl).
Defined.


(** The payload of the sample round: the three swapped blocks, and no
    trace of the "ok" between them. *)
Lemma sample_round_payload :
  snd (handleBeforeCompact Demo.state Demo.event)
  = Compact
      {| summary :=
           compressedContent
             [ {| he_compressed :=
                    Str.join blockSep
                      [ "[Human]:" +:+ Str.nl +:+ "lis";
                        eb_text Demo.toolBlock;
                        "[Human]:" +:+ Str.nl +:+ "now" ];
                  he_tokensRaw := 48; he_tokensCompressed := 36;
                  he_timestamp := 1771581600000 |} ];
         firstKeptEntryId := "e5";
         c_tokensBefore := 45 |}.
Proof. by vm_compute. Qed.

End Samples.

(** * The further properties on the sample inputs *)

Section Cases.
#[local] Existing Instance Demo.platform.

(** The newline at position 4 is kept with the first four characters:
    the first fragment is one character over the limit. *)
Lemma hardSplitText_fragments_witness :
  hardSplitText ("abcd" +:+ Str.nl +:+ "efg") 4 = ["abcd" +:+ Str.nl; "efg"]
  ∧ Forall (λ chunk,
      0 < String.length chunk
      ∧ (String.length chunk ≤ 4
         ∨ (String.length chunk = 4 + 1 ∧ ∃ pre, chunk = pre +:+ Str.nl)))
      (hardSplitText ("abcd" +:+ Str.nl +:+ "efg") 4).
Proof.
  split; [reflexivity |].
  apply (hardSplitText_fragments ("abcd" +:+ Str.nl +:+ "efg") 4). lia.
Defined.

(** The short exchange without tools is cut alike on both paths. *)
Lemma paths_agree_without_tool_calls_witness :
  ∃ blocks,
    groupEntriesIntoBlocks Demo.cfg Demo.chat 0 = Returned blocks
    ∧ map entryBlockKey blocks
      = map msgBlockKey (groupMessagesIntoBlocks Demo.cfg (logMessages (drop 0 Demo.chat))).
Proof.
  apply (paths_agree_without_tool_calls Demo.cfg Demo.chat 0).
  - repeat constructor; by intros (Htype & _).
  - repeat constructor.
Defined.

(** The first block of the full turn: two messages of 10 tokens, 21
    tokens once joined, against a budget of 20. *)
Lemma message_blocks_within_budget_witness :
  mb_tokens (finalizeBlock [Demo.compareVersions; Demo.firstIsShorter]) = 21
  ∧ 2 * mb_tokens (finalizeBlock [Demo.compareVersions; Demo.firstIsShorter])
    ≤ 2 * maxTokensOf Demo.cfg
      + length (mb_messages (finalizeBlock [Demo.compareVersions; Demo.firstIsShorter])) + 1.
Proof.
  split; [reflexivity |].
  apply (message_blocks_within_budget Demo.cfg Demo.fullTurn).
  apply list_elem_of_In. left. reflexivity.
Defined.

(** The tool call of the sample log with its result: 26 tokens in one
    block, as a tool invocation kept with its result. *)
Lemma entry_blocks_within_budget_witness :
  2 * eb_tokens Demo.toolBlock
  ≤ 2 * maxTokensOf Demo.cfg + length (eb_entries Demo.toolBlock) + 1
  ∨ ∃ invocation results,
      eb_entries Demo.toolBlock = invocation :: results ∧ results ≠ []
      ∧ hasToolUse (te_message invocation) = true
      ∧ Forall (λ e, hasToolResult (te_message e) = true) results.
Proof.
  apply (entry_blocks_within_budget Demo.cfg Demo.log 0 Demo.blocks).
  - by vm_compute.
  - apply list_elem_of_In. right. left. reflexivity.
Defined.

Lemma entry_blocks_are_well_formed_witness :
  eb_hash Demo.toolBlock = hashText (eb_text Demo.toolBlock)
  ∧ eb_tokens Demo.toolBlock = estimateTokens (eb_text Demo.toolBlock).
Proof.
  destruct (entry_blocks_are_well_formed Demo.cfg Demo.log 0 Demo.blocks Demo.toolBlock)
    as (_ & Hhash & Htokens & _).
  - by vm_compute.
  - apply list_elem_of_In. right. left. reflexivity.
  - by split.
Defined.

(** A round on an engine that holds a cache entry, a raw block and an
    archived summary: the round returns a payload, and the three are still
    there. *)
Lemma round_keeps_archives_and_cache_witness :
  (∃ c, snd (handleBeforeCompact Demo.stocked Demo.event) = Compact c)
  ∧ rawArchive (fst (handleBeforeCompact Demo.stocked Demo.event)) !! "older.md"
    = Some "an older block"
  ∧ memoryArchive (fst (handleBeforeCompact Demo.stocked Demo.event))
      !! "rmem-2026-02-19-0a1b2c3d.md" = Some "an older summary"
  ∧ messageCache (fst (handleBeforeCompact Demo.stocked Demo.event)) !! "older"
    = Some (Demo.cachedAt 40 10).
Proof.
  destruct (handleBeforeCompact Demo.stocked Demo.event) as [st' r] eqn:Hhandle.
  destruct (round_keeps_archives_and_cache Demo.stocked Demo.event st' r Hhandle)
    as (_ & _ & _ & _ & Hraw & Hmemory & Hcache).
  split.
  { apply (f_equal snd) in Hhandle. vm_compute in Hhandle. subst r. eauto. }
  split; [by apply Hraw |]. split; [by apply Hmemory | by apply Hcache].
Defined.

(** The same request under the trigger cancels and writes nothing. *)
Lemma cancelled_round_writes_nothing_witness :
  snd (handleBeforeCompact Demo.state Demo.calm) = Cancel
  ∧ messageCache (fst (handleBeforeCompact Demo.state Demo.calm)) = ∅
  ∧ rawArchive (fst (handleBeforeCompact Demo.state Demo.calm)) = ∅.
Proof.
  destruct (handleBeforeCompact Demo.state Demo.calm) as [st' r] eqn:Hhandle.
  assert (r = Cancel) as ->.
  { apply (f_equal snd) in Hhandle. vm_compute in Hhandle. by subst r. }
  destruct (cancelled_round_writes_nothing Demo.state Demo.calm st' Hhandle)
    as (Hcache & Hraw & _).
  by split.
Defined.

Lemma no_compaction_under_trigger_witness :
  (∃ st', sessionBeforeCompact Demo.state Demo.calm = (st', Cancel))
  ∧ ∃ st', handleBeforeCompact Demo.state Demo.calm = (st', Cancel).
Proof.
  destruct (no_compaction_under_trigger Demo.state Demo.calm) as (Hhook & Hhandler & _).
  - vm_compute. lia.
  - split; [exact Hhook |]. destruct Hhandler as [Hthrows | Hcancel]; [|exact Hcancel].
    apply (f_equal snd) in Hthrows. by vm_compute in Hthrows.
Defined.


(** The tool block of the sample round is archived raw and cached. *)
Lemma swapped_blocks_are_archived_and_cached_witness :
  is_Some (messageCache (fst (handleBeforeCompact Demo.state Demo.event))
             !! eb_hash Demo.toolBlock).
Proof.
  destruct (handleBeforeCompact Demo.state Demo.event) as [st' r] eqn:Hhandle.
  assert (∃ c, r = Compact c) as [c ->].
  { apply (f_equal snd) in Hhandle. vm_compute in Hhandle. subst r. eauto. }
  destruct (swapped_blocks_are_archived_and_cached Demo.state Demo.event st' c Demo.toolBlock
              Hhandle) as [_ Hcached]; [|exact Hcached].
  apply list_elem_of_In. right. left. reflexivity.
Defined.

(** A cache of no entry, in no order, is ordered; the turn with the
    tool call leaves it within the limit. *)
Lemma turn_end_bounds_the_cache_witness :
  ordersCache (agentEnd (Demo.state, []) Demo.toolTurn).
Proof.
  destruct (turn_end_bounds_the_cache Demo.state [] Demo.toolTurn) as (_ & _ & Hord & _).
  - split; [constructor |]. intros hash. simpl. rewrite lookup_empty.
    split; [by intros ?%elem_of_nil | by intros [? ?]].
  - reflexivity.
  - done.
  - exact Hord.
Defined.

(** A request for 5000 seconds is cut to an hour. *)
Lemma task_state_delay_in_range_witness :
  Guard.readTaskState (Guard.Parsed "auto" (Some 5000%Z) "")
  = Guard.Valid "auto" 3600 "no reason provided"
  ∧ (30 ≤ 3600 ≤ 3600)%Z.
Proof.
  split; [reflexivity |].
  by destruct (task_state_delay_in_range (Guard.Parsed "auto" (Some 5000%Z) "")
                 "auto" 3600 "no reason provided" eq_refl) as (Hrange & _).
Defined.

(** With the nightly plan the stop goes through, and a timer of an hour
    is started. *)
Lemma stop_needs_maintenance_or_plan_witness :
  snd (Guard.beforeToolCall Demo.nightly (Guard.exec "openclaw gateway stop")) = Guard.Allow
  ∧ Guard.scheduled
      (fst (Guard.beforeToolCall Demo.nightly (Guard.exec "openclaw gateway stop")))
    = [3600%Z].
Proof.
  destruct (Guard.beforeToolCall Demo.nightly (Guard.exec "openclaw gateway stop"))
    as [w' d] eqn:Hcall.
  assert (d = Guard.Allow) as ->.
  { apply (f_equal snd) in Hcall. vm_compute in Hcall. by subst d. }
  split; [done |].
  destruct (stop_needs_maintenance_or_plan Demo.nightly "openclaw gateway stop" w'
              eq_refl Hcall) as [[Hm _]|(_ & method & seconds & reason & Hstate & Hplan)].
  - by vm_compute in Hm.
  - vm_compute in Hstate. injection Hstate as <- <- <-.
    destruct Hplan as [[Hne _]|(_ & _ & _ & Hsched & _)]; [done | exact Hsched].
Defined.

Lemma stop_without_plan_is_blocked_witness :
  Guard.beforeToolCall Demo.noPlan (Guard.exec "pkill -f openclaw")
  = (Demo.noPlan, Guard.Block Guard.stopBlockedReason).
Proof.
  by destruct (stop_without_plan_is_blocked Demo.noPlan "pkill -f openclaw" eq_refl eq_refl)
    as [Hblocked _]; apply Hblocked.
Defined.

Lemma start_is_blocked_in_maintenance_only_witness :
  Guard.beforeToolCall Demo.inMaintenance (Guard.exec "openclaw gateway start")
  = (Demo.inMaintenance, Guard.Block Guard.maintenanceReason).
Proof.
  exact (start_is_blocked_in_maintenance_only Demo.inMaintenance "openclaw gateway start"
           eq_refl eq_refl).
Defined.

(** A listing of files is no business of the guard. *)
Lemma guard_passes_other_calls_witness :
  Guard.beforeToolCall Demo.noPlan (Guard.exec "ls -la") = (Demo.noPlan, Guard.Allow).
Proof.
  apply (guard_passes_other_calls Demo.noPlan (Guard.exec "ls -la")).
  right. right. exists "ls -la". split; [reflexivity |].
  change (Guard.firstLine (Guard.trim "ls -la")) with "ls -la".
  intros (before & after & Heq). apply (f_equal String.length) in Heq.
  rewrite !length_append in Heq. simpl in Heq. lia.
Defined.

(** A stop on the second line is not seen. *)
Lemma guard_reads_first_line_only_witness :
  Guard.beforeToolCall Demo.noPlan
    (Guard.exec ("echo hi" +:+ Str.nl +:+ "openclaw gateway stop"))
  = (Demo.noPlan, Guard.Allow).
Proof.
  unfold Guard.exec.
  rewrite <- (guard_reads_first_line_only Demo.noPlan "exec" "echo hi"
                ("echo hi" +:+ Str.nl +:+ "openclaw gateway stop") eq_refl).
  reflexivity.
Defined.

Lemma guard_recognises_gateway_commands_witness :
  Guard.matchesAny "sudo openclaw  gateway stop now" Guard.STOP_PATTERNS = true.
Proof.
  assert (∀ ws, ws = "  " ∨ ws = " " → Guard.allSpace ws) as Hws.
  { intros ws [-> | ->]; (split; [done |]).
    - intros [|[|n]] c; simpl; [by intros [= <-] .. | done].
    - intros [|n] c; simpl; [by intros [= <-] | done]. }
  destruct (guard_recognises_gateway_commands "sudo openclaw  gateway stop now"
              "sudo " " now" "  " " ") as [Hverbs _]; [auto | auto |].
  destruct (Hverbs "stop" eq_refl) as [Hstop _]. apply Hstop. by left.
Defined.

End Cases.
